(** * Terathon Container Library: hash table (TSHash) and graph (TSGraph)

    A shallow embedding of [TSHash.h] / [TSHash.cpp] and of
    [TSGraph.h] / [TSGraph.cpp], with the properties of the
    specification stated and proved over it.

    Objects are identified by their address, a [nat].  An intrusive
    doubly linked chain (first/last pointer in the container, prev/next
    pointer in each member) is represented by the sequence of its members
    read from the first one along the next pointers; walking the prev
    pointers from the last member reads the same sequence reversed. *)

From stdpp Require Import gmap list.
From Stdlib Require Import ZArith Lia.

(** ** Sequences standing for intrusive chains *)

Section Chains.
Context {A : Type} `{!EqDecision A}.

(** Unlinking [x]: the members before and after it become neighbours. *)
Definition unlink (x : A) (l : list A) : list A :=
  filter (λ y, y ≠ x) l.

(** Linking [x] right behind the member [after]. *)
Fixpoint link_after (x after : A) (l : list A) : list A :=
  match l with
  | [] => []
  | y :: rest =>
      if decide (y = after) then y :: x :: rest
      else y :: link_after x after rest
  end.

(** The members of all buckets of a table except bucket [b]. *)
Definition others (b : nat) (tbl : list (list A)) : list A :=
  concat (take b tbl) ++ concat (drop (S b) tbl).

(** The members met after [x] when walking on along the next pointers;
    none when [x] is not a member. *)
Fixpoint successors (x : A) (l : list A) : list A :=
  match l with
  | [] => []
  | y :: rest => if decide (y = x) then rest else successors x rest
  end.

(** A walk from [cursor] that moves on with [step] for as long as the
    element under the cursor satisfies [keep]: the loop
    [for (e = cursor; e && keep(e); e = step(e))] of a client, one unit
    of fuel per element. *)
Fixpoint follow (step : A → option A) (keep : A → bool) (fuel : nat)
    (cursor : option A) : list A :=
  match fuel, cursor with
  | S n, Some e => if keep e then e :: follow step keep n (step e) else []
  | _, _ => []
  end.
End Chains.

(** ** TSHash *)

Module Hash.

#[local] Open Scope Z_scope.

(** Address of a [HashTableElementBase] object. *)
Definition elem := nat.

Section HashTable.
(** [type::KeyType], [type::GetKey] and [type::Hash] are supplied by the
    class stored in the table. *)
Context {KeyType : Type} `{!EqDecision KeyType}.
Variable GetKey : elem → KeyType.
Variable Hash : KeyType → Z.

(** Conversion of the value returned by [Hash] to [uint32]. *)
Definition uint32 (z : Z) : Z := z mod 2 ^ 32.

(** Conversion to [int32]: the low 32 bits read as a signed number, which
    is what the arithmetic on an [int32] field leaves when the exact
    result is out of range. *)
Definition int32 (z : Z) : Z := (z + 2 ^ 31) mod 2 ^ 32 - 2 ^ 31.

(** The fields of one [HashTableBase] together with the link fields of
    the elements.  [bucketTable] holds, per bucket, the chain from
    [firstBucketElement] to [lastBucketElement]; an element's
    [owningHashTableBucket] is the index of its bucket in [bucketTable],
    and is absent from the map when the pointer is null, or points to a
    bucket of another table.  The three counters are [int32] in the
    source.  [elementCount] and [bucketCount] count objects that are in
    memory together, the members of the chains and the buckets of the
    array, and are integers without a bound here, as the model puts no
    bound on memory.  [resizeLimit] is a product with the client's
    [maxAverageDepth] and leaves the range of [int32] on small tables
    already, so its arithmetic is written with the wrap-around. *)
Record state := State {
  elementCount : Z;
  bucketCount : Z;
  resizeLimit : Z;
  bucketTable : list (list elem);
  owningHashTableBucket : gmap elem nat;
  hashValue : gmap elem Z
}.

Definition chain (s : state) (b : nat) : list elem :=
  default [] (bucketTable s !! b).

Definition set_chain (b : nat) (l : list elem) (s : state) : state :=
  State (elementCount s) (bucketCount s) (resizeLimit s)
        (<[b := l]> (bucketTable s)) (owningHashTableBucket s) (hashValue s).

Definition set_owner (m : gmap elem nat) (s : state) : state :=
  State (elementCount s) (bucketCount s) (resizeLimit s)
        (bucketTable s) m (hashValue s).

Definition set_count (n : Z) (s : state) : state :=
  State n (bucketCount s) (resizeLimit s)
        (bucketTable s) (owningHashTableBucket s) (hashValue s).

Definition set_hash (element : elem) (h : Z) (s : state) : state :=
  State (elementCount s) (bucketCount s) (resizeLimit s)
        (bucketTable s) (owningHashTableBucket s) (<[element := h]> (hashValue s)).

(** [HashTableBucket::AppendBucketElement] *)
Definition AppendBucketElement (b : nat) (element : elem) (s : state) : state :=
  set_count (elementCount s + 1)
    (set_owner (<[element := b]> (owningHashTableBucket s))
       (set_chain b (chain s b ++ [element]) s)).

(** [HashTableBucket::InsertBucketElementAfter] *)
Definition InsertBucketElementAfter (b : nat) (element after : elem) (s : state) : state :=
  set_count (elementCount s + 1)
    (set_owner (<[element := b]> (owningHashTableBucket s))
       (set_chain b (link_after element after (chain s b)) s)).

(** [HashTableBucket::RemoveBucketElement] *)
Definition RemoveBucketElement (b : nat) (element : elem) (s : state) : state :=
  set_count (elementCount s - 1)
    (set_owner (delete element (owningHashTableBucket s))
       (set_chain b (unlink element (chain s b)) s)).

(** [HashTableBucket::RemoveAllBucketElements]: every member gets null
    links, then the bucket's first and last pointers are cleared. *)
Definition RemoveAllBucketElements (b : nat) (s : state) : state :=
  set_chain b []
    (set_owner (foldl (λ m element, delete element m) (owningHashTableBucket s) (chain s b)) s).

(** [HashTableElementBase::~HashTableElementBase] followed by the release
    of the object. *)
Definition delete_element (element : elem) (s : state) : state :=
  let s' := match owningHashTableBucket s !! element with
            | Some b => RemoveBucketElement b element s
            | None => s
            end in
  State (elementCount s') (bucketCount s') (resizeLimit s')
        (bucketTable s') (owningHashTableBucket s') (delete element (hashValue s')).

(** [HashTableBucket::PurgeBucket]: [while (firstBucketElement) delete
    firstBucketElement;].  One unit of fuel per iteration. *)
Fixpoint PurgeBucket_loop (fuel : nat) (b : nat) (s : state) : state :=
  match fuel with
  | O => s
  | S n =>
      match chain s b with
      | [] => s
      | first :: _ => PurgeBucket_loop n b (delete_element first s)
      end
  end.

Definition PurgeBucket (b : nat) (s : state) : state :=
  PurgeBucket_loop (length (chain s b)) b s.

(** [HashTableBase::HashTableBase] *)
Definition HashTableBase (initialBucketCount maxAverageDepth : Z) : state :=
  State 0 initialBucketCount (int32 (initialBucketCount * maxAverageDepth))
        (replicate (Z.to_nat initialBucketCount) []) ∅ ∅.

(** The indices visited by [for (a = bucketCount - 1; a >= 0; a--)]. *)
Definition downward (count : Z) : list nat := reverse (seq 0 (Z.to_nat count)).

(** [HashTableBase::~HashTableBase]: the buckets are destroyed from the
    last to the first, and [HashTableBucket::~HashTableBucket] purges its
    bucket.  The result describes the elements and the storage that is
    released next. *)
Definition HashTableBase_destructor (s : state) : state :=
  foldl (λ acc a, PurgeBucket a acc) s (downward (bucketCount s)).

(** [HashTableBase::RemoveAllHashTableElements] *)
Definition RemoveAllHashTableElements (s : state) : state :=
  set_count 0 (foldl (λ acc a, RemoveAllBucketElements a acc) s (downward (bucketCount s))).

(** [HashTableBase::PurgeHashTable] *)
Definition PurgeHashTable (s : state) : state :=
  set_count 0 (foldl (λ acc a, PurgeBucket a acc) s (downward (bucketCount s))).

(** [hashValue & (bucketCount - 1)] *)
Definition bucketIndex (h count : Z) : nat := Z.to_nat (Z.land h (count - 1)).

(** [HashTableBase::GetBucket] *)
Definition GetBucket (h : Z) (s : state) : nat := bucketIndex h (bucketCount s).

(** The cached [hashValue] of an element. *)
Definition cachedHash (s : state) (element : elem) : Z :=
  default 0 (hashValue s !! element).

(** Inner loop of [ResizeBucketTable]: the members of one old bucket,
    head to tail, are appended to the new bucket their cached hash
    selects. *)
Definition rehash_bucket (newBucketCount : Z) (old : list elem) (s : state) : state :=
  foldl (λ acc element,
           AppendBucketElement (bucketIndex (cachedHash acc element) newBucketCount) element acc)
        s old.

(** [HashTableBase::ResizeBucketTable].  The new array is installed in
    [bucketTable] before the old buckets are walked; the source walks
    the old array through a local pointer and installs the new one
    last, with the same result.  [newBucketCount] is the exact double,
    the size of the array that is built; [resizeLimit *= 2] is the
    [int32] product. *)
Definition ResizeBucketTable (s : state) : state :=
  let newBucketCount := bucketCount s * 2 in
  let count := bucketCount s in
  let oldTable := bucketTable s in
  let s0 := State 0 (bucketCount s) (resizeLimit s)
                  (replicate (Z.to_nat newBucketCount) [])
                  (owningHashTableBucket s) (hashValue s) in
  let s1 := foldl (λ acc a, rehash_bucket newBucketCount (default [] (oldTable !! a)) acc)
                  s0 (downward count) in
  State (elementCount s1) newBucketCount (int32 (resizeLimit s * 2))
        (bucketTable s1) (owningHashTableBucket s1) (hashValue s1).

(** The key scan shared by insertion and lookup: the first member of
    [l] whose key equals [key]. *)
Fixpoint scan (key : KeyType) (l : list elem) : option elem :=
  match l with
  | [] => None
  | object :: rest =>
      if decide (GetKey object = key) then Some object else scan key rest
  end.

(** First block of [HashTable::InsertHashTableElement]: an unattached
    element may trigger the resize, an attached one is detached.  The
    insertion of an element that a bucket of another table holds is
    [InsertHashTableElement_attached] below. *)
Definition InsertHashTableElement_detach (element : elem) (s : state) : state :=
  match owningHashTableBucket s !! element with
  | None => if decide (resizeLimit s ≤ elementCount s) then ResizeBucketTable s else s
  | Some bucket => RemoveBucketElement bucket element s
  end.

(** [HashTable::InsertHashTableElement] *)
Definition InsertHashTableElement (element : elem) (s : state) : state :=
  let s1 := InsertHashTableElement_detach element s in
  let key := GetKey element in
  let hash := uint32 (Hash key) in
  let s2 := set_hash element hash s1 in
  let bucket := GetBucket hash s2 in
  match scan key (reverse (chain s2 bucket)) with
  | Some after => InsertBucketElementAfter bucket element after s2
  | None => AppendBucketElement bucket element s2
  end.

(** [HashTable::InsertHashTableElement] on an element whose
    [owningHashTableBucket] is not null: that bucket unlinks the element
    and no resize is considered.  When the bucket belongs to another
    table, the chain and the count that change with the unlinking are
    those of the other table, and the element is in no chain of this
    one. *)
Definition InsertHashTableElement_attached (element : elem) (s : state) : state :=
  let s1 := match owningHashTableBucket s !! element with
            | Some bucket => RemoveBucketElement bucket element s
            | None => s
            end in
  let key := GetKey element in
  let hash := uint32 (Hash key) in
  let s2 := set_hash element hash s1 in
  let bucket := GetBucket hash s2 in
  match scan key (reverse (chain s2 bucket)) with
  | Some after => InsertBucketElementAfter bucket element after s2
  | None => AppendBucketElement bucket element s2
  end.

(** [HashTable::FindHashTableElement] *)
Definition FindHashTableElement (key : KeyType) (s : state) : option elem :=
  scan key (chain s (GetBucket (uint32 (Hash key)) s)).

(** [HashTable::RemoveHashTableElement] *)
Definition RemoveHashTableElement (element : elem) (s : state) : state :=
  match owningHashTableBucket s !! element with
  | Some bucket => RemoveBucketElement bucket element s
  | None => s
  end.

(** [HashTableBase::GetHashTableElementCount] and
    [HashTableBase::GetBucketCount] *)
Definition GetHashTableElementCount (s : state) : Z := elementCount s.

Definition GetBucketCount (s : state) : Z := bucketCount s.

(** [HashTableBase::GetFirstBucketElement] and
    [HashTableBase::GetLastBucketElement] *)
Definition GetFirstBucketElement (index : nat) (s : state) : option elem :=
  head (chain s index).

Definition GetLastBucketElement (index : nat) (s : state) : option elem :=
  last (chain s index).

(** [HashTableElementBase::GetNextBucketElement] and
    [HashTableElementBase::GetPreviousBucketElement]: the neighbours of
    an element in the chain of the bucket it is attached to.  Both
    pointers of an unattached element are null. *)
Definition GetNextBucketElement (element : elem) (s : state) : option elem :=
  match owningHashTableBucket s !! element with
  | Some b => head (successors element (chain s b))
  | None => None
  end.

Definition GetPreviousBucketElement (element : elem) (s : state) : option elem :=
  match owningHashTableBucket s !! element with
  | Some b => head (successors element (reverse (chain s b)))
  | None => None
  end.

(** *** Client programs and the representation invariant *)

(** The calls a client can make on one table and its elements.
    [OpResize] stands for a call of the protected [ResizeBucketTable]
    on its own and [OpDelete] for the destruction of one element.
    [OpInsert] on an element that is in no chain of this table is the
    insertion of an element that is attached nowhere; [OpInsertAttached]
    is the insertion of an element that is attached when the call is
    made, to this table or to another one.  An element of this table
    that another table takes over leaves this one as by [OpRemove]. *)
Inductive op :=
| OpInsert (element : elem)
| OpRemove (element : elem)
| OpRemoveAll
| OpPurge
| OpResize
| OpDelete (element : elem)
| OpInsertAttached (element : elem).

Definition exec (o : op) (s : state) : state :=
  match o with
  | OpInsert element => InsertHashTableElement element s
  | OpRemove element => RemoveHashTableElement element s
  | OpRemoveAll => RemoveAllHashTableElements s
  | OpPurge => PurgeHashTable s
  | OpResize => ResizeBucketTable s
  | OpDelete element => delete_element element s
  | OpInsertAttached element => InsertHashTableElement_attached element s
  end.

Definition run (ops : list op) (s : state) : state :=
  foldl (λ acc o, exec o acc) s ops.

(** The elements attached after a program, in the order of their latest
    insertion: the reading of "earliest inserted" used below. *)
Definition attach (o : op) (log : list elem) : list elem :=
  match o with
  | OpInsert element | OpInsertAttached element => unlink element log ++ [element]
  | OpRemove element | OpDelete element => unlink element log
  | OpRemoveAll | OpPurge => []
  | OpResize => log
  end.

Definition insertionOrder (ops : list op) : list elem :=
  foldl (λ log o, attach o log) [] ops.

Definition isPowerOfTwo (n : Z) : Prop := ∃ k : nat, n = 2 ^ Z.of_nat k.

(** The hash an element is filed under. *)
Definition keyHash (element : elem) : Z := uint32 (Hash (GetKey element)).

(** Consistency of the back references with the chains. *)
Record wf (s : state) : Prop := Wf {
  wf_pow2 : isPowerOfTwo (bucketCount s);
  wf_len : length (bucketTable s) = Z.to_nat (bucketCount s);
  wf_owner : ∀ e b, owningHashTableBucket s !! e = Some b ↔ e ∈ chain s b;
  wf_nodup : NoDup (concat (bucketTable s));
  wf_hash : ∀ e b, owningHashTableBucket s !! e = Some b →
              hashValue s !! e = Some (keyHash e) ∧ b = GetBucket (keyHash e) s
}.

(** [elementCount] against the bucket sizes. *)
Definition bucketSizes (s : state) : list nat := length <$> bucketTable s.

Definition counted (s : state) : Prop :=
  elementCount s = Z.of_nat (sum_list (bucketSizes s)).

(** Same-key members of a bucket appear in insertion order. *)
Definition ordered (log : list elem) (s : state) : Prop :=
  ∀ key, filter (λ e, GetKey e = key) (chain s (GetBucket (uint32 (Hash key)) s))
         = filter (λ e, GetKey e = key) log.

(** The chain a bucket gets when [element] is filed in it: the list-level
    reading of the scan and of the two ways of linking that end
    [InsertHashTableElement]. *)
Definition placed (element : elem) (l : list elem) : list elem :=
  match scan (GetKey element) (reverse l) with
  | Some after => link_after element after l
  | None => l ++ [element]
  end.

(** Members with the same key sit next to each other: walking a chain,
    a member is followed by one with its key, or no later member has
    its key. *)
Fixpoint grouped (l : list elem) : Prop :=
  match l with
  | [] => True
  | x :: rest =>
      grouped rest ∧
      ((∃ y, head rest = Some y ∧ GetKey y = GetKey x) ∨
       Forall (λ z, GetKey z ≠ GetKey x) rest)
  end.

Definition allGrouped (s : state) : Prop := ∀ b, grouped (chain s b).

(** What emptying a bucket by some procedure [g] guarantees. *)
Definition empties (g : nat → state → state) : Prop :=
  ∀ s b, wf s → (b < length (bucketTable s))%nat →
    wf (g b s) ∧ bucketCount (g b s) = bucketCount s ∧
    resizeLimit (g b s) = resizeLimit s ∧
    chain (g b s) b = [] ∧ (∀ b', b' ≠ b → chain (g b s) b' = chain s b').

(** The table and the back references [ResizeBucketTable] builds,
    element by element. *)
Definition distribute (f : elem → nat) (tbl : list (list elem)) (l : list elem) :=
  foldl (λ t e, <[f e := default [] (t !! f e) ++ [e]]> t) tbl l.

Definition reowned (f : elem → nat) (m : gmap elem nat) (l : list elem) :=
  foldl (λ m e, <[e := f e]> m) m l.

(** All members of a table in the order [ResizeBucketTable] visits them. *)
Definition visitOrder (s : state) : list elem :=
  concat ((λ a, default [] (bucketTable s !! a)) <$> downward (bucketCount s)).

End HashTable.

(** A table of elements whose key is their address, hashed to itself. *)
Definition addressKey (element : elem) : Z := Z.of_nat element.
Definition identityHash (key : Z) : Z := key.

(** Elements that share keys: the key is the address modulo 8. *)
Definition lowBitsKey (element : elem) : Z := Z.of_nat element mod 8.

End Hash.

(** ** TSGraph *)

Module Graph.

(** Addresses of [GraphElementBase] and of [GraphRelationFinish] objects. *)
Definition elem := nat.
Definition rel := nat.

(** The two pointers of a relation object. *)
Record GraphRelationFinish := Relation {
  startElement : elem;
  finishElement : elem
}.

(** The relation objects alive, the two relation lists of every element
    (absent from the map when empty) and the [elementList] of one
    [GraphBase].  A relation is linked in both of its lists from its
    construction to its destruction ([DetachRelation] and
    [AttachRelation] are not part of this development). *)
Record world := World {
  relations : gmap rel GraphRelationFinish;
  outgoingRelationList : gmap elem (list rel);
  incomingRelationList : gmap elem (list rel);
  elementList : list elem
}.

Definition outgoing (w : world) (element : elem) : list rel :=
  default [] (outgoingRelationList w !! element).

Definition incoming (w : world) (element : elem) : list rel :=
  default [] (incomingRelationList w !! element).

(** A [Graph] right after its construction, with no relation alive. *)
Definition emptyGraph : world := World ∅ ∅ ∅ [].

(** Modelled from the spec: [List::AppendListElement] of TSList.h, which is
    not among the sources, for an element that is a member of this list or
    of no list.  The links are in the element, so the element is a member
    once: it leaves its place and becomes the last member. *)
Definition List_AppendListElement (x : elem) (l : list elem) : list elem :=
  unlink x l ++ [x].

(** Modelled from the spec: [List::RemoveListElement] of TSList.h, the
    removal of a member given a reference to it. *)
Definition List_RemoveListElement (x : elem) (l : list elem) : list elem :=
  unlink x l.

(** [GraphBase::AddGraphElement] *)
Definition AddGraphElement (element : elem) (w : world) : world :=
  World (relations w) (outgoingRelationList w) (incomingRelationList w)
        (List_AppendListElement element (elementList w)).

(** [GraphRelationStart::GraphRelationStart] followed by
    [GraphRelationFinish::GraphRelationFinish], for a relation object
    placed at address [r]: both pointers are set and the relation is
    appended to the outgoing list of [start] and to the incoming list of
    [finish]. *)
Definition newRelation (r : rel) (start finish : elem) (w : world) : world :=
  World (<[r := Relation start finish]> (relations w))
        (<[start := outgoing w start ++ [r]]> (outgoingRelationList w))
        (<[finish := incoming w finish ++ [r]]> (incomingRelationList w))
        (elementList w).

(** *** Removal of an element *)

(** Modelled from the spec: the destructor of a list member (TSList.h),
    run for a relation object: the relation leaves the outgoing list and
    the incoming list it is linked in, and the object is released. *)
Definition destroyRelation (r : rel) (w : world) : world :=
  match relations w !! r with
  | None => w
  | Some R =>
      World (delete r (relations w))
            (<[startElement R := unlink r (outgoing w (startElement R))]> (outgoingRelationList w))
            (<[finishElement R := unlink r (incoming w (finishElement R))]> (incomingRelationList w))
            (elementList w)
  end.

(** Modelled from the spec: [List::PurgeList] of TSList.h, which destroys
    the first member until the list is empty.  One unit of fuel per
    iteration; [members] reads the list being purged. *)
Fixpoint PurgeList (fuel : nat) (members : world → list rel) (w : world) : world :=
  match fuel with
  | O => w
  | S n =>
      match members w with
      | [] => w
      | first :: _ => PurgeList n members (destroyRelation first w)
      end
  end.

(** [GraphElementBase::PurgeIncomingRelations] *)
Definition PurgeIncomingRelations (element : elem) (w : world) : world :=
  PurgeList (length (incoming w element)) (λ w', incoming w' element) w.

(** [GraphElementBase::PurgeOutgoingRelations] *)
Definition PurgeOutgoingRelations (element : elem) (w : world) : world :=
  PurgeList (length (outgoing w element)) (λ w', outgoing w' element) w.

(** [GraphBase::RemoveGraphElement] *)
Definition RemoveGraphElement (element : elem) (w : world) : world :=
  let w1 := PurgeIncomingRelations element w in
  let w2 := PurgeOutgoingRelations element w1 in
  World (relations w2) (outgoingRelationList w2) (incomingRelationList w2)
        (List_RemoveListElement element (elementList w2)).

(** [GraphElementBase::GetOutgoingRelationCount] and
    [GraphElementBase::GetIncomingRelationCount] *)
Definition GetOutgoingRelationCount (w : world) (element : elem) : nat :=
  length (outgoing w element).

Definition GetIncomingRelationCount (w : world) (element : elem) : nat :=
  length (incoming w element).

(** Every relation alive is a member of the outgoing list of its start
    and of the incoming list of its finish, and the lists hold nothing
    else. *)
Record wf (w : world) : Prop := Wf {
  wf_outgoing : ∀ e r, r ∈ outgoing w e ↔
                  ∃ R, relations w !! r = Some R ∧ startElement R = e;
  wf_incoming : ∀ e r, r ∈ incoming w e ↔
                  ∃ R, relations w !! r = Some R ∧ finishElement R = e;
  wf_outgoing_NoDup : ∀ e, NoDup (outgoing w e);
  wf_incoming_NoDup : ∀ e, NoDup (incoming w e)
}.


(** *** The predecessor test *)

(** [GetStartElement] and [GetFinishElement] of the relation at [r]. *)
Definition startOf (w : world) (r : rel) : option elem :=
  startElement <$> relations w !! r.

Definition finishOf (w : world) (r : rel) : option elem :=
  finishElement <$> relations w !! r.

(** The finish elements met when walking the outgoing relations of
    [element] from the first one. *)
Definition finishes (w : world) (element : elem) : list elem :=
  omap (finishOf w) (outgoing w element).

(** The relations of [w] that start or finish at [a]. *)
Definition incident (w : world) (a : elem) (r : rel) : Prop :=
  startOf w r = Some a ∨ finishOf w r = Some a.

(** What the search does to its frontier, recorded as it runs. *)
Inductive event :=
| Enqueue (element : elem)
| Visit (element : elem).

(** The three lists of elements [Predecessor] works on: the graph's
    [elementList] and the locals [readyList] and [visitedList]; and the
    record of the calls of [readyList.AppendListElement] and
    [visitedList.AppendListElement]. *)
Record search := Search {
  graphList : list elem;
  readyList : list elem;
  visitedList : list elem;
  trace : list event
}.

Inductive listName := TheElementList | TheReadyList | TheVisitedList.

(** Modelled from the spec: [List::AppendListElement] of TSList.h, among
    the three lists.  The element leaves the list it is a member of, if
    any, and becomes the last member of the target list. *)
Definition AppendListElement (target : listName) (x : elem) (st : search) : search :=
  let g := unlink x (graphList st) in
  let r := unlink x (readyList st) in
  let v := unlink x (visitedList st) in
  match target with
  | TheElementList => Search (g ++ [x]) r v (trace st)
  | TheReadyList => Search g (r ++ [x]) v (trace st ++ [Enqueue x])
  | TheVisitedList => Search g r (v ++ [x]) (trace st ++ [Visit x])
  end.

(** Modelled from the spec: [List::Member] of TSList.h, for
    [visitedList]. *)
Definition Member_visitedList (x : elem) (st : search) : bool :=
  bool_decide (x ∈ visitedList st).

(** The [while (relation)] loop of [GraphBase::Predecessor] over the
    finish elements of the outgoing relations of one element.  [true]
    stands for [goto end] with [result = true]. *)
Fixpoint scanRelations (second : elem) (fs : list elem) (st : search) : bool * search :=
  match fs with
  | [] => (false, st)
  | finish :: rest =>
      if Member_visitedList finish st then scanRelations second rest st
      else if decide (finish = second) then (true, st)
      else scanRelations second rest (AppendListElement TheReadyList finish st)
  end.

(** The first [for (;;)] loop of [GraphBase::Predecessor], one unit of
    fuel per iteration. *)
Fixpoint searchLoop (fuel : nat) (w : world) (second : elem) (st : search)
  : option (bool * search) :=
  match fuel with
  | O => None
  | S n =>
      match readyList st with
      | [] => Some (false, st)
      | element :: _ =>
          let st1 := AppendListElement TheVisitedList element st in
          match scanRelations second (finishes w element) st1 with
          | (true, st2) => Some (true, st2)
          | (false, st2) => searchLoop n w second st2
          end
      end
  end.

(** The two loops after [end:], which hand the members of a local list
    back to [elementList] starting with the first. *)
Fixpoint drain (fuel : nat) (members : search → list elem) (st : search) : search :=
  match fuel with
  | O => st
  | S n =>
      match members st with
      | [] => st
      | element :: _ => drain n members (AppendListElement TheElementList element st)
      end
  end.

Definition giveBack (st : search) : search :=
  let st1 := drain (length (readyList st)) readyList st in
  drain (length (visitedList st1)) visitedList st1.

(** The state in which the first loop is entered: [first] has been
    appended to the empty [readyList]. *)
Definition startState (w : world) (first : elem) : search :=
  AppendListElement TheReadyList first (Search (elementList w) [] [] []).

(** Enough fuel for [searchLoop]: an iteration moves to [visitedList] an
    element that was not there, and only [first] and the finish elements
    of relations are ever moved. *)
Definition searchFuel (w : world) : nat := S (S (size (relations w))).

(** The outcome of a call: the value returned, the world afterwards and
    the record of the frontier. *)
Record outcome := Outcome {
  result : bool;
  after : world;
  events : list event
}.

(** [GraphBase::Predecessor] *)
Definition Predecessor (w : world) (first second : elem) : option outcome :=
  match searchLoop (searchFuel w) w second (startState w first) with
  | None => None
  | Some (res, st) =>
      Some (Outcome res
              (World (relations w) (outgoingRelationList w) (incomingRelationList w)
                     (graphList (giveBack st)))
              (trace st))
  end.

(** One relation leads from [x] to [y]; one or more relations do. *)
Definition edge (w : world) (x y : elem) : Prop := y ∈ finishes w x.

Definition path (w : world) : elem → elem → Prop := tc (edge w).

(** The elements enqueued and the elements visited, in order. *)
Definition enqueues (tr : list event) : list elem :=
  omap (λ ev, match ev with Enqueue x => Some x | Visit _ => None end) tr.

Definition visits (tr : list event) : list elem :=
  omap (λ ev, match ev with Visit x => Some x | Enqueue _ => None end) tr.

(** The members of the three lists, and of the two local ones. *)
Definition members (st : search) : list elem :=
  graphList st ++ readyList st ++ visitedList st.

Definition frontier (st : search) : list elem :=
  readyList st ++ visitedList st.

(** The finish elements of all relations alive. *)
Definition allFinishes (w : world) : list elem :=
  (λ p, finishElement p.2) <$> map_to_list (relations w).

(** Visits are recorded in the order of [visitedList], nothing is
    enqueued once it has been visited, and the members of both local
    lists have been enqueued. *)
Definition recorded (st : search) : Prop :=
  visits (trace st) = visitedList st ∧
  (∀ t1 x t2, trace st = t1 ++ Enqueue x :: t2 → x ∉ visits t1) ∧
  (∀ x, x ∈ frontier st → x ∈ enqueues (trace st)).

(** Once the search has visited anything, it has visited [first]. *)
Definition startVisited (first : elem) (st : search) : Prop :=
  first ∈ visitedList st ∨ (head (readyList st) = Some first ∧ visitedList st = []).

(** The members of the three lists are those of the container, and the
    members of the local lists can be reached from [first]. *)
Definition kept (w : world) (first : elem) (st : search) : Prop :=
  members st ≡ₚ elementList w ∧
  (∀ x, x ∈ frontier st → x = first ∨ path w first x).

(** The successors of the visited elements are in the local lists, and
    [second] is not, unless it is [first]. *)
Definition closed (w : world) (first second : elem) (st : search) : Prop :=
  (∀ x y, x ∈ visitedList st → y ∈ finishes w x → y ∈ frontier st) ∧
  (second ∈ frontier st → second = first) ∧
  first ∈ frontier st.

(** *** Looking up relations *)

(** The loop of [FindOutgoingRelation] and [FindNextOutgoingRelation]
    along the next pointers of an outgoing list: the first relation whose
    finish element is [finish]. *)
Fixpoint scanOutgoing (w : world) (finish : elem) (l : list rel) : option rel :=
  match l with
  | [] => None
  | relation :: rest =>
      if decide (finishOf w relation = Some finish) then Some relation
      else scanOutgoing w finish rest
  end.

(** The loop of [FindIncomingRelation] and [FindNextIncomingRelation]
    along an incoming list: the first relation whose start element is
    [start]. *)
Fixpoint scanIncoming (w : world) (start : elem) (l : list rel) : option rel :=
  match l with
  | [] => None
  | relation :: rest =>
      if decide (startOf w relation = Some start) then Some relation
      else scanIncoming w start rest
  end.

(** [GraphElementBase::FindOutgoingRelation] *)
Definition FindOutgoingRelation (w : world) (element finish : elem) : option rel :=
  scanOutgoing w finish (outgoing w element).

(** [GraphElementBase::FindNextOutgoingRelation]: the scan goes on behind
    [previous] in the outgoing list [previous] is linked in, that of its
    start element. *)
Definition FindNextOutgoingRelation (w : world) (finish : elem) (previous : rel)
  : option rel :=
  match startOf w previous with
  | Some start => scanOutgoing w finish (successors previous (outgoing w start))
  | None => None
  end.

(** [GraphElementBase::FindIncomingRelation] *)
Definition FindIncomingRelation (w : world) (element start : elem) : option rel :=
  scanIncoming w start (incoming w element).

(** [GraphElementBase::FindNextIncomingRelation] *)
Definition FindNextIncomingRelation (w : world) (start : elem) (previous : rel)
  : option rel :=
  match finishOf w previous with
  | Some finish => scanIncoming w start (successors previous (incoming w finish))
  | None => None
  end.

(** [GraphElementBase::IsolatedGraphElement] *)
Definition IsolatedGraphElement (w : world) (element : elem) : bool :=
  bool_decide (outgoing w element = []) && bool_decide (incoming w element = []).

(** *** Detaching and re-pointing relations *)

(** Modelled from the spec: [List::AppendListElement] of TSList.h for a
    relation and the outgoing list of [start].  The relation leaves the
    outgoing list it is linked in, that of its start element, and becomes
    the last member of the list of [start]. *)
Definition appendOutgoing (r : rel) (start : elem) (w : world) : gmap elem (list rel) :=
  let lists := match startOf w r with
               | Some old => <[old := unlink r (outgoing w old)]> (outgoingRelationList w)
               | None => outgoingRelationList w
               end in
  <[start := default [] (lists !! start) ++ [r]]> lists.

(** Modelled from the spec: [List::AppendListElement] for a relation and
    the incoming list of [finish]. *)
Definition appendIncoming (r : rel) (finish : elem) (w : world) : gmap elem (list rel) :=
  let lists := match finishOf w r with
               | Some old => <[old := unlink r (incoming w old)]> (incomingRelationList w)
               | None => incomingRelationList w
               end in
  <[finish := default [] (lists !! finish) ++ [r]]> lists.

(** [GraphRelationStart::SetStartElement]: the pointer is set and the
    relation is appended to the outgoing list of [start]. *)
Definition SetStartElement (r : rel) (start : elem) (w : world) : world :=
  match relations w !! r with
  | None => w
  | Some R =>
      World (<[r := Relation start (finishElement R)]> (relations w))
            (appendOutgoing r start w) (incomingRelationList w) (elementList w)
  end.

(** [GraphRelationFinish::SetFinishElement] *)
Definition SetFinishElement (r : rel) (finish : elem) (w : world) : world :=
  match relations w !! r with
  | None => w
  | Some R =>
      World (<[r := Relation (startElement R) finish]> (relations w))
            (outgoingRelationList w) (appendIncoming r finish w) (elementList w)
  end.

(** Modelled from the spec: [ListElement::Detach] of TSList.h, by which
    a member leaves the list it is linked in.
    [GraphRelationFinish::DetachRelation] calls it for both lists; the two
    pointers of the relation stay as they are. *)
Definition DetachRelation (r : rel) (w : world) : world :=
  match relations w !! r with
  | None => w
  | Some R =>
      World (relations w)
            (<[startElement R := unlink r (outgoing w (startElement R))]>
               (outgoingRelationList w))
            (<[finishElement R := unlink r (incoming w (finishElement R))]>
               (incomingRelationList w))
            (elementList w)
  end.

(** [GraphRelationFinish::AttachRelation], which begins with
    [GraphRelationStart::AttachRelation]: the relation is appended to the
    outgoing list of its start element and to the incoming list of its
    finish element. *)
Definition AttachRelation (r : rel) (w : world) : world :=
  match relations w !! r with
  | None => w
  | Some R =>
      World (relations w)
            (appendOutgoing r (startElement R) w)
            (appendIncoming r (finishElement R) w)
            (elementList w)
  end.

(** [GraphBase::DetachGraphElement] *)
Definition DetachGraphElement (element : elem) (w : world) : world :=
  World (relations w) (outgoingRelationList w) (incomingRelationList w)
        (List_RemoveListElement element (elementList w)).

(** *** Example graphs *)

(** Elements 0, 1, 2 (A, B, C) with the relations A→B and B→C. *)
Definition chainGraph : world :=
  newRelation 1 1 2 (newRelation 0 0 1
    (AddGraphElement 2 (AddGraphElement 1 (AddGraphElement 0 emptyGraph)))).

(** One element with a relation to itself. *)
Definition selfLoopGraph : world :=
  newRelation 0 0 0 (AddGraphElement 0 emptyGraph).

(** Two elements with a relation each way. *)
Definition twoCycleGraph : world :=
  newRelation 1 1 0 (newRelation 0 0 1
    (AddGraphElement 1 (AddGraphElement 0 emptyGraph))).

(** Elements 0..3 with the relations 0→1, 0→2 and 1→2. *)
Definition diamondGraph : world :=
  newRelation 2 1 2 (newRelation 1 0 2 (newRelation 0 0 1
    (AddGraphElement 3 (AddGraphElement 2 (AddGraphElement 1 (AddGraphElement 0 emptyGraph)))))).

End Graph.

(** * Properties *)

(** ** Chains *)

(** A closed decidable statement, settled by evaluating its decision
    procedure. *)
Ltac evaluate := apply (bool_decide_unpack _); by vm_compute.

Section ChainFacts.
Context {A : Type} `{!EqDecision A}.
Implicit Types (l : list A) (x e : A).

Lemma elem_of_unlink x e l : x ∈ unlink e l ↔ x ∈ l ∧ x ≠ e.
Proof. unfold unlink. rewrite list_elem_of_filter. tauto. Qed.

Lemma NoDup_unlink e l : NoDup l → NoDup (unlink e l).
Proof. apply NoDup_filter. Qed.

Lemma unlink_cons_eq e l : unlink e (e :: l) = unlink e l.
Proof. unfold unlink. by rewrite filter_cons_False by (intros H; apply H; reflexivity). Qed.

Lemma unlink_cons_ne e x l : x ≠ e → unlink e (x :: l) = x :: unlink e l.
Proof. intros. unfold unlink. by rewrite filter_cons_True. Qed.

Lemma unlink_app e l1 l2 : unlink e (l1 ++ l2) = unlink e l1 ++ unlink e l2.
Proof. apply filter_app. Qed.

Lemma unlink_absent e l : e ∉ l → unlink e l = l.
Proof.
  induction l as [|x l IH]; [done|].
  rewrite not_elem_of_cons. intros [Hne Hl].
  rewrite unlink_cons_ne by done. by rewrite IH.
Qed.

Lemma unlink_perm e l : NoDup l → e ∈ l → l ≡ₚ e :: unlink e l.
Proof.
  induction l as [|x l IH]; intros Hnd Hin.
  - by apply elem_of_nil in Hin.
  - apply NoDup_cons in Hnd as [Hx Hnd].
    destruct (decide (x = e)) as [->|Hne].
    + rewrite unlink_cons_eq, unlink_absent; done.
    + rewrite unlink_cons_ne by done.
      apply elem_of_cons in Hin as [->|Hin]; [done|].
      rewrite (IH Hnd Hin) at 1. apply Permutation_swap.
Qed.

Lemma length_unlink e l : NoDup l → e ∈ l → S (length (unlink e l)) = length l.
Proof. intros Hnd Hin. by rewrite (unlink_perm e l Hnd Hin) at 2. Qed.

Lemma filter_unlink (P : A → Prop) `{!∀ x, Decision (P x)} e l :
  filter P (unlink e l) = unlink e (filter P l).
Proof.
  induction l as [|x l IH]; [done|].
  destruct (decide (x = e)) as [->|Hne].
  - rewrite unlink_cons_eq. destruct (decide (P e)).
    + rewrite filter_cons_True by done. by rewrite unlink_cons_eq.
    + by rewrite filter_cons_False by done.
  - rewrite unlink_cons_ne by done. destruct (decide (P x)).
    + rewrite !filter_cons_True by done. rewrite unlink_cons_ne by done. by f_equal.
    + by rewrite !filter_cons_False by done.
Qed.

Lemma unlink_filter_out (P : A → Prop) `{!∀ x, Decision (P x)} e l :
  ¬ P e → filter P (unlink e l) = filter P l.
Proof.
  intros HP. rewrite filter_unlink. apply unlink_absent.
  rewrite list_elem_of_filter. tauto.
Qed.

Lemma link_after_split x a l1 l2 :
  a ∉ l1 → link_after x a (l1 ++ a :: l2) = l1 ++ a :: x :: l2.
Proof.
  induction l1 as [|y l1 IH]; simpl; intros Hn.
  - by rewrite decide_True.
  - apply not_elem_of_cons in Hn as [Hne Hn].
    rewrite decide_False by done. by rewrite IH.
Qed.

Lemma link_after_perm x a l : a ∈ l → link_after x a l ≡ₚ x :: l.
Proof.
  induction l as [|y l IH]; intros Hin.
  - by apply elem_of_nil in Hin.
  - simpl. destruct (decide (y = a)) as [->|Hne].
    + apply Permutation_swap.
    + apply elem_of_cons in Hin as [->|Hin]; [done|].
      rewrite (IH Hin). apply Permutation_swap.
Qed.
End ChainFacts.

(** ** Bucket arrays *)

Section TableFacts.
Context {A : Type}.
Implicit Types (tbl : list (list A)) (l : list A).

Lemma concat_lookup_perm tbl b l :
  tbl !! b = Some l → concat tbl ≡ₚ l ++ others b tbl.
Proof.
  intros Hb. rewrite <- (take_drop_middle tbl b l Hb) at 1.
  rewrite concat_app, concat_cons. unfold others.
  rewrite (assoc_L (++)), (Permutation_app_comm _ l), <- (assoc_L (++)). done.
Qed.

Lemma concat_insert_perm tbl b l' :
  (b < length tbl)%nat → concat (<[b := l']> tbl) ≡ₚ l' ++ others b tbl.
Proof.
  intros Hb. rewrite insert_take_drop by done.
  rewrite concat_app, concat_cons. unfold others.
  rewrite (assoc_L (++)), (Permutation_app_comm _ l'), <- (assoc_L (++)). done.
Qed.

Lemma sum_sizes tbl : sum_list (length <$> tbl) = length (concat tbl).
Proof.
  induction tbl as [|l tbl IH]; [done|].
  rewrite fmap_cons, concat_cons, length_app. simpl. by rewrite IH.
Qed.

Lemma concat_reverse_perm tbl : concat (reverse tbl) ≡ₚ concat tbl.
Proof.
  induction tbl as [|l tbl IH]; [done|].
  rewrite reverse_cons, concat_app, concat_cons. simpl.
  rewrite app_nil_r, IH. apply Permutation_app_comm.
Qed.

Lemma lookups_seq (d : list A) tbl :
  (λ a, default d (tbl !! a)) <$> seq 0 (length tbl) = tbl.
Proof.
  apply list_eq. intros i. rewrite list_lookup_fmap.
  destruct (decide (i < length tbl)%nat) as [Hi|Hi].
  - rewrite lookup_seq_lt by done. simpl.
    destruct (lookup_lt_is_Some_2 tbl i Hi) as [x Hx]. by rewrite Hx.
  - rewrite lookup_seq_ge by lia. simpl. symmetry. apply lookup_ge_None. lia.
Qed.

Lemma foldl_concat {S} (f : S → A → S) (s : S) tbl :
  foldl (λ acc l, foldl f acc l) s tbl = foldl f s (concat tbl).
Proof.
  revert s. induction tbl as [|l tbl IH]; intros s; [done|].
  rewrite concat_cons, foldl_app. simpl. apply IH.
Qed.

Lemma filter_concat_nil (P : A → Prop) `{!∀ x, Decision (P x)} tbl :
  (∀ l', l' ∈ tbl → filter P l' = []) → filter P (concat tbl) = [].
Proof.
  induction tbl as [|l0 tbl IH]; intros Hall; [done|].
  rewrite concat_cons, filter_app, (Hall l0) by left. simpl.
  apply IH. intros l1 Hl. apply Hall. by right.
Qed.

Lemma filter_concat_single (P : A → Prop) `{!∀ x, Decision (P x)} tbl b l :
  tbl !! b = Some l →
  (∀ i l', i ≠ b → tbl !! i = Some l' → filter P l' = []) →
  filter P (concat tbl) = filter P l.
Proof.
  intros Hb Hoth. rewrite <- (take_drop_middle tbl b l Hb).
  rewrite concat_app, concat_cons, !filter_app.
  rewrite !filter_concat_nil.
  - by rewrite app_nil_r.
  - intros l' Hl. apply list_elem_of_lookup in Hl as [i Hi].
    rewrite lookup_drop in Hi. apply (Hoth (S b + i)%nat); [lia|done].
  - intros l' Hl. apply list_elem_of_lookup in Hl as [i Hi].
    apply lookup_take_Some in Hi as [Hi Hlt]. apply (Hoth i); [lia|done].
Qed.
Lemma elem_of_concat (x : A) tbl : x ∈ concat tbl ↔ ∃ l, x ∈ l ∧ l ∈ tbl.
Proof.
  induction tbl as [|l0 tbl IH].
  - split; [by intros ?%elem_of_nil|]. by intros (l & _ & ?%elem_of_nil).
  - rewrite concat_cons, elem_of_app, IH. split.
    + intros [H0|(l & Hx & Hl)]; [exists l0|exists l]; split; try done; by constructor.
    + intros (l & Hx & [->|Hl]%elem_of_cons); [by left|]. right. by exists l.
Qed.
Lemma filter_concat_reverse_single (P : A → Prop) `{!∀ x, Decision (P x)} tbl b l :
  tbl !! b = Some l →
  (∀ i l', i ≠ b → tbl !! i = Some l' → filter P l' = []) →
  filter P (concat (reverse tbl)) = filter P l.
Proof.
  intros Hb Hoth. pose proof (lookup_lt_Some _ _ _ Hb) as Hlt.
  apply (filter_concat_single P _ (length tbl - S b)).
  - rewrite reverse_lookup by lia. rewrite <- Hb. f_equal. lia.
  - intros i l' Hi [Hl Hlt']%reverse_lookup_Some.
    apply (Hoth (length tbl - S i)%nat); [lia|done].
Qed.

Lemma concat_replicate_nil n : concat (replicate n ([] : list A)) = [].
Proof. induction n; [done|]. simpl. done. Qed.

Lemma filter_filter_in (P Q : A → Prop)
    `{!∀ x, Decision (P x), !∀ x, Decision (Q x)} l :
  (∀ x, x ∈ l → P x → Q x) → filter P (filter Q l) = filter P l.
Proof.
  induction l as [|x l IH]; intros Himp; [done|].
  assert (filter P (filter Q l) = filter P l) as IH'.
  { apply IH. intros y Hy. apply Himp. by right. }
  destruct (decide (P x)) as [HP|HP].
  - rewrite (filter_cons_True Q) by (apply Himp; [left|done]).
    rewrite !(filter_cons_True P) by done. by rewrite IH'.
  - rewrite (filter_cons_False P) by done.
    destruct (decide (Q x)).
    + rewrite (filter_cons_True Q) by done. by rewrite (filter_cons_False P).
    + by rewrite (filter_cons_False Q).
Qed.
Lemma concat_all_nil tbl :
  (∀ a l, tbl !! a = Some l → l = []) → concat tbl = [].
Proof.
  induction tbl as [|l0 tbl IH]; intros Hall; [done|].
  rewrite concat_cons, (Hall 0%nat l0) by done. simpl.
  apply IH. intros a l Ha. by apply (Hall (S a)).
Qed.
End TableFacts.

(** ** Walks along a chain *)

Section WalkFacts.
Context {A : Type} `{!EqDecision A}.
Implicit Types (l run : list A) (x : A).

Lemma successors_split x l1 l2 :
  x ∉ l1 → successors x (l1 ++ x :: l2) = l2.
Proof.
  induction l1 as [|y l1 IH]; intros Hx; simpl.
  - by rewrite decide_True.
  - rewrite decide_False by (intros ->; apply Hx; left).
    apply IH. intros Hin. apply Hx. by right.
Qed.

Lemma successors_absent x l : x ∉ l → successors x l = [].
Proof.
  induction l as [|y l IH]; intros Hx; [done|]. simpl.
  rewrite decide_False by (intros ->; apply Hx; left).
  apply IH. intros Hin. apply Hx. by right.
Qed.

(** A walk that starts at the head of a run of members satisfying
    [keep], behind which the chain ends or a member fails [keep],
    yields the run. *)
Lemma follow_run (step : A → option A) (keep : A → bool) fuel l l1 run l2 :
  NoDup l → l = l1 ++ run ++ l2 →
  (∀ x, x ∈ l → step x = head (successors x l)) →
  Forall (λ x, keep x = true) run →
  (∀ y, head l2 = Some y → keep y = false) →
  length run ≤ fuel →
  follow step keep fuel (head (run ++ l2)) = run.
Proof.
  intros Hnd Hl Hstep. revert l1 fuel Hl.
  induction run as [|x run IH]; intros l1 fuel Hl Hkeep Hend Hfuel.
  - simpl. destruct fuel as [|fuel]; [done|]. simpl.
    destruct (head l2) as [y|] eqn:Hy; [|done]. by rewrite (Hend y).
  - destruct fuel as [|fuel]; [simpl in Hfuel; lia|].
    apply Forall_cons in Hkeep as [Hx Hkeep]. simpl. rewrite Hx. f_equal.
    rewrite Hstep by (rewrite Hl, !elem_of_app; right; left; left).
    rewrite Hl. simpl. rewrite successors_split.
    + apply (IH (l1 ++ [x])); [|done|done|simpl in Hfuel; lia].
      by rewrite Hl, <- app_assoc.
    + rewrite Hl in Hnd. apply NoDup_app in Hnd as (_ & Hd & _).
      intros Hin. apply (Hd x Hin). left.
Qed.

Lemma follow_all (step : A → option A) fuel l :
  NoDup l → (∀ x, x ∈ l → step x = head (successors x l)) →
  length l ≤ fuel →
  follow step (λ _, true) fuel (head l) = l.
Proof.
  intros Hnd Hstep Hfuel.
  pose proof (follow_run step (λ _, true) fuel l [] l [] Hnd) as Hrun.
  rewrite app_nil_r in Hrun. apply Hrun; try done.
  by apply Forall_forall.
Qed.
End WalkFacts.

(** ** TSHash *)

Module HashProps.
Import Hash.

(** A value in the range of [int32] is not changed by the conversion. *)
Lemma int32_id z : (- 2 ^ 31 ≤ z < 2 ^ 31)%Z → int32 z = z.
Proof.
  intros Hz. unfold int32. rewrite Z.mod_small by lia. lia.
Qed.

Section HashFacts.
Context {KeyType : Type} `{!EqDecision KeyType}.
Variable GetKey : elem → KeyType.
Variable Hash : KeyType → Z.

Abbreviation wf := (Hash.wf GetKey Hash).
Abbreviation keyHash := (Hash.keyHash GetKey Hash).
Abbreviation scan := (Hash.scan GetKey).
Abbreviation placed := (Hash.placed GetKey).
Abbreviation empties := (Hash.empties GetKey Hash).
Abbreviation grouped := (Hash.grouped GetKey).
Abbreviation allGrouped := (Hash.allGrouped GetKey).
Implicit Types (s : state) (e x : elem) (b : nat) (l : list elem).

(** *** Bucket routing *)

Lemma bucketIndex_lt h n :
  isPowerOfTwo n → (bucketIndex h n < Z.to_nat n)%nat.
Proof.
  intros [k ->]. unfold bucketIndex.
  replace (2 ^ Z.of_nat k - 1)%Z with (Z.ones (Z.of_nat k))
    by (rewrite Z.ones_equiv; lia).
  rewrite Z.land_ones by lia.
  pose proof (Z.mod_pos_bound h (2 ^ Z.of_nat k)) as Hb.
  assert (0 < 2 ^ Z.of_nat k)%Z by (apply Z.pow_pos_nonneg; lia).
  lia.
Qed.

Lemma isPowerOfTwo_double n : isPowerOfTwo n → isPowerOfTwo (n * 2).
Proof.
  intros [k ->]. exists (S k).
  rewrite Nat2Z.inj_succ, Z.pow_succ_r by lia. lia.
Qed.

Lemma isPowerOfTwo_pos n : isPowerOfTwo n → (0 < n)%Z.
Proof. intros [k ->]. apply Z.pow_pos_nonneg; lia. Qed.

Lemma GetBucket_lt h s :
  wf s → (GetBucket h s < length (bucketTable s))%nat.
Proof.
  intros Hwf. rewrite (wf_len _ _ _ Hwf).
  apply bucketIndex_lt, (wf_pow2 _ _ _ Hwf).
Qed.

(** *** Chains of a table *)

Lemma chain_lookup s b l : bucketTable s !! b = Some l → chain s b = l.
Proof. unfold chain. by intros ->. Qed.

Lemma chain_elem_lt s b e : e ∈ chain s b → (b < length (bucketTable s))%nat.
Proof.
  unfold chain. destruct (bucketTable s !! b) as [l|] eqn:Hb; simpl.
  - intros _. by eapply lookup_lt_Some.
  - by intros ?%elem_of_nil.
Qed.

Lemma lookup_chain s b :
  (b < length (bucketTable s))%nat → bucketTable s !! b = Some (chain s b).
Proof.
  intros Hb. unfold chain.
  destruct (lookup_lt_is_Some_2 _ _ Hb) as [l ->]. done.
Qed.

Lemma chain_insert_eq (tbl : list (list elem)) b l :
  (b < length tbl)%nat → default [] (<[b := l]> tbl !! b) = l.
Proof. intros. by rewrite list_lookup_insert_eq. Qed.

Lemma chain_insert_ne (tbl : list (list elem)) b b' l :
  b ≠ b' → default [] (<[b := l]> tbl !! b') = default [] (tbl !! b').
Proof. intros. by rewrite list_lookup_insert_ne. Qed.

Lemma elem_of_chain_concat s b e : e ∈ chain s b → e ∈ concat (bucketTable s).
Proof.
  intros He. pose proof (chain_elem_lt _ _ _ He) as Hb.
  rewrite (concat_lookup_perm _ b _ (lookup_chain _ _ Hb)).
  apply elem_of_app. by left.
Qed.

Lemma elem_of_concat_chain s e :
  e ∈ concat (bucketTable s) → ∃ b, e ∈ chain s b.
Proof.
  intros He. apply elem_of_concat in He as (l & He & Hl).
  apply list_elem_of_lookup in Hl as [b Hb].
  exists b. by rewrite (chain_lookup _ _ _ Hb).
Qed.

(** *** One bucket changes *)

Lemma wf_update s b l' m' hv' cnt lim :
  wf s → (b < length (bucketTable s))%nat →
  NoDup l' →
  (∀ x, x ∈ l' → x ∈ chain s b ∨ x ∉ concat (bucketTable s)) →
  (∀ e b', m' !! e = Some b' ↔
           e ∈ (if decide (b' = b) then l' else chain s b')) →
  (∀ e b', m' !! e = Some b' →
           hv' !! e = Some (keyHash e) ∧ b' = bucketIndex (keyHash e) (bucketCount s)) →
  wf (State cnt (bucketCount s) lim (<[b := l']> (bucketTable s)) m' hv').
Proof.
  intros Hwf Hb Hnd Hsub Hown Hhash. destruct Hwf as [Hp Hl Ho Hn Hh].
  split; simpl.
  - done.
  - by rewrite length_insert.
  - intros e b'. rewrite Hown. unfold chain. simpl.
    destruct (decide (b' = b)) as [->|Hne].
    + by rewrite chain_insert_eq.
    + by rewrite chain_insert_ne.
  - rewrite concat_insert_perm by done.
    rewrite (concat_lookup_perm _ b _ (lookup_chain _ _ Hb)) in Hn.
    apply NoDup_app in Hn as (_ & Hdisj & Hoth).
    apply NoDup_app. split_and!; [done| |done].
    intros x Hx Hx'. destruct (Hsub x Hx) as [Hin|Hout].
    + by apply (Hdisj x).
    + apply Hout. rewrite (concat_lookup_perm _ b _ (lookup_chain _ _ Hb)).
      apply elem_of_app. by right.
  - intros e b' He. apply Hhash in He. done.
Qed.

Lemma wf_owner_absent s e :
  wf s → owningHashTableBucket s !! e = None → e ∉ concat (bucketTable s).
Proof.
  intros Hwf Hnone [b Hb]%elem_of_concat_chain.
  apply (wf_owner _ _ _ Hwf) in Hb. congruence.
Qed.

Lemma wf_owner_lt s e b :
  wf s → owningHashTableBucket s !! e = Some b → (b < length (bucketTable s))%nat.
Proof. intros Hwf He. eapply chain_elem_lt, (wf_owner _ _ _ Hwf), He. Qed.

Lemma wf_RemoveBucketElement s e b :
  wf s → owningHashTableBucket s !! e = Some b → wf (RemoveBucketElement b e s).
Proof.
  intros Hwf He. pose proof (wf_owner_lt _ _ _ Hwf He) as Hb.
  unfold RemoveBucketElement, set_count, set_owner, set_chain; simpl.
  apply wf_update; try done.
  - apply NoDup_unlink.
    pose proof (wf_nodup _ _ _ Hwf) as Hn.
    rewrite (concat_lookup_perm _ b _ (lookup_chain _ _ Hb)) in Hn.
    by apply NoDup_app in Hn as (? & _).
  - intros x [Hx _]%elem_of_unlink. by left.
  - intros e0 b0. destruct (decide (e0 = e)) as [->|Hne].
    + rewrite lookup_delete_eq. split; [done|].
      destruct (decide (b0 = b)) as [->|Hb0].
      * intros [_ ?]%elem_of_unlink. done.
      * intros Hin%(wf_owner _ _ _ Hwf). congruence.
    + rewrite lookup_delete_ne by done. rewrite (wf_owner _ _ _ Hwf).
      destruct (decide (b0 = b)) as [->|Hb0]; [|done].
      rewrite elem_of_unlink. tauto.
  - intros e0 b0. destruct (decide (e0 = e)) as [->|Hne].
    + by rewrite lookup_delete_eq.
    + rewrite lookup_delete_ne by done. apply (wf_hash _ _ _ Hwf).
Qed.

(** Attaching [e] to bucket [b] by any chain [l'] that adds exactly [e]. *)
Lemma wf_attach s e b l' cnt :
  wf s → owningHashTableBucket s !! e = None →
  hashValue s !! e = Some (keyHash e) → b = GetBucket (keyHash e) s →
  l' ≡ₚ e :: chain s b →
  wf (State cnt (bucketCount s) (resizeLimit s) (<[b := l']> (bucketTable s))
            (<[e := b]> (owningHashTableBucket s)) (hashValue s)).
Proof.
  intros Hwf He Hh Hb Hperm.
  assert (b < length (bucketTable s))%nat as Hlt by (subst b; by apply GetBucket_lt).
  pose proof (wf_owner_absent _ _ Hwf He) as Hfresh.
  apply wf_update; try done.
  - rewrite Hperm. apply NoDup_cons. split.
    + intros Hin. apply Hfresh. by eapply elem_of_chain_concat.
    + pose proof (wf_nodup _ _ _ Hwf) as Hn.
      rewrite (concat_lookup_perm _ b _ (lookup_chain _ _ Hlt)) in Hn.
      by apply NoDup_app in Hn as (? & _).
  - intros x. rewrite Hperm. intros [->|Hx]%elem_of_cons; [by right|by left].
  - intros e0 b0. destruct (decide (e0 = e)) as [->|Hne].
    + rewrite lookup_insert_eq. destruct (decide (b0 = b)) as [->|Hb0].
      * rewrite Hperm. split; [intros _; apply elem_of_cons; by left|done].
      * split; [congruence|]. intros Hin. exfalso. apply Hfresh.
        by eapply elem_of_chain_concat.
    + rewrite lookup_insert_ne by done. rewrite (wf_owner _ _ _ Hwf).
      destruct (decide (b0 = b)) as [->|Hb0]; [|done].
      rewrite Hperm, elem_of_cons. split; [by right|]. by intros [?|?].
  - intros e0 b0. destruct (decide (e0 = e)) as [->|Hne].
    + rewrite lookup_insert_eq. intros [= <-]. done.
    + rewrite lookup_insert_ne by done. apply (wf_hash _ _ _ Hwf).
Qed.

Lemma wf_AppendBucketElement s e b :
  wf s → owningHashTableBucket s !! e = None →
  hashValue s !! e = Some (keyHash e) → b = GetBucket (keyHash e) s →
  wf (AppendBucketElement b e s).
Proof.
  intros. unfold AppendBucketElement, set_count, set_owner, set_chain; simpl.
  apply wf_attach; try done.
  symmetry. apply Permutation_cons_append.
Qed.

Lemma wf_InsertBucketElementAfter s e b after :
  wf s → owningHashTableBucket s !! e = None →
  hashValue s !! e = Some (keyHash e) → b = GetBucket (keyHash e) s →
  after ∈ chain s b →
  wf (InsertBucketElementAfter b e after s).
Proof.
  intros. unfold InsertBucketElementAfter, set_count, set_owner, set_chain; simpl.
  apply wf_attach; try done.
  by apply link_after_perm.
Qed.

(** *** The key scan *)

Lemma scan_head key l : scan key l = head (filter (λ e, GetKey e = key) l).
Proof.
  induction l as [|x l IH]; [done|]. simpl.
  destruct (decide (GetKey x = key)) as [Hk|Hk].
  - by rewrite filter_cons_True.
  - by rewrite filter_cons_False.
Qed.

Lemma scan_reverse key l :
  match scan key (reverse l) with
  | Some after => ∃ l1 l2, l = l1 ++ after :: l2 ∧ GetKey after = key ∧
                           Forall (λ y, GetKey y ≠ key) l2
  | None => Forall (λ y, GetKey y ≠ key) l
  end.
Proof.
  induction l as [|x l IH] using rev_ind; [by constructor|].
  rewrite reverse_snoc. simpl.
  destruct (decide (GetKey x = key)) as [Hk|Hk].
  - exists l, []. by split_and!.
  - destruct (scan key (reverse l)) as [a|].
    + destruct IH as (l1 & l2 & -> & Ha & Hl2).
      exists l1, (l2 ++ [x]). split_and!; [by rewrite <- (assoc_L (++))|done|].
      apply Forall_app. split; [done|]. by constructor.
    + apply Forall_app. split; [done|]. by constructor.
Qed.

Lemma filter_key_none key l :
  Forall (λ y, GetKey y ≠ key) l → filter (λ e, GetKey e = key) l = [].
Proof.
  induction 1 as [|y l Hy _ IH]; [done|]. by rewrite filter_cons_False.
Qed.


Lemma placed_split e l :
  NoDup l →
  ∃ l1 l2, l = l1 ++ l2 ∧ placed e l = l1 ++ e :: l2 ∧
           Forall (λ y, GetKey y ≠ GetKey e) l2 ∧
           (scan (GetKey e) (reverse l) = None → l2 = []) ∧
           (∀ after, scan (GetKey e) (reverse l) = Some after → last l1 = Some after).
Proof.
  intros Hnd. unfold placed. pose proof (scan_reverse (GetKey e) l) as Hs.
  destruct (scan (GetKey e) (reverse l)) as [a|].
  - destruct Hs as (l1 & l2 & -> & Ha & Hl2).
    exists (l1 ++ [a]), l2. split_and!.
    + by rewrite <- (assoc_L (++)).
    + rewrite link_after_split, <- (assoc_L (++)); [done|].
      apply NoDup_app in Hnd as (_ & Hd & _). intros Hin.
      apply (Hd a Hin). by left.
    + done.
    + done.
    + intros ? [= <-]. by rewrite last_snoc.
  - exists l, []. split_and!; [by rewrite app_nil_r|done|constructor|done|done].
Qed.

Lemma placed_perm e l : NoDup l → placed e l ≡ₚ e :: l.
Proof.
  intros Hnd. destruct (placed_split e l Hnd) as (l1 & l2 & -> & -> & _).
  symmetry. apply Permutation_middle.
Qed.

Lemma placed_filter_same e l :
  NoDup l →
  filter (λ x, GetKey x = GetKey e) (placed e l)
  = filter (λ x, GetKey x = GetKey e) l ++ [e].
Proof.
  intros Hnd. destruct (placed_split e l Hnd) as (l1 & l2 & -> & -> & Hl2 & _).
  rewrite !filter_app, filter_cons_True by done.
  rewrite (filter_key_none _ _ Hl2). by rewrite app_nil_r.
Qed.

Lemma placed_filter_other e l key :
  NoDup l → GetKey e ≠ key →
  filter (λ x, GetKey x = key) (placed e l) = filter (λ x, GetKey x = key) l.
Proof.
  intros Hnd Hk. destruct (placed_split e l Hnd) as (l1 & l2 & -> & -> & _).
  rewrite !filter_app, filter_cons_False by done. done.
Qed.

(** *** Redistribution *)


Lemma length_distribute f tbl l : length (distribute f tbl l) = length tbl.
Proof.
  revert tbl. induction l as [|e l IH]; intros tbl; [done|].
  simpl. rewrite IH. by rewrite length_insert.
Qed.

Lemma distribute_lookup f tbl l j :
  (∀ e, e ∈ l → (f e < length tbl)%nat) → (j < length tbl)%nat →
  distribute f tbl l !! j = Some (default [] (tbl !! j) ++ filter (λ e, f e = j) l).
Proof.
  revert tbl. induction l as [|e l IH]; intros tbl Hf Hj.
  - simpl. destruct (lookup_lt_is_Some_2 _ _ Hj) as [x ->]. simpl. by rewrite app_nil_r.
  - simpl. rewrite IH.
    + destruct (decide (f e = j)) as [<-|Hne].
      * rewrite list_lookup_insert_eq by done. rewrite filter_cons_True by done.
        simpl. by rewrite <- (assoc_L (++)).
      * rewrite list_lookup_insert_ne by done. by rewrite filter_cons_False.
    + intros x Hx. rewrite length_insert. apply Hf. by right.
    + by rewrite length_insert.
Qed.

Lemma distribute_perm f tbl l :
  (∀ e, e ∈ l → (f e < length tbl)%nat) →
  concat (distribute f tbl l) ≡ₚ concat tbl ++ l.
Proof.
  revert tbl. induction l as [|e l IH]; intros tbl Hf.
  - simpl. by rewrite app_nil_r.
  - simpl. rewrite IH.
    + assert (f e < length tbl)%nat as Hlt by (apply Hf; left).
      destruct (lookup_lt_is_Some_2 _ _ Hlt) as [c Hc].
      rewrite concat_insert_perm by done.
      rewrite (concat_lookup_perm _ _ _ Hc), Hc. simpl.
      rewrite <- !(assoc_L (++)). f_equiv.
      rewrite (Permutation_app_comm _ (e :: l)). simpl.
      f_equiv. apply Permutation_app_comm.
    + intros x Hx. rewrite length_insert. apply Hf. by right.
Qed.

Lemma reowned_lookup f m l x :
  reowned f m l !! x = if decide (x ∈ l) then Some (f x) else m !! x.
Proof.
  revert m. induction l as [|e l IH]; intros m.
  - rewrite decide_False by (by intros ?%elem_of_nil). done.
  - change (reowned f m (e :: l)) with (reowned f (<[e := f e]> m) l).
    rewrite IH. destruct (decide (x ∈ l)) as [Hin|Hin].
    + rewrite decide_True; [done|]. by right.
    + destruct (decide (x = e)) as [->|Hne].
      * rewrite decide_True by left. by rewrite lookup_insert_eq.
      * rewrite decide_False.
        -- by rewrite lookup_insert_ne.
        -- by intros [?|?]%elem_of_cons.
Qed.

Lemma rehash_bucket_eq N l t :
  rehash_bucket N l t =
  State (elementCount t + Z.of_nat (length l)) (bucketCount t) (resizeLimit t)
        (distribute (λ e, bucketIndex (cachedHash t e) N) (bucketTable t) l)
        (reowned (λ e, bucketIndex (cachedHash t e) N) (owningHashTableBucket t) l)
        (hashValue t).
Proof.
  revert t. induction l as [|e l IH]; intros t.
  - destruct t. simpl. f_equal. lia.
  - unfold rehash_bucket in *. simpl. rewrite IH. simpl.
    f_equal. lia.
Qed.


Lemma visitOrder_reverse s :
  length (bucketTable s) = Z.to_nat (bucketCount s) →
  visitOrder s = concat (reverse (bucketTable s)).
Proof.
  intros Hlen. unfold visitOrder, downward.
  by rewrite fmap_reverse, <- Hlen, lookups_seq.
Qed.

Lemma ResizeBucketTable_eq s :
  let N := (bucketCount s * 2)%Z in
  let f := λ e, bucketIndex (cachedHash s e) N in
  ResizeBucketTable s =
  State (Z.of_nat (length (visitOrder s))) N (int32 (resizeLimit s * 2))
        (distribute f (replicate (Z.to_nat N) []) (visitOrder s))
        (reowned f (owningHashTableBucket s) (visitOrder s))
        (hashValue s).
Proof.
  intros N f. unfold ResizeBucketTable.
  rewrite <- (foldl_fmap (λ acc old, rehash_bucket (bucketCount s * 2) old acc)
               _ _ (λ a, default [] (bucketTable s !! a))).
  unfold rehash_bucket. rewrite foldl_concat.
  fold (visitOrder s).
  pose proof (rehash_bucket_eq N (visitOrder s)) as Heq.
  unfold rehash_bucket in Heq. subst N. rewrite Heq. simpl. done.
Qed.

Section Resize.
Variable s : state.
Hypothesis Hwf : wf s.
Let N := (bucketCount s * 2)%Z.
Let f := λ e, bucketIndex (cachedHash s e) N.

Lemma visitOrder_perm : visitOrder s ≡ₚ concat (bucketTable s).
Proof.
  rewrite visitOrder_reverse by apply (wf_len _ _ _ Hwf).
  apply concat_reverse_perm.
Qed.

Lemma rehash_in_range e : (f e < length (replicate (Z.to_nat N) ([] : list elem)))%nat.
Proof.
  rewrite length_replicate. apply bucketIndex_lt.
  apply isPowerOfTwo_double, (wf_pow2 _ _ _ Hwf).
Qed.

Lemma rehash_attached e b :
  owningHashTableBucket s !! e = Some b → f e = bucketIndex (keyHash e) N.
Proof.
  intros [Hh _]%(wf_hash _ _ _ Hwf). unfold f, cachedHash. by rewrite Hh.
Qed.

Lemma Resize_chain b :
  chain (ResizeBucketTable s) b =
  if decide (b < Z.to_nat N)%nat then filter (λ e, f e = b) (visitOrder s) else [].
Proof.
  rewrite ResizeBucketTable_eq. unfold chain. simpl. fold N f.
  destruct (decide (b < Z.to_nat N)%nat) as [Hb|Hb].
  - rewrite distribute_lookup.
    + by rewrite lookup_replicate_2.
    + intros e _. apply rehash_in_range.
    + by rewrite length_replicate.
  - rewrite lookup_ge_None_2; [done|].
    rewrite length_distribute, length_replicate. lia.
Qed.

Lemma Resize_owner e :
  owningHashTableBucket (ResizeBucketTable s) !! e =
  (λ _, f e) <$> owningHashTableBucket s !! e.
Proof.
  rewrite ResizeBucketTable_eq. simpl. fold N f. rewrite reowned_lookup.
  destruct (decide (e ∈ visitOrder s)) as [Hin|Hin].
  - rewrite visitOrder_perm in Hin. apply elem_of_concat_chain in Hin as [b Hb].
    apply (wf_owner _ _ _ Hwf) in Hb. by rewrite Hb.
  - destruct (owningHashTableBucket s !! e) as [b|] eqn:He; [|done].
    exfalso. apply Hin. rewrite visitOrder_perm.
    eapply elem_of_chain_concat, (wf_owner _ _ _ Hwf), He.
Qed.

Lemma wf_ResizeBucketTable : wf (ResizeBucketTable s).
Proof.
  split.
  - rewrite ResizeBucketTable_eq. simpl.
    apply isPowerOfTwo_double, (wf_pow2 _ _ _ Hwf).
  - rewrite ResizeBucketTable_eq. simpl.
    by rewrite length_distribute, length_replicate.
  - intros e b. rewrite Resize_owner, Resize_chain.
    destruct (owningHashTableBucket s !! e) as [b0|] eqn:He; simpl.
    + assert (e ∈ visitOrder s) as Hin.
      { rewrite visitOrder_perm.
        eapply elem_of_chain_concat, (wf_owner _ _ _ Hwf), He. }
      split.
      * intros [= <-]. rewrite decide_True.
        -- by apply list_elem_of_filter.
        -- pose proof (rehash_in_range e) as Hr. by rewrite length_replicate in Hr.
      * case_decide; [|by intros ?%elem_of_nil].
        intros [Hf _]%list_elem_of_filter. by rewrite Hf.
    + split; [done|]. case_decide; [|by intros ?%elem_of_nil].
      intros [_ Hin]%list_elem_of_filter.
      rewrite visitOrder_perm in Hin. apply elem_of_concat_chain in Hin as [b' Hb'].
      apply (wf_owner _ _ _ Hwf) in Hb'. congruence.
  - rewrite ResizeBucketTable_eq. simpl. rewrite distribute_perm.
    + rewrite concat_replicate_nil. simpl. rewrite visitOrder_perm.
      apply (wf_nodup _ _ _ Hwf).
    + intros e _. apply rehash_in_range.
  - intros e b. rewrite Resize_owner.
    intros (b0 & He & ->)%fmap_Some. split.
    + rewrite ResizeBucketTable_eq. simpl. by apply (wf_hash _ _ _ Hwf) in He as [? _].
    + rewrite (rehash_attached _ _ He). unfold GetBucket.
      rewrite ResizeBucketTable_eq. done.
Qed.

Lemma counted_ResizeBucketTable : counted (ResizeBucketTable s).
Proof.
  unfold counted, bucketSizes. rewrite sum_sizes.
  rewrite ResizeBucketTable_eq. simpl.
  rewrite distribute_perm by (intros e _; apply rehash_in_range).
  by rewrite concat_replicate_nil.
Qed.

Lemma ordered_ResizeBucketTable log :
  ordered GetKey Hash log s → ordered GetKey Hash log (ResizeBucketTable s).
Proof.
  intros Hord key. rewrite <- (Hord key).
  set (h := uint32 (Hash key)).
  rewrite Resize_chain. rewrite decide_True.
  2:{ unfold GetBucket. rewrite ResizeBucketTable_eq. simpl.
      pose proof (rehash_in_range 0%nat) as Hr. rewrite length_replicate in Hr.
      apply bucketIndex_lt, isPowerOfTwo_double, (wf_pow2 _ _ _ Hwf). }
  rewrite filter_filter_in.
  - rewrite visitOrder_reverse by apply (wf_len _ _ _ Hwf).
    apply (filter_concat_reverse_single _ _ (GetBucket h s)).
    + apply lookup_chain, GetBucket_lt, Hwf.
    + intros i l' Hi Hl'. apply filter_key_none, Forall_forall.
      intros y Hy Hk. apply Hi.
      rewrite <- (chain_lookup _ _ _ Hl') in Hy.
      apply (wf_owner _ _ _ Hwf) in Hy.
      apply (wf_hash _ _ _ Hwf) in Hy as [_ ->].
      unfold keyHash, Hash.keyHash. by rewrite Hk.
  - intros x Hx Hk. rewrite visitOrder_perm in Hx.
    apply elem_of_concat_chain in Hx as [b Hb].
    apply (wf_owner _ _ _ Hwf) in Hb.
    rewrite (rehash_attached _ _ Hb). unfold GetBucket.
    rewrite ResizeBucketTable_eq. simpl.
    unfold keyHash, Hash.keyHash. by rewrite Hk.
Qed.
End Resize.

(** *** Counting and ordering when one bucket changes *)

Abbreviation ordered := (Hash.ordered GetKey Hash).

Lemma counted_update s b l' m' hv' cnt lim :
  (b < length (bucketTable s))%nat → counted s →
  (cnt - Z.of_nat (length l') = elementCount s - Z.of_nat (length (chain s b)))%Z →
  counted (State cnt (bucketCount s) lim (<[b := l']> (bucketTable s)) m' hv').
Proof.
  unfold counted, bucketSizes. intros Hb Hc Hcnt. simpl.
  rewrite sum_sizes in *. rewrite concat_insert_perm by done.
  rewrite (concat_lookup_perm _ b _ (lookup_chain _ _ Hb)) in Hc.
  rewrite length_app in *. lia.
Qed.

Lemma ordered_update s b l' m' hv' cnt lim log log' :
  (b < length (bucketTable s))%nat →
  (∀ key, GetBucket (uint32 (Hash key)) s = b →
          filter (λ e, GetKey e = key) l' = filter (λ e, GetKey e = key) log') →
  (∀ key, GetBucket (uint32 (Hash key)) s ≠ b →
          filter (λ e, GetKey e = key) log' = filter (λ e, GetKey e = key) log) →
  ordered log s →
  ordered log' (State cnt (bucketCount s) lim (<[b := l']> (bucketTable s)) m' hv').
Proof.
  intros Hb Hsame Hoth Hord key. unfold chain, GetBucket. simpl.
  fold (GetBucket (uint32 (Hash key)) s).
  destruct (decide (GetBucket (uint32 (Hash key)) s = b)) as [Heq|Hne].
  - rewrite Heq, chain_insert_eq by done. by apply Hsame.
  - rewrite chain_insert_ne by done. rewrite Hoth by done. apply Hord.
Qed.

Lemma wf_chain_NoDup s b : wf s → NoDup (chain s b).
Proof.
  intros Hwf. destruct (decide (b < length (bucketTable s))%nat) as [Hb|Hb].
  - pose proof (wf_nodup _ _ _ Hwf) as Hn.
    rewrite (concat_lookup_perm _ b _ (lookup_chain _ _ Hb)) in Hn.
    by apply NoDup_app in Hn as (? & _).
  - unfold chain. rewrite lookup_ge_None_2 by lia. constructor.
Qed.

Lemma attached_key_bucket s e b key :
  wf s → owningHashTableBucket s !! e = Some b → GetKey e = key →
  GetBucket (uint32 (Hash key)) s = b.
Proof.
  intros Hwf [_ ->]%(wf_hash _ _ _ Hwf) <-. done.
Qed.

Lemma ordered_attached s log e :
  wf s → ordered log s → e ∈ log ↔ is_Some (owningHashTableBucket s !! e).
Proof.
  intros Hwf Hord. split.
  - intros Hin. exists (GetBucket (keyHash e) s). apply (wf_owner _ _ _ Hwf).
    assert (e ∈ filter (λ x, GetKey x = GetKey e) log) as Hf
      by (by apply list_elem_of_filter).
    rewrite <- Hord in Hf. by apply list_elem_of_filter in Hf as [_ ?].
  - intros [b Hb]. pose proof (attached_key_bucket _ _ _ _ Hwf Hb eq_refl) as Hk.
    apply (wf_owner _ _ _ Hwf) in Hb. rewrite <- Hk in Hb.
    assert (e ∈ filter (λ x, GetKey x = GetKey e) log) as Hf.
    { rewrite <- Hord. by apply list_elem_of_filter. }
    by apply list_elem_of_filter in Hf as [_ ?].
Qed.

Lemma unlink_unattached s log e :
  wf s → ordered log s → owningHashTableBucket s !! e = None → unlink e log = log.
Proof.
  intros Hwf Hord He. apply unlink_absent.
  rewrite (ordered_attached _ _ _ Hwf Hord), He. by intros [? ?].
Qed.

Lemma counted_RemoveBucketElement s e b :
  wf s → owningHashTableBucket s !! e = Some b → counted s →
  counted (RemoveBucketElement b e s).
Proof.
  intros Hwf He Hc. pose proof (wf_owner_lt _ _ _ Hwf He) as Hb.
  unfold RemoveBucketElement, set_count, set_owner, set_chain; simpl.
  apply counted_update; try done.
  pose proof (length_unlink e (chain s b) (wf_chain_NoDup _ b Hwf)) as Hl.
  apply (wf_owner _ _ _ Hwf) in He. specialize (Hl He). lia.
Qed.

Lemma ordered_RemoveBucketElement s e b log :
  wf s → owningHashTableBucket s !! e = Some b → ordered log s →
  ordered (unlink e log) (RemoveBucketElement b e s).
Proof.
  intros Hwf He Hord. pose proof (wf_owner_lt _ _ _ Hwf He) as Hb.
  unfold RemoveBucketElement, set_count, set_owner, set_chain; simpl.
  apply (ordered_update _ _ _ _ _ _ _ log); try done.
  - intros key <-. by rewrite !filter_unlink, Hord.
  - intros key Hne. apply unlink_filter_out. intros Hk. apply Hne.
    by eapply attached_key_bucket.
Qed.

(** *** Insertion *)

Abbreviation Insert := (InsertHashTableElement GetKey Hash).
Abbreviation inv := (λ log s, wf s ∧ counted s ∧ ordered log s).

Lemma InsertHashTableElement_eq e s :
  let s1 := InsertHashTableElement_detach e s in
  let b := GetBucket (keyHash e) s1 in
  Insert e s =
  State (elementCount s1 + 1) (bucketCount s1) (resizeLimit s1)
        (<[b := placed e (chain s1 b)]> (bucketTable s1))
        (<[e := b]> (owningHashTableBucket s1))
        (<[e := keyHash e]> (hashValue s1)).
Proof.
  intros s1 b. unfold InsertHashTableElement. fold s1.
  unfold placed, GetBucket, chain. simpl.
  fold (Hash.keyHash GetKey Hash e). fold (GetBucket (keyHash e) s1). fold b.
  by destruct (scan (GetKey e) (reverse (default [] (bucketTable s1 !! b)))).
Qed.

Lemma detach_inv e s log :
  inv log s →
  inv (unlink e log) (InsertHashTableElement_detach e s) ∧
  owningHashTableBucket (InsertHashTableElement_detach e s) !! e = None.
Proof.
  intros (Hwf & Hc & Hord). unfold InsertHashTableElement_detach.
  destruct (owningHashTableBucket s !! e) as [b|] eqn:He.
  - split_and!.
    + by apply wf_RemoveBucketElement.
    + by apply counted_RemoveBucketElement.
    + by apply ordered_RemoveBucketElement.
    + simpl. apply lookup_delete_eq.
  - rewrite (unlink_unattached _ _ _ Hwf Hord He). case_decide.
    + split_and!.
      * by apply wf_ResizeBucketTable.
      * by apply counted_ResizeBucketTable.
      * by apply ordered_ResizeBucketTable.
      * rewrite Resize_owner by done. by rewrite He.
    + done.
Qed.

Lemma wf_set_hash s e h :
  wf s → owningHashTableBucket s !! e = None → wf (set_hash e h s).
Proof.
  intros [Hp Hl Ho Hn Hh] He. split; try done.
  intros e0 b He0. simpl in *. rewrite lookup_insert_ne by congruence.
  by apply Hh.
Qed.

(** Filing an element that is in no chain. *)
Lemma filed_inv e s1 log :
  inv log s1 → owningHashTableBucket s1 !! e = None →
  let b := GetBucket (keyHash e) s1 in
  inv (log ++ [e])
      (State (elementCount s1 + 1) (bucketCount s1) (resizeLimit s1)
             (<[b := placed e (chain s1 b)]> (bucketTable s1))
             (<[e := b]> (owningHashTableBucket s1))
             (<[e := keyHash e]> (hashValue s1))).
Proof.
  intros (Hwf & Hc & Hord) He b.
  assert (b < length (bucketTable s1))%nat as Hb by by apply GetBucket_lt.
  pose proof (wf_chain_NoDup _ b Hwf) as Hnd.
  split_and!.
  - pose proof (wf_set_hash s1 e (keyHash e) Hwf He) as Hwf2.
    apply (wf_attach (set_hash e (keyHash e) s1)); try done.
    + simpl. apply lookup_insert_eq.
    + by apply placed_perm.
  - apply counted_update; try done.
    rewrite (placed_perm e _ Hnd). simpl. lia.
  - apply (ordered_update _ _ _ _ _ _ _ log); try done.
    + intros key Hk. rewrite filter_app. destruct (decide (GetKey e = key)) as [<-|Hne].
      * rewrite placed_filter_same by done. rewrite filter_cons_True by done.
        simpl. f_equal. fold (Hash.keyHash GetKey Hash e) in Hk.
        by rewrite <- Hord.
      * rewrite placed_filter_other by done. rewrite filter_cons_False by done.
        simpl. rewrite app_nil_r. subst b. rewrite <- Hk. apply Hord.
    + intros key Hk. rewrite filter_app, filter_cons_False; [by rewrite app_nil_r|].
      intros Hkey. apply Hk. subst key. done.
Qed.

Lemma Insert_inv e s log :
  inv log s → inv (unlink e log ++ [e]) (Insert e s).
Proof.
  intros Hinv. destruct (detach_inv e s log Hinv) as (Hinv1 & He).
  rewrite InsertHashTableElement_eq. by apply filed_inv.
Qed.

(** *** Emptying buckets *)

Lemma lookup_foldl_delete (m : gmap elem nat) l x :
  foldl (λ m e, delete e m) m l !! x = if decide (x ∈ l) then None else m !! x.
Proof.
  revert m. induction l as [|e l IH]; intros m.
  - rewrite decide_False by (by intros ?%elem_of_nil). done.
  - change (foldl (λ m e, delete e m) m (e :: l))
      with (foldl (λ m e, delete e m) (delete e m) l).
    rewrite IH. destruct (decide (x ∈ l)) as [Hin|Hin].
    + rewrite decide_True; [done|]. by right.
    + destruct (decide (x = e)) as [->|Hne].
      * rewrite decide_True by left. by rewrite lookup_delete_eq.
      * rewrite decide_False.
        -- by rewrite lookup_delete_ne.
        -- by intros [?|?]%elem_of_cons.
Qed.


Lemma empties_RemoveAllBucketElements : empties RemoveAllBucketElements.
Proof.
  intros s b Hwf Hb. unfold RemoveAllBucketElements, set_chain, set_owner. simpl.
  split_and!; try done.
  - apply wf_update; try done.
    + constructor.
    + by intros x ?%elem_of_nil.
    + intros e b'. rewrite lookup_foldl_delete.
      destruct (decide (b' = b)) as [->|Hne].
      * split; [|by intros ?%elem_of_nil]. case_decide; [done|].
        by intros ?%(wf_owner _ _ _ Hwf).
      * case_decide as Hin; [|apply (wf_owner _ _ _ Hwf)].
        split; [done|]. intros Hin'. apply (wf_owner _ _ _ Hwf) in Hin, Hin'.
        congruence.
    + intros e b'. rewrite lookup_foldl_delete. case_decide; [done|].
      apply (wf_hash _ _ _ Hwf).
  - unfold chain. simpl. by rewrite chain_insert_eq.
  - intros b' Hne. unfold chain. simpl. by rewrite chain_insert_ne.
Qed.

Lemma wf_delete_element s e : wf s → wf (delete_element e s).
Proof.
  intros Hwf. unfold delete_element.
  destruct (owningHashTableBucket s !! e) as [b|] eqn:He.
  - pose proof (wf_RemoveBucketElement _ _ _ Hwf He) as [Hp Hl Ho Hn Hh].
    split; try done. intros e0 b0 He0. simpl in *.
    destruct (decide (e0 = e)) as [->|Hne].
    + by rewrite lookup_delete_eq in He0.
    + rewrite lookup_delete_ne by done. apply Hh. done.
  - destruct Hwf as [Hp Hl Ho Hn Hh]. split; try done.
    intros e0 b0 He0. simpl in *. rewrite lookup_delete_ne by congruence.
    by apply Hh.
Qed.

Lemma delete_first_chain s b first rest :
  wf s → chain s b = first :: rest →
  chain (delete_element first s) b = rest ∧
  (∀ b', b' ≠ b → chain (delete_element first s) b' = chain s b') ∧
  bucketCount (delete_element first s) = bucketCount s ∧
  resizeLimit (delete_element first s) = resizeLimit s.
Proof.
  intros Hwf Hch.
  assert (owningHashTableBucket s !! first = Some b) as He.
  { apply (wf_owner _ _ _ Hwf). rewrite Hch. left. }
  pose proof (wf_owner_lt _ _ _ Hwf He) as Hb.
  pose proof (wf_chain_NoDup _ b Hwf) as Hnd. rewrite Hch in Hnd.
  apply NoDup_cons in Hnd as [Hfirst _].
  unfold delete_element. rewrite He. unfold chain. simpl.
  split_and!; try done.
  - rewrite chain_insert_eq by done. fold (chain s b). rewrite Hch.
    rewrite unlink_cons_eq. by apply unlink_absent.
  - intros b' Hne. by rewrite chain_insert_ne.
Qed.

Lemma PurgeBucket_loop_spec fuel s b :
  wf s → (length (chain s b) ≤ fuel)%nat →
  wf (PurgeBucket_loop fuel b s) ∧
  bucketCount (PurgeBucket_loop fuel b s) = bucketCount s ∧
  resizeLimit (PurgeBucket_loop fuel b s) = resizeLimit s ∧
  chain (PurgeBucket_loop fuel b s) b = [] ∧
  (∀ b', b' ≠ b → chain (PurgeBucket_loop fuel b s) b' = chain s b').
Proof.
  revert s. induction fuel as [|fuel IH]; intros s Hwf Hlen; simpl.
  - split_and!; try done. destruct (chain s b); [done|simpl in Hlen; lia].
  - destruct (chain s b) as [|first rest] eqn:Hch; [done|].
    destruct (delete_first_chain _ _ _ _ Hwf Hch) as (Hb & Hoth & Hbc & Hrl).
    destruct (IH (delete_element first s)) as (Hwf' & Hbc' & Hrl' & Hb' & Hoth').
    + by apply wf_delete_element.
    + rewrite Hb. simpl in Hlen. lia.
    + split_and!; try done; try congruence.
      intros b' Hne. rewrite Hoth' by done. by apply Hoth.
Qed.

Lemma empties_PurgeBucket : empties PurgeBucket.
Proof.
  intros s b Hwf Hb. unfold PurgeBucket. by apply PurgeBucket_loop_spec.
Qed.

Lemma empties_foldl g (bs : list nat) s :
  empties g → wf s → (∀ b, b ∈ bs → (b < length (bucketTable s))%nat) →
  let s' := foldl (λ acc a, g a acc) s bs in
  wf s' ∧ bucketCount s' = bucketCount s ∧ resizeLimit s' = resizeLimit s ∧
  (∀ b, b ∈ bs → chain s' b = []) ∧
  (∀ b, chain s b = [] → chain s' b = []).
Proof.
  intros Hg. revert s. induction bs as [|a bs IH]; intros s Hwf Hbs; simpl.
  - split_and!; try done. by intros b ?%elem_of_nil.
  - destruct (Hg s a Hwf) as (Hwf1 & Hbc1 & Hrl1 & Ha & Hoth); [apply Hbs; left|].
    destruct (IH (g a s) Hwf1) as (Hwf2 & Hbc2 & Hrl2 & Hin & Hkeep).
    { intros b Hb. rewrite (wf_len _ _ _ Hwf1), Hbc1, <- (wf_len _ _ _ Hwf).
      apply Hbs. by right. }
    split_and!; try done; try congruence.
    + intros b [->|Hb]%elem_of_cons; [by apply Hkeep|by apply Hin].
    + intros b Hb. apply Hkeep. destruct (decide (b = a)) as [->|Hne]; [done|].
      by rewrite Hoth.
Qed.

Lemma emptied_inv g s :
  empties g → wf s →
  let s' := foldl (λ acc a, g a acc) s (downward (bucketCount s)) in
  inv [] (set_count 0 s') ∧ bucketCount s' = bucketCount s ∧
  resizeLimit s' = resizeLimit s ∧ (∀ b, chain s' b = []).
Proof.
  intros Hg Hwf s'.
  destruct (empties_foldl g (downward (bucketCount s)) s Hg Hwf)
    as (Hwf' & Hbc & Hrl & Hin & _).
  { intros b Hb. unfold downward in Hb. rewrite elem_of_reverse, elem_of_seq in Hb.
    rewrite (wf_len _ _ _ Hwf). lia. }
  fold s' in Hwf', Hbc, Hin.
  assert (∀ b, chain s' b = []) as Hall.
  { intros b. destruct (decide (b < length (bucketTable s'))%nat) as [Hb|Hb].
    - apply Hin. unfold downward. rewrite elem_of_reverse, elem_of_seq.
      rewrite (wf_len _ _ _ Hwf'), Hbc in Hb. lia.
    - unfold chain. by rewrite lookup_ge_None_2 by lia. }
  split_and!; try done.
  - by destruct Hwf'.
  - unfold counted, bucketSizes. simpl. rewrite sum_sizes, concat_all_nil; [done|].
    intros a l Ha. rewrite <- (chain_lookup _ _ _ Ha). apply Hall.
  - intros key.
    pose proof (Hall (GetBucket (uint32 (Hash key)) (set_count 0 s'))) as Hx.
    change (chain s' ?b) with (chain (set_count 0 s') b) in Hx. by rewrite Hx.
Qed.

Lemma RemoveAll_inv s : wf s → inv [] (RemoveAllHashTableElements s).
Proof. intros Hwf. apply (emptied_inv _ s empties_RemoveAllBucketElements Hwf). Qed.

Lemma Purge_inv s : wf s → inv [] (PurgeHashTable s).
Proof. intros Hwf. apply (emptied_inv _ s empties_PurgeBucket Hwf). Qed.

Lemma delete_inv e s log : inv log s → inv (unlink e log) (delete_element e s).
Proof.
  intros (Hwf & Hc & Hord). split; [by apply wf_delete_element|].
  unfold delete_element. destruct (owningHashTableBucket s !! e) as [b|] eqn:He.
  - split.
    + by apply (counted_RemoveBucketElement _ _ _ Hwf He).
    + by apply (ordered_RemoveBucketElement _ _ _ _ Hwf He).
  - rewrite (unlink_unattached _ _ _ Hwf Hord He). done.
Qed.

Lemma Remove_inv e s log : inv log s → inv (unlink e log) (RemoveHashTableElement e s).
Proof.
  intros (Hwf & Hc & Hord). unfold RemoveHashTableElement.
  destruct (owningHashTableBucket s !! e) as [b|] eqn:He.
  - split_and!.
    + by apply wf_RemoveBucketElement.
    + by apply counted_RemoveBucketElement.
    + by apply ordered_RemoveBucketElement.
  - by rewrite (unlink_unattached _ _ _ Hwf Hord He).
Qed.

Lemma Remove_unattached e s :
  owningHashTableBucket (RemoveHashTableElement e s) !! e = None.
Proof.
  unfold RemoveHashTableElement.
  destruct (owningHashTableBucket s !! e) as [b|] eqn:He; [|done].
  simpl. apply lookup_delete_eq.
Qed.

(** *** Insertion of an attached element *)

Abbreviation InsertAttached := (InsertHashTableElement_attached GetKey Hash).

Lemma InsertHashTableElement_attached_eq e s :
  let s1 := RemoveHashTableElement e s in
  let b := GetBucket (keyHash e) s1 in
  InsertAttached e s =
  State (elementCount s1 + 1) (bucketCount s1) (resizeLimit s1)
        (<[b := placed e (chain s1 b)]> (bucketTable s1))
        (<[e := b]> (owningHashTableBucket s1))
        (<[e := keyHash e]> (hashValue s1)).
Proof.
  intros s1 b. unfold InsertHashTableElement_attached.
  fold (RemoveHashTableElement e s). fold s1.
  unfold placed, GetBucket, chain. simpl.
  fold (Hash.keyHash GetKey Hash e). fold (GetBucket (keyHash e) s1). fold b.
  by destruct (scan (GetKey e) (reverse (default [] (bucketTable s1 !! b)))).
Qed.

Lemma InsertAttached_inv e s log :
  inv log s → inv (unlink e log ++ [e]) (InsertAttached e s).
Proof.
  intros Hinv. rewrite InsertHashTableElement_attached_eq.
  apply filed_inv; [by apply Remove_inv|apply Remove_unattached].
Qed.

(** An attached element is inserted the same way by either branch. *)
Lemma InsertAttached_Insert e s :
  is_Some (owningHashTableBucket s !! e) → InsertAttached e s = Insert e s.
Proof.
  intros [b He]. rewrite InsertHashTableElement_attached_eq, InsertHashTableElement_eq.
  unfold RemoveHashTableElement, InsertHashTableElement_detach. by rewrite He.
Qed.

(** *** Every client program keeps the invariant *)

Abbreviation exec := (Hash.exec GetKey Hash).
Abbreviation run := (Hash.run GetKey Hash).

Lemma exec_inv o s log : inv log s → inv (attach o log) (exec o s).
Proof.
  intros Hinv. destruct o; simpl.
  - by apply Insert_inv.
  - by apply Remove_inv.
  - apply RemoveAll_inv, Hinv.
  - apply Purge_inv, Hinv.
  - destruct Hinv as (Hwf & Hc & Hord). split_and!.
    + by apply wf_ResizeBucketTable.
    + by apply counted_ResizeBucketTable.
    + by apply ordered_ResizeBucketTable.
  - by apply delete_inv.
  - by apply InsertAttached_inv.
Qed.

Lemma foldl_inv ops s log :
  inv log s → inv (foldl (λ l o, attach o l) log ops) (run ops s).
Proof.
  revert s log. induction ops as [|o ops IH]; intros s log Hinv; [done|].
  simpl. apply IH. by apply exec_inv.
Qed.

Lemma HashTableBase_inv n d : isPowerOfTwo n → inv [] (HashTableBase n d).
Proof.
  intros Hn.
  assert (∀ b, chain (HashTableBase n d) b = []) as Hall.
  { intros b. unfold chain. simpl.
    destruct (replicate (Z.to_nat n) [] !! b) as [l|] eqn:Hl; [|done].
    by apply lookup_replicate_1 in Hl as [-> _]. }
  split_and!.
  - split; simpl; try done.
    + by rewrite length_replicate.
    + intros e b. rewrite Hall, lookup_empty. split; [done|by intros ?%elem_of_nil].
    + rewrite concat_replicate_nil. constructor.
  - unfold counted, bucketSizes. simpl. by rewrite sum_sizes, concat_replicate_nil.
  - intros key. by rewrite Hall.
Qed.

Lemma run_inv ops n d :
  isPowerOfTwo n → inv (insertionOrder ops) (run ops (HashTableBase n d)).
Proof. intros Hn. by apply foldl_inv, HashTableBase_inv. Qed.

(** *** Grouping *)

Lemma grouped_tail x l : grouped (x :: l) → grouped l.
Proof. by intros [? _]. Qed.

Lemma grouped_drop x y l : grouped (x :: y :: l) → grouped (x :: l).
Proof.
  intros [[Hl Hy] Hx]. split; [done|].
  destruct Hx as [(y' & [= <-] & Hk)|Hx].
  - rewrite <- Hk. done.
  - right. by apply Forall_cons in Hx as [_ ?].
Qed.

Lemma grouped_cons_filter (P : elem → Prop) `{!∀ x, Decision (P x)} x l :
  grouped (x :: l) → grouped (x :: filter P l).
Proof.
  revert x. induction l as [|y l IH]; intros x Hg; [done|].
  destruct (decide (P y)) as [Hy|Hy].
  - rewrite filter_cons_True by done. destruct Hg as [Hyl Hx].
    split; [by apply IH|]. destruct Hx as [(y' & [= <-] & Hk)|Hx].
    + left. by exists y.
    + right. apply Forall_cons in Hx as [Hxy Hx]. apply Forall_cons. split; [done|].
      apply Forall_forall. intros z [_ Hz]%list_elem_of_filter.
      by apply (proj1 (Forall_forall _ _) Hx).
  - rewrite filter_cons_False by done. apply IH. by eapply grouped_drop.
Qed.

Lemma grouped_filter (P : elem → Prop) `{!∀ x, Decision (P x)} l :
  grouped l → grouped (filter P l).
Proof.
  induction l as [|x l IH]; intros Hg; [done|].
  destruct (decide (P x)).
  - rewrite filter_cons_True by done. by apply grouped_cons_filter.
  - rewrite filter_cons_False by done. by apply IH, (grouped_tail x).
Qed.

Lemma grouped_app l1 l2 :
  grouped l1 → grouped l2 →
  (∀ x y, x ∈ l1 → y ∈ l2 → GetKey x ≠ GetKey y) →
  grouped (l1 ++ l2).
Proof.
  induction l1 as [|x l1 IH]; intros H1 H2 Hd; [done|].
  destruct H1 as [H1 Hx]. split.
  - apply IH; [done|done|]. intros ? ? ? ?. apply Hd; [by right|done].
  - destruct Hx as [(y & Hy & Hk)|Hx].
    + left. exists y. split; [|done]. by destruct l1.
    + right. apply Forall_app. split; [done|].
      apply Forall_forall. intros z Hz Hk. by apply (Hd x z); [left| |].
Qed.

Lemma grouped_concat (tbl : list (list elem)) :
  (∀ i l, tbl !! i = Some l → grouped l) →
  (∀ i j li lj x y, tbl !! i = Some li → tbl !! j = Some lj →
     x ∈ li → y ∈ lj → GetKey x = GetKey y → i = j) →
  grouped (concat tbl).
Proof.
  induction tbl as [|l0 tbl IH]; intros Hg Hd; [done|].
  rewrite concat_cons. apply grouped_app.
  - by apply (Hg 0%nat).
  - apply IH.
    + intros i l Hl. by apply (Hg (S i)).
    + intros i j li lj x y Hi Hj Hx Hy Hk.
      by injection (Hd (S i) (S j) li lj x y Hi Hj Hx Hy Hk).
  - intros x y Hx Hy Hk. apply elem_of_concat in Hy as (l & Hy & Hl).
    apply list_elem_of_lookup in Hl as [j Hj].
    pose proof (Hd 0%nat (S j) l0 l x y eq_refl Hj Hx Hy Hk) as Hij. discriminate Hij.
Qed.

Lemma grouped_link l1 a e l2 :
  grouped (l1 ++ a :: l2) → GetKey a = GetKey e →
  Forall (λ y, GetKey y ≠ GetKey e) l2 →
  grouped (l1 ++ a :: e :: l2).
Proof.
  intros Hg Ha Hl2. induction l1 as [|z l1 IH].
  - destruct Hg as [Hg _]. simpl. split; [split; [done|by right]|].
    left. exists e. by split.
  - destruct Hg as [Hg Hz]. split; [by apply IH|].
    destruct Hz as [(y & Hy & Hk)|Hz].
    + left. exists y. split; [|done]. by destruct l1.
    + right. apply Forall_app in Hz as [Hz1 Hz2].
      apply Forall_cons in Hz2 as [Hza Hz2].
      apply Forall_app. split; [done|].
      apply Forall_cons. split; [done|]. apply Forall_cons. split; [|done].
      by rewrite <- Ha.
Qed.

Lemma grouped_snoc l e :
  grouped l → Forall (λ y, GetKey y ≠ GetKey e) l → grouped (l ++ [e]).
Proof.
  intros Hg Hl. apply grouped_app; [done|by split; [|right]|].
  intros x y Hx ->%list_elem_of_singleton.
  by apply (proj1 (Forall_forall _ _) Hl).
Qed.

Lemma grouped_between l1 x l2 y l3 :
  grouped (l1 ++ x :: l2 ++ y :: l3) → GetKey x = GetKey y →
  Forall (λ z, GetKey z = GetKey x) l2.
Proof.
  intros Hg Hk. induction l1 as [|z l1 IH]; [|by apply IH, (grouped_tail z)].
  simpl in Hg. revert x Hg Hk.
  induction l2 as [|z l2 IH]; intros x Hg Hk; [constructor|].
  destruct Hg as [Hg Hx].
  assert (GetKey z = GetKey x) as Hz.
  { destruct Hx as [(z' & [= <-] & ?)|Hx]; [done|].
    apply Forall_cons in Hx as [_ Hx]. apply Forall_app in Hx as [_ Hx].
    apply Forall_cons in Hx as [Hx _]. congruence. }
  apply Forall_cons. split; [done|].
  rewrite <- Hz. apply IH; [done|congruence].
Qed.

(** *** Grouping is kept by every call *)


Lemma chain_update cnt bc lim (tbl : list (list elem)) m hv b l' b' :
  (b < length tbl)%nat →
  chain (State cnt bc lim (<[b := l']> tbl) m hv) b'
  = if decide (b' = b) then l' else default [] (tbl !! b').
Proof.
  intros Hb. unfold chain. simpl. case_decide as Hd.
  - subst b'. by rewrite list_lookup_insert_eq.
  - by rewrite list_lookup_insert_ne.
Qed.

Lemma grouped_placed e l : NoDup l → grouped l → grouped (placed e l).
Proof.
  intros Hnd Hg. unfold placed, Hash.placed.
  pose proof (scan_reverse (GetKey e) l) as Hs.
  destruct (scan (GetKey e) (reverse l)) as [a|].
  - destruct Hs as (l1 & l2 & -> & Ha & Hl2).
    rewrite link_after_split.
    + by apply grouped_link.
    + apply NoDup_app in Hnd as (_ & Hd & _). intros Hin.
      apply (Hd a Hin). by left.
  - by apply grouped_snoc.
Qed.

Lemma allGrouped_RemoveBucketElement s e b :
  wf s → owningHashTableBucket s !! e = Some b → allGrouped s →
  allGrouped (RemoveBucketElement b e s).
Proof.
  intros Hwf He Hg b'. pose proof (wf_owner_lt _ _ _ Hwf He) as Hb.
  unfold RemoveBucketElement, set_count, set_owner, set_chain. simpl.
  rewrite chain_update by done. case_decide.
  - apply grouped_filter, Hg.
  - apply Hg.
Qed.

Lemma allGrouped_ResizeBucketTable s :
  wf s → allGrouped s → allGrouped (ResizeBucketTable s).
Proof.
  intros Hwf Hg b. rewrite Resize_chain by done.
  case_decide; [|done]. apply grouped_filter.
  rewrite visitOrder_reverse by apply (wf_len _ _ _ Hwf).
  apply grouped_concat.
  - intros i l [Hl _]%reverse_lookup_Some.
    rewrite <- (chain_lookup _ _ _ Hl). apply Hg.
  - intros i j li lj x y [Hi Hil]%reverse_lookup_Some [Hj Hjl]%reverse_lookup_Some
      Hx Hy Hk.
    rewrite <- (chain_lookup _ _ _ Hi) in Hx. rewrite <- (chain_lookup _ _ _ Hj) in Hy.
    apply (wf_owner _ _ _ Hwf) in Hx, Hy.
    pose proof (attached_key_bucket _ _ _ _ Hwf Hx Hk) as Hbx.
    pose proof (attached_key_bucket _ _ _ _ Hwf Hy eq_refl) as Hby.
    lia.
Qed.

Lemma allGrouped_detach s e :
  wf s → allGrouped s → allGrouped (InsertHashTableElement_detach e s).
Proof.
  intros Hwf Hg. unfold InsertHashTableElement_detach.
  destruct (owningHashTableBucket s !! e) as [b|] eqn:He.
  - by apply allGrouped_RemoveBucketElement.
  - case_decide; [by apply allGrouped_ResizeBucketTable|done].
Qed.

Lemma allGrouped_Insert s e log :
  inv log s → allGrouped s → allGrouped (Insert e s).
Proof.
  intros Hinv Hg.
  destruct (detach_inv e s log Hinv) as ((Hwf & _ & _) & He).
  pose proof (allGrouped_detach s e (proj1 Hinv) Hg) as Hg1.
  rewrite InsertHashTableElement_eq. intros b'.
  rewrite chain_update by by apply GetBucket_lt.
  case_decide; [|apply Hg1].
  apply grouped_placed; [by apply wf_chain_NoDup|apply Hg1].
Qed.

Lemma allGrouped_InsertAttached s e log :
  inv log s → allGrouped s → allGrouped (InsertAttached e s).
Proof.
  intros Hinv Hg.
  destruct (Remove_inv e s log Hinv) as (Hwf & _ & _).
  assert (allGrouped (RemoveHashTableElement e s)) as Hg1.
  { unfold RemoveHashTableElement.
    destruct (owningHashTableBucket s !! e) as [b|] eqn:He; [|done].
    apply allGrouped_RemoveBucketElement; [apply Hinv|done|done]. }
  rewrite InsertHashTableElement_attached_eq. intros b'.
  rewrite chain_update by by apply GetBucket_lt.
  case_decide; [|apply Hg1].
  apply grouped_placed; [by apply wf_chain_NoDup|apply Hg1].
Qed.

Lemma allGrouped_emptied g s :
  empties g → wf s →
  allGrouped (set_count 0 (foldl (λ acc a, g a acc) s (downward (bucketCount s)))).
Proof.
  intros Hg Hwf b.
  destruct (emptied_inv g s Hg Hwf) as (_ & _ & _ & Hall).
  change (chain (set_count 0 ?t) b) with (chain t b). by rewrite Hall.
Qed.

Lemma allGrouped_delete_element s e :
  wf s → allGrouped s → allGrouped (delete_element e s).
Proof.
  intros Hwf Hg b. unfold delete_element.
  destruct (owningHashTableBucket s !! e) as [b0|] eqn:He.
  - apply (allGrouped_RemoveBucketElement s e b0 Hwf He Hg b).
  - apply Hg.
Qed.

Lemma exec_allGrouped o s log :
  inv log s → allGrouped s → allGrouped (exec o s).
Proof.
  intros Hinv Hg. destruct o; simpl.
  - by apply (allGrouped_Insert s _ log).
  - unfold RemoveHashTableElement.
    destruct (owningHashTableBucket s !! element) as [b|] eqn:He; [|done].
    apply allGrouped_RemoveBucketElement; [apply Hinv|done|done].
  - apply allGrouped_emptied; [apply empties_RemoveAllBucketElements|apply Hinv].
  - apply allGrouped_emptied; [apply empties_PurgeBucket|apply Hinv].
  - apply allGrouped_ResizeBucketTable; [apply Hinv|done].
  - apply allGrouped_delete_element; [apply Hinv|done].
  - by apply (allGrouped_InsertAttached s _ log).
Qed.

Lemma foldl_allGrouped ops s log :
  inv log s → allGrouped s → allGrouped (run ops s).
Proof.
  revert s log. induction ops as [|o ops IH]; intros s log Hinv Hg; [done|].
  simpl. apply (IH _ (attach o log)).
  - by apply exec_inv.
  - by apply (exec_allGrouped o s log).
Qed.

Lemma run_allGrouped ops n d :
  isPowerOfTwo n → allGrouped (run ops (HashTableBase n d)).
Proof.
  intros Hn. apply (foldl_allGrouped _ _ []).
  - by apply HashTableBase_inv.
  - intros b. unfold chain. simpl.
    destruct (replicate (Z.to_nat n) [] !! b) as [l|] eqn:Hl; [|done].
    by apply lookup_replicate_1 in Hl as [-> _].
Qed.

(** *** Lookup *)

Abbreviation Find := (FindHashTableElement GetKey Hash).

Lemma Find_head log s key :
  ordered log s → Find key s = head (filter (λ x, GetKey x = key) log).
Proof.
  intros Hord. unfold FindHashTableElement. by rewrite scan_head, Hord.
Qed.

Lemma scan_skip key l l' :
  Forall (λ y, GetKey y ≠ key) l → scan key (l ++ l') = scan key l'.
Proof.
  induction 1 as [|y l Hy _ IH]; [done|]. simpl. by rewrite decide_False.
Qed.

Lemma scan_reverse_found key l1 after l2 :
  GetKey after = key → Forall (λ y, GetKey y ≠ key) l2 →
  scan key (reverse (l1 ++ after :: l2)) = Some after.
Proof.
  intros Ha Hl2. rewrite reverse_app, reverse_cons, <- (assoc_L (++)).
  rewrite scan_skip by by apply Forall_reverse.
  simpl. by rewrite decide_True.
Qed.

Lemma scan_reverse_none key l :
  Forall (λ y, GetKey y ≠ key) l → scan key (reverse l) = None.
Proof.
  intros Hl. rewrite <- (app_nil_r (reverse l)).
  by rewrite scan_skip by by apply Forall_reverse.
Qed.


Lemma Resize_concat_perm s :
  wf s → concat (bucketTable (ResizeBucketTable s)) ≡ₚ concat (bucketTable s).
Proof.
  intros Hwf. rewrite ResizeBucketTable_eq. simpl.
  rewrite distribute_perm by (intros e _; by apply rehash_in_range).
  rewrite concat_replicate_nil. simpl. by apply visitOrder_perm.
Qed.

Lemma Resize_elementCount s :
  wf s → counted s → elementCount (ResizeBucketTable s) = elementCount s.
Proof.
  intros Hwf Hc. rewrite (counted_ResizeBucketTable s Hwf), Hc.
  unfold bucketSizes. by rewrite !sum_sizes, Resize_concat_perm.
Qed.

Lemma detach_elementCount s e :
  wf s → counted s →
  elementCount (InsertHashTableElement_detach e s) =
  if owningHashTableBucket s !! e is Some _ then (elementCount s - 1)%Z else elementCount s.
Proof.
  intros Hwf Hc. unfold InsertHashTableElement_detach.
  destruct (owningHashTableBucket s !! e); [done|].
  case_decide; [by apply Resize_elementCount|done].
Qed.

Lemma Insert_elementCount s e :
  wf s → counted s →
  elementCount (Insert e s) =
  if owningHashTableBucket s !! e is Some _ then elementCount s else (elementCount s + 1)%Z.
Proof.
  intros Hwf Hc. rewrite InsertHashTableElement_eq. simpl.
  rewrite detach_elementCount by done.
  destruct (owningHashTableBucket s !! e); lia.
Qed.

Lemma Insert_chain s e log b' :
  inv log s →
  let s1 := InsertHashTableElement_detach e s in
  let b := GetBucket (keyHash e) s1 in
  chain (Insert e s) b' = if decide (b' = b) then placed e (chain s1 b) else chain s1 b'.
Proof.
  intros Hinv s1 b.
  destruct (detach_inv e s log Hinv) as ((Hwf & _ & _) & _).
  rewrite InsertHashTableElement_eq. apply chain_update. by apply GetBucket_lt.
Qed.

Lemma run_snoc ops o s : run (ops ++ [o]) s = exec o (run ops s).
Proof. unfold Hash.run. by rewrite foldl_app. Qed.

Lemma insertionOrder_snoc ops o :
  insertionOrder (ops ++ [o]) = attach o (insertionOrder ops).
Proof. unfold insertionOrder. by rewrite foldl_app. Qed.

(** *** Filling a fresh table *)

Lemma inserts_below_limit (es : list elem) n d :
  isPowerOfTwo n → NoDup es → (Z.of_nat (length es) ≤ int32 (n * d))%Z →
  let s := run (OpInsert <$> es) (HashTableBase n d) in
  bucketCount s = n ∧ resizeLimit s = int32 (n * d) ∧
  elementCount s = Z.of_nat (length es) ∧
  insertionOrder (OpInsert <$> es) = es.
Proof.
  intros Hn. induction es as [|e es IH] using rev_ind; intros Hnd Hlen; [done|].
  apply NoDup_app in Hnd as (Hnd & Hfresh & _).
  rewrite length_app in Hlen. simpl in Hlen.
  destruct IH as (Hbc & Hrl & Hec & Hlog); [done|lia|].
  rewrite fmap_app. simpl. rewrite run_snoc, insertionOrder_snoc. simpl.
  pose proof (run_inv (OpInsert <$> es) n d Hn) as (Hwf & Hc & Hord).
  set (s := run (OpInsert <$> es) (HashTableBase n d)) in *.
  rewrite Hlog in *.
  assert (e ∉ es) as He by (intros Hin; apply (Hfresh e Hin); left).
  assert (owningHashTableBucket s !! e = None) as Hun.
  { destruct (owningHashTableBucket s !! e) eqn:Ho; [|done].
    exfalso. apply He. apply (ordered_attached s es e Hwf Hord). by eexists. }
  assert (InsertHashTableElement_detach e s = s) as Hd.
  { unfold InsertHashTableElement_detach. rewrite Hun. rewrite decide_False; [done|]. lia. }
  rewrite InsertHashTableElement_eq, Hd. simpl.
  split_and!; try done.
  - rewrite length_app. simpl. lia.
  - by rewrite unlink_absent.
Qed.

Lemma chain_members s log b :
  wf s → ordered log s → NoDup log →
  chain s b ≡ₚ filter (λ x, GetBucket (keyHash x) s = b) log.
Proof.
  intros Hwf Hord Hnd. apply NoDup_Permutation.
  - by apply wf_chain_NoDup.
  - by apply NoDup_filter.
  - intros x. rewrite list_elem_of_filter, <- (wf_owner _ _ _ Hwf).
    rewrite (ordered_attached s log x Hwf Hord). split.
    + intros Hx. split; [|by eexists].
      apply (attached_key_bucket s x b (GetKey x) Hwf Hx eq_refl).
    + intros [Hb [b' Hb']]. rewrite Hb'. f_equal.
      rewrite <- Hb. symmetry.
      apply (attached_key_bucket s x b' (GetKey x) Hwf Hb' eq_refl).
Qed.

Lemma length_filter_fmap {A B} (f : A → B) (P : B → Prop) (Q : A → Prop)
    `{!∀ c, Decision (P c), !∀ a, Decision (Q a)} (k : list A) :
  (∀ a, Q a ↔ P (f a)) →
  length (filter Q k) = length (filter P (f <$> k)).
Proof.
  intros HPQ. induction k as [|a k IH]; [done|]. rewrite fmap_cons.
  destruct (decide (Q a)) as [Ha|Ha].
  - rewrite (filter_cons_True Q) by done.
    rewrite (filter_cons_True P) by by apply HPQ. simpl. by rewrite IH.
  - rewrite (filter_cons_False Q) by done.
    rewrite (filter_cons_False P); [done|]. by rewrite <- HPQ.
Qed.

Lemma filter_key_singleton (l : list elem) x :
  NoDup (GetKey <$> l) → x ∈ l → filter (λ y, GetKey y = GetKey x) l = [x].
Proof.
  induction l as [|y l IH]; intros Hnd Hin; [by apply elem_of_nil in Hin|].
  rewrite fmap_cons in Hnd. apply NoDup_cons in Hnd as [Hy Hnd].
  apply elem_of_cons in Hin as [->|Hin].
  - rewrite filter_cons_True by done. f_equal. apply filter_key_none.
    apply Forall_forall. intros z Hz Hk. apply Hy. rewrite <- Hk.
    by apply list_elem_of_fmap_2.
  - rewrite filter_cons_False; [by apply IH|].
    intros Hk. apply Hy. rewrite Hk. by apply list_elem_of_fmap_2.
Qed.

(** ** The hash table claims *)

(** C1.  After [InsertHashTableElement(e)], looking up the key of [e]
    returns an element with that key; and in every state a client
    program can reach, the elements of [insertionOrder] are exactly the
    attached ones and [FindHashTableElement(key)] returns the earliest
    inserted among those whose key equals [key]. *)
Theorem find_after_insert n d ops e :
  isPowerOfTwo n →
  let s := run ops (HashTableBase n d) in
  (∃ x, Find (GetKey e) (Insert e s) = Some x ∧ GetKey x = GetKey e) ∧
  (∀ x, x ∈ insertionOrder ops ↔ is_Some (owningHashTableBucket s !! x)) ∧
  (∀ key, Find key s = head (filter (λ x, GetKey x = key) (insertionOrder ops))).
Proof.
  intros Hn s. destruct (run_inv ops n d Hn) as (Hwf & Hc & Hord). fold s in Hwf, Hc, Hord.
  split_and!.
  - destruct (Insert_inv e s _ (conj Hwf (conj Hc Hord))) as (_ & _ & Hord').
    rewrite (Find_head _ _ _ Hord').
    rewrite filter_app, filter_cons_True by done.
    destruct (filter (λ x, GetKey x = GetKey e) (unlink e (insertionOrder ops)))
      as [|x l] eqn:Hf.
    + by exists e.
    + exists x. split; [done|].
      assert (x ∈ x :: l) as Hx by left. rewrite <- Hf in Hx.
      by apply list_elem_of_filter in Hx as [? _].
  - intros x. by apply ordered_attached.
  - intros key. by apply Find_head.
Qed.

(** C4.  [InsertHashTableElement(e)] scans the target bucket from the
    tail: the member it stops at is the last one whose key equals the
    key of [e], and [e] is linked right behind it; when no member has
    that key, [e] becomes the new tail.  The other buckets are left as
    they were, members with equal keys stay next to each other, and they
    appear in insertion order. *)
Theorem insert_position n d ops e :
  isPowerOfTwo n →
  let s := run ops (HashTableBase n d) in
  let s1 := InsertHashTableElement_detach e s in
  let b := GetBucket (keyHash e) s1 in
  let s' := Insert e s in
  (∀ l1 after l2,
     chain s1 b = l1 ++ after :: l2 → GetKey after = GetKey e →
     Forall (λ y, GetKey y ≠ GetKey e) l2 →
     scan (GetKey e) (reverse (chain s1 b)) = Some after ∧
     chain s' b = l1 ++ after :: e :: l2) ∧
  (Forall (λ y, GetKey y ≠ GetKey e) (chain s1 b) →
     scan (GetKey e) (reverse (chain s1 b)) = None ∧
     chain s' b = chain s1 b ++ [e]) ∧
  (∀ b', b' ≠ b → chain s' b' = chain s1 b') ∧
  (∀ b' l1 x l2 y l3,
     chain s' b' = l1 ++ x :: l2 ++ y :: l3 → GetKey x = GetKey y →
     Forall (λ z, GetKey z = GetKey x) l2) ∧
  (∀ key, filter (λ x, GetKey x = key) (chain s' (GetBucket (uint32 (Hash key)) s'))
          = filter (λ x, GetKey x = key) (insertionOrder (ops ++ [OpInsert e]))).
Proof.
  intros Hn s s1 b s'.
  pose proof (run_inv ops n d Hn) as Hinv. fold s in Hinv.
  destruct (detach_inv e s _ Hinv) as ((Hwf1 & _ & _) & _). fold s1 in Hwf1.
  pose proof (wf_chain_NoDup s1 b Hwf1) as Hnd.
  split_and!.
  - intros l1 after l2 Hch Ha Hl2.
    assert (scan (GetKey e) (reverse (chain s1 b)) = Some after) as Hscan
      by (rewrite Hch; by apply scan_reverse_found).
    split; [done|]. unfold s'. rewrite (Insert_chain s e _ b Hinv).
    fold s1 b. rewrite decide_True by done. unfold Hash.placed. rewrite Hscan, Hch.
    apply link_after_split. rewrite Hch in Hnd.
    apply NoDup_app in Hnd as (_ & Hd & _). intros Hin. apply (Hd after Hin). by left.
  - intros Hnone.
    assert (scan (GetKey e) (reverse (chain s1 b)) = None) as Hscan
      by by apply scan_reverse_none.
    split; [done|]. unfold s'. rewrite (Insert_chain s e _ b Hinv).
    fold s1 b. rewrite decide_True by done. unfold Hash.placed. by rewrite Hscan.
  - intros b' Hne. unfold s'. rewrite (Insert_chain s e _ b' Hinv).
    fold s1 b. by rewrite decide_False.
  - intros b' l1 x l2 y l3 Hch Hk. apply (grouped_between l1 x l2 y l3); [|done].
    rewrite <- Hch.
    pose proof (run_allGrouped (ops ++ [OpInsert e]) n d Hn b') as Hg.
    by rewrite run_snoc in Hg.
  - intros key.
    pose proof (run_inv (ops ++ [OpInsert e]) n d Hn) as (_ & _ & Hord).
    rewrite run_snoc in Hord. apply Hord.
Qed.

(** C5.  A table built with 4 buckets and depth 2 has limit 8.  Eight
    unattached elements whose hashes are 0..7 (in any order) go in
    without a resize, two per bucket, each in the bucket its hash
    selects modulo 4.  The ninth insertion finds the count at the limit
    and resizes once, to 8 buckets and limit 16.  Afterwards each of the
    eight is what [FindHashTableElement] returns for its key, the key of
    the ninth is found, and the ninth itself is returned for it when
    none of the eight has the same key. *)
Theorem ninth_insert_resizes (es : list elem) (e9 : elem) :
  NoDup es → e9 ∉ es →
  keyHash <$> es ≡ₚ [0; 1; 2; 3; 4; 5; 6; 7]%Z →
  let s8 := run (OpInsert <$> es) (HashTableBase 4 2) in
  let s9 := Insert e9 s8 in
  resizeLimit (HashTableBase 4 2) = 8%Z ∧
  (bucketCount s8 = 4%Z ∧ resizeLimit s8 = 8%Z ∧ elementCount s8 = 8%Z ∧
   ∀ b, (b < 4)%nat →
        length (chain s8 b) = 2%nat ∧
        ∀ x, x ∈ chain s8 b → Z.of_nat b = (keyHash x mod 4)%Z) ∧
  (InsertHashTableElement_detach e9 s8 = ResizeBucketTable s8 ∧
   bucketCount s9 = 8%Z ∧ resizeLimit s9 = 16%Z ∧ elementCount s9 = 9%Z) ∧
  (∀ x, x ∈ es → Find (GetKey x) s9 = Some x) ∧
  (∃ y, Find (GetKey e9) s9 = Some y ∧ GetKey y = GetKey e9) ∧
  (GetKey e9 ∉ GetKey <$> es → Find (GetKey e9) s9 = Some e9).
Proof.
  intros Hnd Hfresh Hhash s8 s9.
  assert (isPowerOfTwo 4) as H4 by (by exists 2%nat).
  assert (length es = 8%nat) as Hlen.
  { rewrite <- (length_fmap keyHash), Hhash. done. }
  assert (int32 (4 * 2) = 8%Z) as H32 by reflexivity.
  destruct (inserts_below_limit es 4 2 H4 Hnd) as (Hbc & Hrl & Hec & Hlog);
    [rewrite H32; lia|].
  fold s8 in Hbc, Hrl, Hec. rewrite Hlen in Hec. rewrite H32 in Hrl.
  pose proof (run_inv (OpInsert <$> es) 4 2 H4) as (Hwf & Hc & Hord).
  fold s8 in Hwf, Hc, Hord. rewrite Hlog in Hord.
  assert (owningHashTableBucket s8 !! e9 = None) as Hun.
  { destruct (owningHashTableBucket s8 !! e9) eqn:Ho; [|done].
    exfalso. apply Hfresh. apply (ordered_attached s8 es e9 Hwf Hord). by eexists. }
  assert (InsertHashTableElement_detach e9 s8 = ResizeBucketTable s8) as Hd.
  { unfold InsertHashTableElement_detach. rewrite Hun. rewrite decide_True; [done|]. lia. }
  destruct (Insert_inv e9 s8 es (conj Hwf (conj Hc Hord))) as (_ & _ & Hord9).
  fold s9 in Hord9. rewrite (unlink_absent e9 es Hfresh) in Hord9.
  assert (NoDup (GetKey <$> es)) as Hkeys.
  { apply (NoDup_fmap_1 (λ k, uint32 (Hash k))). rewrite <- list_fmap_compose.
    change ((λ k, uint32 (Hash k)) ∘ GetKey) with keyHash.
    rewrite Hhash. evaluate. }
  split_and!; try done.
  - intros b Hb. split.
    + rewrite (chain_members s8 es b Hwf Hord Hnd). unfold GetBucket. rewrite Hbc.
      pose proof (length_filter_fmap keyHash (λ h, bucketIndex h 4 = b)
                    (λ x, bucketIndex (keyHash x) 4 = b) es) as Hff.
      rewrite Hff by done. rewrite Hhash.
      destruct b as [|[|[|[|b]]]]; try done. lia.
    + intros x Hx. apply (wf_owner _ _ _ Hwf) in Hx.
      apply (wf_hash _ _ _ Hwf) in Hx as [_ ->]. unfold GetBucket, bucketIndex.
      rewrite Hbc. change (4 - 1)%Z with (Z.ones 2). rewrite Z.land_ones by lia.
      pose proof (Z.mod_pos_bound (keyHash x) (2 ^ 2)). change (2 ^ 2)%Z with 4%Z in *. lia.
  - unfold s9. rewrite InsertHashTableElement_eq, Hd, ResizeBucketTable_eq. simpl. lia.
  - unfold s9. rewrite InsertHashTableElement_eq, Hd, ResizeBucketTable_eq. simpl.
    by rewrite Hrl.
  - unfold s9. rewrite Insert_elementCount, Hun by done. lia.
  - intros x Hx. rewrite (Find_head _ _ _ Hord9), filter_app.
    by rewrite (filter_key_singleton es x Hkeys Hx).
  - rewrite (Find_head _ _ _ Hord9), filter_app, (filter_cons_True _ e9) by done.
    destruct (filter (λ x, GetKey x = GetKey e9) es) as [|y l] eqn:Hf.
    + by exists e9.
    + exists y. split; [done|].
      assert (y ∈ y :: l) as Hy by left. rewrite <- Hf in Hy.
      by apply list_elem_of_filter in Hy as [? _].
  - intros Hkey. rewrite (Find_head _ _ _ Hord9), filter_app.
    rewrite filter_key_none; [by rewrite filter_cons_True|].
    apply Forall_forall. intros y Hy Hk. apply Hkey. rewrite <- Hk.
    by apply list_elem_of_fmap_2.
Qed.


(** C10.  [RemoveHashTableElement] on an element that is in no bucket
    changes nothing: the state afterwards, with its count, its chains
    and the (null) back reference of the element, is the state before. *)
Theorem remove_unattached_is_noop s e :
  owningHashTableBucket s !! e = None →
  RemoveHashTableElement e s = s ∧
  owningHashTableBucket (RemoveHashTableElement e s) !! e = None.
Proof.
  intros He. unfold RemoveHashTableElement. by rewrite He.
Qed.

End HashFacts.

(** *** Further properties of the hash table *)

Section HashExtras.
Context {KeyType : Type} `{!EqDecision KeyType}.
Variable GetKey : elem → KeyType.
Variable Hash : KeyType → Z.

Abbreviation wf := (Hash.wf GetKey Hash).
Abbreviation keyHash := (Hash.keyHash GetKey Hash).
Abbreviation scan := (Hash.scan GetKey).
Abbreviation ordered := (Hash.ordered GetKey Hash).
Abbreviation Insert := (InsertHashTableElement GetKey Hash).
Abbreviation Find := (FindHashTableElement GetKey Hash).
Abbreviation exec := (Hash.exec GetKey Hash).
Abbreviation run := (Hash.run GetKey Hash).
Abbreviation inv := (λ log s, wf s ∧ Hash.counted s ∧ ordered log s).
Implicit Types (s : state) (e x : elem) (b : nat) (l : list elem).

(** *** Helpers *)

Lemma head_filter_None (P : elem → Prop) `{!∀ x, Decision (P x)} l :
  head (filter P l) = None ↔ ∀ x, x ∈ l → ¬ P x.
Proof.
  rewrite head_None. split.
  - intros Hnil x Hin HP.
    assert (x ∈ filter P l) as Hx by by apply list_elem_of_filter.
    rewrite Hnil in Hx. by apply elem_of_nil in Hx.
  - intros Hall. destruct (filter P l) as [|x l'] eqn:Hf; [done|].
    assert (x ∈ filter P l) as Hx by (rewrite Hf; left).
    apply list_elem_of_filter in Hx as [HP Hin]. by destruct (Hall x Hin).
Qed.

Lemma filter_none_elem (P : elem → Prop) `{!∀ x, Decision (P x)} l :
  (∀ x, x ∈ l → ¬ P x) → filter P l = [].
Proof.
  intros Hall. apply head_None, head_filter_None, Hall.
Qed.

Lemma head_filter_unlink (P : elem → Prop) `{!∀ x, Decision (P x)} l l' e x :
  x ≠ e → head (filter P l) = Some x → head (filter P (unlink e l) ++ l') = Some x.
Proof.
  intros Hne. unfold unlink. rewrite list_filter_filter.
  induction l as [|y l IH]; [done|].
  rewrite !filter_cons. destruct (decide (P y)) as [Hk|Hk].
  - simpl. intros [= ->]. by rewrite decide_True.
  - rewrite decide_False by tauto. apply IH.
Qed.

Lemma filter_iff_in (P Q : elem → Prop)
    `{!∀ x, Decision (P x), !∀ x, Decision (Q x)} l :
  (∀ x, x ∈ l → P x ↔ Q x) → filter P l = filter Q l.
Proof.
  induction l as [|y l IH]; intros Hiff; [done|].
  rewrite !filter_cons.
  rewrite IH by (intros x Hx; apply Hiff; by right).
  destruct (decide (P y)) as [HP|HP], (decide (Q y)) as [HQ|HQ]; try done;
    exfalso; apply (Hiff y (list_elem_of_here _ _)) in HP || apply HP, (Hiff y); try done; left.
Qed.

Lemma wf_unattached_chain s e b :
  wf s → owningHashTableBucket s !! e = None → e ∉ chain s b.
Proof.
  intros Hwf He Hin. apply (wf_owner _ _ _ Hwf) in Hin. congruence.
Qed.

Lemma RemoveBucketElement_chain s e b0 b :
  wf s → owningHashTableBucket s !! e = Some b0 →
  chain (RemoveBucketElement b0 e s) b = unlink e (chain s b).
Proof.
  intros Hwf He. unfold RemoveBucketElement, set_count, set_owner, set_chain. simpl.
  rewrite chain_update by by eapply wf_owner_lt.
  case_decide as Hb; [by subst|].
  fold (chain s b). symmetry. apply unlink_absent.
  intros Hin. apply (wf_owner _ _ _ Hwf) in Hin. congruence.
Qed.

(** *** Lookup *)

(** X1.  In every state a client program can reach, what
    [FindHashTableElement(key)] returns has the key [key] and is attached to
    the bucket the hash of [key] selects; and the lookup returns null
    exactly when no attached element has that key. *)
Theorem find_hit_or_miss n d ops key :
  isPowerOfTwo n →
  let s := run ops (HashTableBase n d) in
  (∀ x, Find key s = Some x →
        GetKey x = key ∧
        owningHashTableBucket s !! x = Some (GetBucket (uint32 (Hash key)) s)) ∧
  (Find key s = None ↔
   ∀ x, is_Some (owningHashTableBucket s !! x) → GetKey x ≠ key).
Proof.
  intros Hn s. destruct (run_inv GetKey Hash ops n d Hn) as (Hwf & _ & Hord).
  fold s in Hwf, Hord. split.
  - intros x Hx. unfold FindHashTableElement in Hx. rewrite scan_head in Hx.
    apply head_Some_elem_of in Hx. apply list_elem_of_filter in Hx as [Hk Hin].
    split; [done|]. by apply (wf_owner _ _ _ Hwf).
  - rewrite (Find_head _ _ _ _ _ Hord), head_filter_None.
    split; intros Hall x Hx.
    + apply Hall. by apply (ordered_attached GetKey Hash s).
    + apply Hall. by apply (ordered_attached GetKey Hash s (insertionOrder ops)).
Qed.

(** X6.  [RemoveHashTableElement(e)] leaves [e] unattached, takes it out of
    its chain without reordering the other members, and leaves the bucket
    count and the resize limit as they are: the table never shrinks.  No
    lookup by another key changes, and a lookup by the key of [e] returns
    the earliest inserted of the other elements with that key. *)
Theorem remove_detaches n d ops e :
  isPowerOfTwo n →
  let s := run ops (HashTableBase n d) in
  let s' := RemoveHashTableElement e s in
  owningHashTableBucket s' !! e = None ∧
  (∀ b, chain s' b = unlink e (chain s b)) ∧
  (∀ x, x ≠ e → owningHashTableBucket s' !! x = owningHashTableBucket s !! x) ∧
  (∀ key, key ≠ GetKey e → Find key s' = Find key s) ∧
  Find (GetKey e) s'
  = head (filter (λ x, GetKey x = GetKey e) (unlink e (insertionOrder ops))) ∧
  bucketCount s' = bucketCount s ∧ resizeLimit s' = resizeLimit s.
Proof.
  intros Hn s s'. pose proof (run_inv GetKey Hash ops n d Hn) as Hinv.
  fold s in Hinv. pose proof (Remove_inv GetKey Hash e s _ Hinv) as (_ & _ & Hord').
  fold s' in Hord'. destruct Hinv as (Hwf & _ & Hord).
  assert (bucketCount s' = bucketCount s ∧ resizeLimit s' = resizeLimit s ∧
          owningHashTableBucket s' !! e = None ∧
          (∀ x, x ≠ e → owningHashTableBucket s' !! x = owningHashTableBucket s !! x) ∧
          ∀ b, chain s' b = unlink e (chain s b)) as (Hbc & Hrl & He & Hx & Hch).
  { unfold s', RemoveHashTableElement.
    destruct (owningHashTableBucket s !! e) as [b0|] eqn:Ho.
    - split_and!; try done.
      + simpl. apply lookup_delete_eq.
      + intros x Hne. simpl. by apply lookup_delete_ne.
      + intros b. by apply RemoveBucketElement_chain.
    - split_and!; try done. intros b. symmetry. apply unlink_absent.
      by apply wf_unattached_chain. }
  split_and!; try done.
  - intros key Hne. rewrite (Find_head _ _ _ _ _ Hord'), (Find_head _ _ _ _ _ Hord).
    f_equal. apply unlink_filter_out. congruence.
  - apply (Find_head _ _ _ _ _ Hord').
Qed.

(** *** Insertion and the other members *)

(** X2.  [InsertHashTableElement(e)] attaches [e] and detaches nothing: the
    elements attached afterwards are [e] and those attached before.  A
    lookup by another key than that of [e] returns what it returned before,
    a lookup by the key of [e] still returns the element it returned before
    if that was not [e], and it returns [e] when no other attached element
    has the key. *)
Theorem insert_keeps_other_lookups n d ops e :
  isPowerOfTwo n →
  let s := run ops (HashTableBase n d) in
  let s' := Insert e s in
  (∀ x, is_Some (owningHashTableBucket s' !! x) ↔
        x = e ∨ is_Some (owningHashTableBucket s !! x)) ∧
  (∀ key, key ≠ GetKey e → Find key s' = Find key s) ∧
  (∀ x, x ≠ e → Find (GetKey e) s = Some x → Find (GetKey e) s' = Some x) ∧
  ((∀ x, is_Some (owningHashTableBucket s !! x) → GetKey x = GetKey e → x = e) →
   Find (GetKey e) s' = Some e).
Proof.
  intros Hn s s'. pose proof (run_inv GetKey Hash ops n d Hn) as Hinv.
  fold s in Hinv. pose proof (Insert_inv GetKey Hash e s _ Hinv) as (Hwf' & _ & Hord').
  fold s' in Hwf', Hord'. destruct Hinv as (Hwf & _ & Hord).
  set (log := insertionOrder ops) in *.
  split_and!.
  - intros x. rewrite <- (ordered_attached GetKey Hash s' _ x Hwf' Hord').
    rewrite <- (ordered_attached GetKey Hash s log x Hwf Hord).
    rewrite elem_of_app, elem_of_unlink, list_elem_of_singleton.
    destruct (decide (x = e)); tauto.
  - intros key Hne. rewrite (Find_head _ _ _ _ _ Hord'), (Find_head _ _ _ _ _ Hord).
    rewrite filter_app, filter_cons_False, filter_nil, app_nil_r by congruence.
    f_equal. apply unlink_filter_out. congruence.
  - intros x Hne. rewrite (Find_head _ _ _ _ _ Hord'), (Find_head _ _ _ _ _ Hord).
    rewrite filter_app. by apply head_filter_unlink.
  - intros Honly. rewrite (Find_head _ _ _ _ _ Hord').
    rewrite filter_app, filter_cons_True, filter_nil by done.
    rewrite (filter_none_elem (λ x, GetKey x = GetKey e) (unlink e log)); [done|].
    intros x [Hin Hne]%elem_of_unlink Hk. apply Hne, Honly; [|done].
    by apply (ordered_attached GetKey Hash s log).
Qed.

(** *** Emptying the table *)

Lemma hashValue_RemoveAll_fold s (bs : list nat) :
  hashValue (foldl (λ acc a, RemoveAllBucketElements a acc) s bs) = hashValue s.
Proof.
  revert s. induction bs as [|a bs IH]; intros s; [done|].
  change (foldl _ s (a :: bs))
    with (foldl (λ acc a, RemoveAllBucketElements a acc) (RemoveAllBucketElements a s) bs).
  by rewrite IH.
Qed.

Lemma wf_all_empty s e :
  wf s → (∀ b, chain s b = []) → owningHashTableBucket s !! e = None.
Proof.
  intros Hwf Hch. destruct (owningHashTableBucket s !! e) as [b|] eqn:Ho; [|done].
  apply (wf_owner _ _ _ Hwf) in Ho. rewrite Hch in Ho. by apply elem_of_nil in Ho.
Qed.

(** X8.  [RemoveAllHashTableElements] empties every bucket, clears every
    back reference and sets the count to zero; the bucket count and the
    resize limit stay, and every lookup misses.  No element is destroyed:
    the cached hashes are what they were. *)
Theorem remove_all_detaches_everything n d ops :
  isPowerOfTwo n →
  let s := run ops (HashTableBase n d) in
  let s' := RemoveAllHashTableElements s in
  elementCount s' = 0%Z ∧ (∀ b, chain s' b = []) ∧
  (∀ e, owningHashTableBucket s' !! e = None) ∧
  (∀ key, Find key s' = None) ∧
  hashValue s' = hashValue s ∧
  bucketCount s' = bucketCount s ∧ resizeLimit s' = resizeLimit s.
Proof.
  intros Hn s s'. destruct (run_inv GetKey Hash ops n d Hn) as (Hwf & _ & _).
  fold s in Hwf.
  pose proof (emptied_inv GetKey Hash _ s (empties_RemoveAllBucketElements GetKey Hash) Hwf)
    as Hem. cbv zeta in Hem. destruct Hem as ((Hwf' & _ & Hord') & Hbc & Hrl & Hch).
  split_and!; try done.
  - intros e. by apply (wf_all_empty _ e Hwf').
  - intros key. by rewrite (Find_head _ _ _ _ _ Hord').
  - apply hashValue_RemoveAll_fold.
Qed.

(** What purging has done to the elements so far: those that were not
    attached before are untouched, and the attached ones are still
    attached or have been destroyed. *)
Abbreviation purged := (λ s0 cur,
  ∀ e, (owningHashTableBucket s0 !! e = None →
        owningHashTableBucket cur !! e = None ∧ hashValue cur !! e = hashValue s0 !! e) ∧
       (is_Some (owningHashTableBucket s0 !! e) →
        is_Some (owningHashTableBucket cur !! e) ∨ hashValue cur !! e = None)).

Lemma purged_delete_element s0 cur x :
  purged s0 cur → is_Some (owningHashTableBucket cur !! x) →
  purged s0 (delete_element x cur).
Proof.
  intros HR [b Hb] e. destruct (HR e) as [Hun Hat].
  unfold delete_element. rewrite Hb. simpl.
  destruct (decide (e = x)) as [->|Hne].
  - rewrite !lookup_delete_eq. split.
    + intros Ho. destruct (Hun Ho) as [Hc _]. congruence.
    + by right.
  - by rewrite !lookup_delete_ne.
Qed.

Lemma purged_PurgeBucket_loop fuel b s0 cur :
  wf cur → purged s0 cur →
  wf (PurgeBucket_loop fuel b cur) ∧ purged s0 (PurgeBucket_loop fuel b cur).
Proof.
  revert cur. induction fuel as [|fuel IH]; intros cur Hwf HR; [done|].
  simpl. destruct (chain cur b) as [|first rest] eqn:Hch; [done|].
  apply IH.
  - by apply wf_delete_element.
  - apply purged_delete_element; [done|]. exists b.
    apply (wf_owner _ _ _ Hwf). rewrite Hch. left.
Qed.

Lemma purged_fold (bs : list nat) s0 cur :
  wf cur → purged s0 cur →
  purged s0 (foldl (λ acc a, PurgeBucket a acc) cur bs).
Proof.
  revert cur. induction bs as [|a bs IH]; intros cur Hwf HR; [done|].
  change (foldl _ cur (a :: bs))
    with (foldl (λ acc a, PurgeBucket a acc) (PurgeBucket a cur) bs).
  destruct (purged_PurgeBucket_loop (length (chain cur a)) a s0 cur Hwf HR).
  by apply IH.
Qed.

(** X9.  [PurgeHashTable] empties every bucket and sets the count to zero
    like [RemoveAllHashTableElements], and destroys exactly the elements
    that were attached: their cached hashes are gone with them, those of the
    other elements are untouched. *)
Theorem purge_destroys_members n d ops :
  isPowerOfTwo n →
  let s := run ops (HashTableBase n d) in
  let s' := PurgeHashTable s in
  elementCount s' = 0%Z ∧ (∀ b, chain s' b = []) ∧
  (∀ e, owningHashTableBucket s' !! e = None) ∧
  (∀ key, Find key s' = None) ∧
  (∀ e, hashValue s' !! e =
        if owningHashTableBucket s !! e is Some _ then None else hashValue s !! e) ∧
  bucketCount s' = bucketCount s ∧ resizeLimit s' = resizeLimit s.
Proof.
  intros Hn s s'. destruct (run_inv GetKey Hash ops n d Hn) as (Hwf & _ & _).
  fold s in Hwf.
  pose proof (emptied_inv GetKey Hash _ s (empties_PurgeBucket GetKey Hash) Hwf)
    as Hem. cbv zeta in Hem. destruct Hem as ((Hwf' & _ & Hord') & Hbc & Hrl & Hch).
  assert (∀ e, owningHashTableBucket s' !! e = None) as Hnone
    by (intros e; by apply (wf_all_empty _ e Hwf')).
  split_and!; try done.
  - intros key. by rewrite (Find_head _ _ _ _ _ Hord').
  - intros e.
    assert (purged s s) as HR0 by (intros e'; split; [done|by left]).
    destruct (purged_fold (downward (bucketCount s)) s s Hwf HR0 e) as [Hun Hat].
    destruct (owningHashTableBucket s !! e) as [b|] eqn:Ho.
    + destruct Hat as [[b' Hb']|Hgone]; [by eexists| |done].
      specialize (Hnone e). unfold s', PurgeHashTable in Hnone. simpl in Hnone. congruence.
    + by destruct Hun.
Qed.

(** *** The load of the table *)

Lemma Resize_bucketCount s :
  bucketCount (ResizeBucketTable s) = (bucketCount s * 2)%Z.
Proof. done. Qed.

Lemma Resize_resizeLimit s :
  resizeLimit (ResizeBucketTable s) = int32 (resizeLimit s * 2).
Proof. done. Qed.

Lemma exec_bucketCount o s :
  wf s →
  bucketCount (exec o s) = bucketCount s ∨
  bucketCount (exec o s) = (bucketCount s * 2)%Z.
Proof.
  intros Hwf. destruct o as [e|e| | | |e|e]; cbv beta iota delta [Hash.exec].
  - rewrite InsertHashTableElement_eq. cbn [bucketCount].
    unfold InsertHashTableElement_detach.
    destruct (owningHashTableBucket s !! e) as [b|]; [by left|].
    case_decide; [by right|by left].
  - left. unfold RemoveHashTableElement.
    by destruct (owningHashTableBucket s !! e) as [b|].
  - left.
    pose proof (emptied_inv GetKey Hash _ s (empties_RemoveAllBucketElements GetKey Hash) Hwf)
      as Hem. cbv zeta in Hem. by destruct Hem as (_ & Hbc' & _).
  - left.
    pose proof (emptied_inv GetKey Hash _ s (empties_PurgeBucket GetKey Hash) Hwf)
      as Hem. cbv zeta in Hem. by destruct Hem as (_ & Hbc' & _).
  - by right.
  - left. unfold delete_element.
    by destruct (owningHashTableBucket s !! e) as [b|].
  - left. rewrite InsertHashTableElement_attached_eq. cbn [bucketCount].
    unfold RemoveHashTableElement.
    by destruct (owningHashTableBucket s !! e) as [b|].
Qed.

Lemma exec_load d o s log :
  (1 ≤ d)%Z → inv log s → (∀ e, o ≠ OpInsertAttached e) →
  (bucketCount (exec o s) * d < 2 ^ 31)%Z →
  resizeLimit s = (bucketCount s * d)%Z →
  (elementCount s ≤ resizeLimit s)%Z →
  resizeLimit (exec o s) = (bucketCount (exec o s) * d)%Z ∧
  (elementCount (exec o s) ≤ resizeLimit (exec o s))%Z.
Proof.
  intros Hd (Hwf & Hc & Hord) Hown Hfit Hrl Hle.
  pose proof (isPowerOfTwo_pos _ (wf_pow2 _ _ _ Hwf)) as Hbc.
  destruct o as [e|e| | | |e|e]; cbv beta iota delta [Hash.exec] in Hfit |- *.
  - rewrite InsertHashTableElement_eq in Hfit |- *.
    cbn [bucketCount resizeLimit elementCount] in Hfit |- *.
    unfold InsertHashTableElement_detach in Hfit |- *.
    destruct (owningHashTableBucket s !! e) as [b|]; [simpl; lia|].
    case_decide; [|lia].
    rewrite Resize_bucketCount in Hfit.
    rewrite (Resize_elementCount GetKey Hash s Hwf Hc), Resize_bucketCount,
      Resize_resizeLimit.
    rewrite int32_id by nia. nia.
  - unfold RemoveHashTableElement.
    destruct (owningHashTableBucket s !! e) as [b|]; simpl; lia.
  - pose proof (emptied_inv GetKey Hash _ s (empties_RemoveAllBucketElements GetKey Hash) Hwf)
      as Hem. cbv zeta in Hem. destruct Hem as (_ & Hbc' & Hrl' & _).
    unfold RemoveAllHashTableElements. simpl. rewrite Hbc', Hrl'. nia.
  - pose proof (emptied_inv GetKey Hash _ s (empties_PurgeBucket GetKey Hash) Hwf)
      as Hem. cbv zeta in Hem. destruct Hem as (_ & Hbc' & Hrl' & _).
    unfold PurgeHashTable. simpl. rewrite Hbc', Hrl'. nia.
  - rewrite Resize_bucketCount in Hfit.
    rewrite (Resize_elementCount GetKey Hash s Hwf Hc), Resize_bucketCount,
      Resize_resizeLimit.
    rewrite int32_id by nia. nia.
  - unfold delete_element.
    destruct (owningHashTableBucket s !! e) as [b|]; simpl; lia.
  - by destruct (Hown e).
Qed.

Lemma run_load n d ops :
  isPowerOfTwo n → (1 ≤ d)%Z → (∀ e, OpInsertAttached e ∉ ops) →
  (bucketCount (run ops (HashTableBase n d)) * d < 2 ^ 31)%Z →
  resizeLimit (run ops (HashTableBase n d))
  = (bucketCount (run ops (HashTableBase n d)) * d)%Z ∧
  (elementCount (run ops (HashTableBase n d)) ≤ resizeLimit (run ops (HashTableBase n d)))%Z.
Proof.
  intros Hn Hd. induction ops as [|o ops IH] using rev_ind; intros Hown Hfit.
  - simpl in *. pose proof (isPowerOfTwo_pos n Hn).
    rewrite int32_id by nia. split; [done|nia].
  - rewrite run_snoc in Hfit |- *.
    pose proof (run_inv GetKey Hash ops n d Hn) as Hinv.
    pose proof (isPowerOfTwo_pos _ (wf_pow2 _ _ _ (proj1 Hinv))) as Hbc.
    destruct IH as (Hrl & Hle).
    { intros e He. apply (Hown e), elem_of_app. by left. }
    { destruct (exec_bucketCount o _ (proj1 Hinv)) as [Hsame|Hdouble]; nia. }
    apply (exec_load d o _ _ Hd Hinv); try done.
    intros e ->. apply (Hown e), elem_of_app. right. left.
Qed.

(** X11.  For a table built with [maxAverageDepth] at least one, whose
    client inserts elements that are unattached or attached to this table
    and takes none over from another table: in every state the client can
    reach in which [GetBucketCount] times [maxAverageDepth] is below 2^31,
    so that no limit has left the range of [int32],
    [GetHashTableElementCount] is at most that product, which is the resize
    limit.  The average chain is then never longer than [maxAverageDepth]. *)
Theorem load_never_exceeds_limit n d ops :
  isPowerOfTwo n → (1 ≤ d)%Z →
  (∀ e, OpInsertAttached e ∉ ops) →
  let s := run ops (HashTableBase n d) in
  (GetBucketCount s * d < 2 ^ 31)%Z →
  (GetHashTableElementCount s ≤ GetBucketCount s * d)%Z ∧
  resizeLimit s = (GetBucketCount s * d)%Z ∧
  (0 < GetBucketCount s)%Z.
Proof.
  intros Hn Hd Hown s. unfold GetHashTableElementCount, GetBucketCount. intros Hfit.
  destruct (run_load n d ops Hn Hd Hown Hfit) as (Hrl & Hle). fold s in Hle, Hrl.
  destruct (run_inv GetKey Hash ops n d Hn) as (Hwf & _ & _). fold s in Hwf.
  pose proof (isPowerOfTwo_pos _ (wf_pow2 _ _ _ Hwf)).
  split_and!; [lia|done|done].
Qed.

(** X12.  For a table built with [maxAverageDepth] zero or negative every
    insertion of an unattached element resizes, as long as the bucket count
    and the limit stay in the range of [int32]: after the insertion of [k]
    distinct elements into a new table of [n] buckets, with [n * 2^k] below
    2^31 and [n * 2^k * maxAverageDepth] not below -2^31, [GetBucketCount]
    returns [n * 2^k] and [GetHashTableElementCount] returns [k], which is
    not below the resize limit. *)
Theorem nonpositive_depth_doubles_every_time n d es :
  isPowerOfTwo n → (d ≤ 0)%Z → NoDup es →
  (n * 2 ^ Z.of_nat (length es) < 2 ^ 31)%Z →
  (- 2 ^ 31 ≤ n * 2 ^ Z.of_nat (length es) * d)%Z →
  let s := run (OpInsert <$> es) (HashTableBase n d) in
  GetBucketCount s = (n * 2 ^ Z.of_nat (length es))%Z ∧
  GetHashTableElementCount s = Z.of_nat (length es) ∧
  (resizeLimit s ≤ GetHashTableElementCount s)%Z.
Proof.
  intros Hn Hd. cbv zeta. unfold GetBucketCount, GetHashTableElementCount.
  pose proof (isPowerOfTwo_pos n Hn) as Hnpos.
  assert (NoDup es →
          (- 2 ^ 31 ≤ n * 2 ^ Z.of_nat (length es) * d)%Z →
          bucketCount (run (OpInsert <$> es) (HashTableBase n d))
          = (n * 2 ^ Z.of_nat (length es))%Z ∧
          resizeLimit (run (OpInsert <$> es) (HashTableBase n d))
          = (bucketCount (run (OpInsert <$> es) (HashTableBase n d)) * d)%Z ∧
          elementCount (run (OpInsert <$> es) (HashTableBase n d))
          = Z.of_nat (length es) ∧
          insertionOrder (OpInsert <$> es) = es) as Hgen.
  { induction es as [|e es IH] using rev_ind; intros Hnd Hfit.
    - simpl in *. rewrite int32_id by nia. split_and!; try done. lia.
    - apply NoDup_app in Hnd as (Hnd & Hfresh & _).
      rewrite length_app, Nat2Z.inj_add, Z.pow_add_r in Hfit by lia. simpl length in Hfit.
      pose proof (Z.pow_pos_nonneg 2 (Z.of_nat (length es))) as Hpow.
      destruct (IH Hnd) as (Hbc & Hrl & Hec & Hlog); [nia|].
      rewrite fmap_app. simpl. rewrite run_snoc, insertionOrder_snoc. simpl.
      pose proof (run_inv GetKey Hash (OpInsert <$> es) n d Hn) as (Hwf & Hc & Hord).
      set (s := run (OpInsert <$> es) (HashTableBase n d)) in *.
      rewrite Hlog in Hord |- *.
      assert (owningHashTableBucket s !! e = None) as Hun.
      { destruct (owningHashTableBucket s !! e) eqn:Ho; [|done].
        exfalso. apply (Hfresh e); [|left].
        apply (ordered_attached GetKey Hash s es e Hwf Hord). by eexists. }
      pose proof (isPowerOfTwo_pos _ (wf_pow2 _ _ _ Hwf)) as Hpos.
      rewrite InsertHashTableElement_eq. cbn [bucketCount resizeLimit elementCount].
      unfold InsertHashTableElement_detach. rewrite Hun.
      rewrite decide_True by nia.
      rewrite (Resize_elementCount GetKey Hash s Hwf Hc), Resize_bucketCount,
        Resize_resizeLimit.
      rewrite int32_id by (rewrite Hrl, Hbc; nia).
      rewrite length_app, Nat2Z.inj_add, Z.pow_add_r by lia. simpl length.
      split_and!; [rewrite Hbc; simpl; lia|lia|lia|].
      by rewrite unlink_absent by (intros ?; by apply (Hfresh e); [|left]). }
  intros Hnd _ Hfit. destruct (Hgen Hnd Hfit) as (Hbc & Hrl & Hec & _).
  split_and!; [done|done|]. rewrite Hrl, Hec.
  destruct (run_inv GetKey Hash (OpInsert <$> es) n d Hn) as (Hwf & _ & _).
  pose proof (isPowerOfTwo_pos _ (wf_pow2 _ _ _ Hwf)). nia.
Qed.

(** *** Bucket routing and the resize *)

Lemma bucketIndex_mod h n :
  isPowerOfTwo n → Z.of_nat (bucketIndex h n) = (h mod n)%Z.
Proof.
  intros [k ->]. unfold bucketIndex.
  replace (2 ^ Z.of_nat k - 1)%Z with (Z.ones (Z.of_nat k))
    by (rewrite Z.ones_equiv; lia).
  rewrite Z.land_ones by lia. rewrite Z2Nat.id; [done|].
  apply Z.mod_pos_bound. lia.
Qed.

Lemma bucketIndex_double h n :
  isPowerOfTwo n →
  bucketIndex h (n * 2) = bucketIndex h n ∨
  bucketIndex h (n * 2) = (bucketIndex h n + Z.to_nat n)%nat.
Proof.
  intros Hn. pose proof (isPowerOfTwo_pos n Hn) as Hpos.
  pose proof (bucketIndex_mod h n Hn) as H1.
  pose proof (bucketIndex_mod h (n * 2) (isPowerOfTwo_double n Hn)) as H2.
  rewrite Z.rem_mul_r in H2 by lia.
  pose proof (Z.mod_pos_bound (h / n) 2 ltac:(lia)) as Hbit.
  destruct (decide ((h / n) mod 2 = 0)%Z) as [H0|H0]; [left|right]; nia.
Qed.

Lemma attached_bucketIndex s e b :
  wf s → e ∈ chain s b →
  b = bucketIndex (keyHash e) (bucketCount s) ∧
  hashValue s !! e = Some (keyHash e) ∧
  (b < Z.to_nat (bucketCount s))%nat.
Proof.
  intros Hwf Hin. apply (wf_owner _ _ _ Hwf) in Hin.
  destruct (wf_hash _ _ _ Hwf e b Hin) as [Hhv Hb]. split_and!; [done|done|].
  rewrite <- (wf_len _ _ _ Hwf). by eapply wf_owner_lt.
Qed.

(** X13.  In every state a client program can reach, an element in the chain
    of bucket [b] is in no other chain, [b] is the hash of its key modulo
    the bucket count, and the hash cached in the element is the hash of its
    key. *)
Theorem bucket_is_hash_modulo_count n d ops e b :
  isPowerOfTwo n →
  let s := run ops (HashTableBase n d) in
  e ∈ chain s b →
  Z.of_nat b = (keyHash e mod bucketCount s)%Z ∧
  (Z.of_nat b < bucketCount s)%Z ∧
  hashValue s !! e = Some (keyHash e) ∧
  ∀ b', e ∈ chain s b' → b' = b.
Proof.
  intros Hn s Hin. destruct (run_inv GetKey Hash ops n d Hn) as (Hwf & _ & _).
  fold s in Hwf. destruct (attached_bucketIndex s e b Hwf Hin) as (Hb & Hhv & Hlt).
  pose proof (bucketIndex_mod (keyHash e) _ (wf_pow2 _ _ _ Hwf)) as Hmod.
  split_and!; [by rewrite Hb|lia|done|].
  intros b' Hin'. apply (wf_owner _ _ _ Hwf) in Hin, Hin'. congruence.
Qed.

(** X14.  [ResizeBucketTable] splits every bucket in two: the members of old
    bucket [b] go to new bucket [b] or to new bucket [b + count], in the
    order they had, and a new bucket gets members of one old bucket only, so
    the order in which the old buckets are walked does not show.  The same
    elements are attached afterwards, every lookup returns what it returned
    before, and no hash is computed again. *)
Theorem resize_splits_each_bucket n d ops :
  isPowerOfTwo n →
  let s := run ops (HashTableBase n d) in
  let s' := ResizeBucketTable s in
  let count := Z.to_nat (bucketCount s) in
  (∀ b, (b < count)%nat →
     chain s' b
     = filter (λ e, bucketIndex (keyHash e) (bucketCount s') = b) (chain s b) ∧
     chain s' (b + count)
     = filter (λ e, bucketIndex (keyHash e) (bucketCount s') = (b + count)%nat)
              (chain s b) ∧
     ∀ e, e ∈ chain s b →
          bucketIndex (keyHash e) (bucketCount s') = b ∨
          bucketIndex (keyHash e) (bucketCount s') = (b + count)%nat) ∧
  (∀ e, is_Some (owningHashTableBucket s' !! e) ↔
        is_Some (owningHashTableBucket s !! e)) ∧
  (∀ key, Find key s' = Find key s) ∧
  hashValue s' = hashValue s.
Proof.
  intros Hn s s' count.
  set (goes := λ (b' : nat) e, bucketIndex (keyHash e) (bucketCount s') = b').
  destruct (run_inv GetKey Hash ops n d Hn) as (Hwf & Hc & Hord). fold s in Hwf, Hc, Hord.
  pose proof (wf_pow2 _ _ _ Hwf) as Hpow.
  pose proof (isPowerOfTwo_pos _ Hpow) as Hpos.
  assert (∀ i e, e ∈ chain s i →
            (i < count)%nat ∧
            bucketIndex (cachedHash s e) (bucketCount s * 2)
            = bucketIndex (keyHash e) (bucketCount s * 2) ∧
            (goes i e ∨ goes (i + count)%nat e)) as Hgo.
  { intros i e Hin. destruct (attached_bucketIndex s e i Hwf Hin) as (Hi & Hhv & Hlt).
    split_and!; [done| |].
    - unfold cachedHash. by rewrite Hhv.
    - unfold goes. change (bucketCount s') with (bucketCount s * 2)%Z.
      destruct (bucketIndex_double (keyHash e) _ Hpow) as [Hd|Hd];
        rewrite <- Hi in Hd; [by left|by right]. }
  assert (∀ b b', (b < count)%nat → b' = b ∨ b' = (b + count)%nat →
            chain s' b'
            = filter (λ e, bucketIndex (keyHash e) (bucketCount s') = b') (chain s b))
    as Hsplit.
  { intros b b' Hb Hb'. unfold s'. rewrite (Resize_chain GetKey Hash s Hwf b').
    rewrite decide_True by (unfold count in *; lia).
    rewrite (visitOrder_reverse s (wf_len _ _ _ Hwf)).
    assert (b < length (bucketTable s))%nat as Hlen
      by (rewrite (wf_len _ _ _ Hwf); exact Hb).
    rewrite (filter_concat_reverse_single _ _ b (chain s b)).
    - apply filter_iff_in. intros e Hin. destruct (Hgo b e Hin) as (_ & -> & _). done.
    - by apply lookup_chain.
    - intros i l' Hne Hl'. apply filter_none_elem. intros e Hin.
      rewrite <- (chain_lookup s i l' Hl') in Hin.
      destruct (Hgo i e Hin) as (Hi & -> & Hor).
      unfold goes in Hor. change (bucketCount s') with (bucketCount s * 2)%Z in Hor.
      lia. }
  split_and!.
  - intros b Hb. split_and!.
    + apply (Hsplit b b Hb). by left.
    + apply (Hsplit b _ Hb). by right.
    + intros e Hin. by destruct (Hgo b e Hin) as (_ & _ & ?).
  - intros e. unfold s'. rewrite (Resize_owner GetKey Hash s Hwf e). apply fmap_is_Some.
  - intros key.
    pose proof (ordered_ResizeBucketTable GetKey Hash s Hwf _ Hord) as Hord'.
    by rewrite (Find_head _ _ _ _ _ Hord'), (Find_head _ _ _ _ _ Hord).
  - unfold s'. by rewrite ResizeBucketTable_eq.
Qed.

(** *** Walking the chains *)

Lemma GetNextBucketElement_chain s e b :
  wf s → e ∈ chain s b →
  GetNextBucketElement e s = head (successors e (chain s b)).
Proof.
  intros Hwf Hin. apply (wf_owner _ _ _ Hwf) in Hin.
  unfold GetNextBucketElement. by rewrite Hin.
Qed.

Lemma GetPreviousBucketElement_chain s e b :
  wf s → e ∈ chain s b →
  GetPreviousBucketElement e s = head (successors e (reverse (chain s b))).
Proof.
  intros Hwf Hin. apply (wf_owner _ _ _ Hwf) in Hin.
  unfold GetPreviousBucketElement. by rewrite Hin.
Qed.

Lemma lookup_le_sum_list (ns : list nat) i k :
  ns !! i = Some k → k ≤ sum_list ns.
Proof.
  revert i. induction ns as [|m ns IH]; intros [|i] Hi; simplify_eq/=; [lia|].
  specialize (IH i Hi). lia.
Qed.

Lemma length_chain_le_count s b :
  counted s → length (chain s b) ≤ Z.to_nat (elementCount s).
Proof.
  intros Hc. rewrite Hc, Nat2Z.id. unfold chain, bucketSizes.
  destruct (bucketTable s !! b) as [l|] eqn:Hl; simpl; [|lia].
  apply (lookup_le_sum_list _ b). by rewrite list_lookup_fmap, Hl.
Qed.

Lemma NoDup_attach o log : NoDup log → NoDup (attach o log).
Proof.
  intros Hnd.
  assert (∀ e, NoDup (unlink e log ++ [e])) as Hlast.
  { intros e. apply NoDup_app. split_and!.
    - by apply NoDup_unlink.
    - intros x [_ Hne]%elem_of_unlink ->%list_elem_of_singleton. done.
    - apply NoDup_singleton. }
  destruct o as [e|e| | | |e|e]; simpl; try done;
    try (by apply NoDup_unlink); constructor.
Qed.

Lemma NoDup_insertionOrder ops : NoDup (insertionOrder ops).
Proof.
  induction ops as [|o ops IH] using rev_ind; [constructor|].
  rewrite insertionOrder_snoc. by apply NoDup_attach.
Qed.

(** X15.  Walking bucket [index] from [GetFirstBucketElement] along
    [GetNextBucketElement] yields its chain, and walking it from
    [GetLastBucketElement] along [GetPreviousBucketElement] yields the chain
    reversed, either within [GetHashTableElementCount] steps.  All chains
    together hold the attached elements, each once. *)
Theorem bucket_walks n d ops index :
  isPowerOfTwo n →
  let s := run ops (HashTableBase n d) in
  let fuel := Z.to_nat (GetHashTableElementCount s) in
  follow (λ e, GetNextBucketElement e s) (λ _, true) fuel
         (GetFirstBucketElement index s)
  = chain s index ∧
  follow (λ e, GetPreviousBucketElement e s) (λ _, true) fuel
         (GetLastBucketElement index s)
  = reverse (chain s index) ∧
  concat (bucketTable s) ≡ₚ insertionOrder ops.
Proof.
  intros Hn s fuel. destruct (run_inv GetKey Hash ops n d Hn) as (Hwf & Hc & Hord).
  fold s in Hwf, Hc, Hord.
  pose proof (wf_chain_NoDup GetKey Hash s index Hwf) as Hnd.
  pose proof (length_chain_le_count s index Hc) as Hlen.
  split_and!.
  - apply follow_all; [done| |done].
    intros x Hx. by apply GetNextBucketElement_chain.
  - unfold GetLastBucketElement. rewrite <- head_reverse.
    apply follow_all; [by rewrite reverse_Permutation| |by rewrite length_reverse].
    intros x Hx. apply GetPreviousBucketElement_chain; [done|].
    by apply elem_of_reverse.
  - apply NoDup_Permutation.
    + apply (wf_nodup _ _ _ Hwf).
    + apply NoDup_insertionOrder.
    + intros x. rewrite (ordered_attached GetKey Hash s _ x Hwf Hord). split.
      * intros [b Hb]%elem_of_concat_chain. exists b. by apply (wf_owner _ _ _ Hwf).
      * intros [b Hb]. apply (wf_owner _ _ _ Hwf) in Hb.
        by eapply elem_of_chain_concat.
Qed.

(** A chain whose members are grouped holds the members with a given
    key as one run. *)
Lemma grouped_run_tail key x l :
  Hash.grouped GetKey (x :: l) → GetKey x = key →
  ∃ l2, l = filter (λ y, GetKey y = key) l ++ l2 ∧
        Forall (λ y, GetKey y ≠ key) l2.
Proof.
  revert x. induction l as [|y l IH]; intros x Hg Hx.
  - exists []. by split.
  - destruct Hg as [Hg [(z & Hz & Hk)|Hnone]].
    + simpl in Hz. injection Hz as <-.
      destruct (IH y Hg) as (l2 & Hl & Hl2); [congruence|].
      exists l2. split; [|done].
      rewrite filter_cons_True by congruence. simpl. by rewrite <- Hl.
    + exists (y :: l). split; [|by rewrite <- Hx].
      rewrite (filter_none_elem (λ y, GetKey y = key) (y :: l)); [done|].
      intros z Hz. rewrite Forall_forall in Hnone. rewrite <- Hx. by apply Hnone.
Qed.

Lemma grouped_run key l :
  Hash.grouped GetKey l →
  ∃ l1 l2, l = l1 ++ filter (λ y, GetKey y = key) l ++ l2 ∧
           Forall (λ y, GetKey y ≠ key) l1 ∧ Forall (λ y, GetKey y ≠ key) l2.
Proof.
  induction l as [|x l IH]; intros Hg.
  - exists [], []. by split_and!.
  - destruct (decide (GetKey x = key)) as [Hx|Hx].
    + destruct (grouped_run_tail key x l Hg Hx) as (l2 & Hl & Hl2).
      exists [], l2. split_and!; [|done|done].
      rewrite filter_cons_True by done. simpl. by rewrite <- Hl.
    + destruct Hg as [Hg _]. destruct (IH Hg) as (l1 & l2 & Hl & Hl1 & Hl2).
      exists (x :: l1), l2. split_and!; [|by constructor|done].
      rewrite filter_cons_False by done. simpl. by rewrite <- Hl.
Qed.

(** X5.  The elements with a given key are reached from the one
    [FindHashTableElement] returns by following [GetNextBucketElement] for
    as long as the key matches: the walk yields all attached elements with
    that key, in the order of their insertion. *)
Theorem duplicates_follow_the_first n d ops key fuel :
  isPowerOfTwo n →
  let s := run ops (HashTableBase n d) in
  length (filter (λ x, GetKey x = key) (insertionOrder ops)) ≤ fuel →
  follow (λ e, GetNextBucketElement e s) (λ e, bool_decide (GetKey e = key)) fuel
         (Find key s)
  = filter (λ x, GetKey x = key) (insertionOrder ops).
Proof.
  intros Hn s Hfuel. destruct (run_inv GetKey Hash ops n d Hn) as (Hwf & Hc & Hord).
  fold s in Hwf, Hc, Hord.
  set (b := GetBucket (uint32 (Hash key)) s).
  pose proof (run_allGrouped GetKey Hash ops n d Hn b) as Hg. fold s in Hg.
  destruct (grouped_run key _ Hg) as (l1 & l2 & Hl & Hl1 & Hl2).
  rewrite <- (Hord key) in Hfuel |- *. fold b in Hfuel |- *.
  set (found := filter (λ x, GetKey x = key) (chain s b)) in *.
  assert (Find key s = head (found ++ l2) ∨ (Find key s = None ∧ found = [])) as [->| [-> ->]].
  { unfold FindHashTableElement. fold b. rewrite scan_head. fold found.
    destruct found as [|x found']; [by right|by left]. }
  - apply (follow_run _ _ fuel (chain s b) l1 found l2); try done.
    + by apply (wf_chain_NoDup GetKey Hash).
    + intros x Hx. by apply GetNextBucketElement_chain.
    + apply Forall_forall. intros x [Hk _]%list_elem_of_filter. by apply bool_decide_eq_true.
    + intros y Hy. apply bool_decide_eq_false. rewrite Forall_forall in Hl2.
      apply Hl2. by apply head_Some_elem_of.
  - by destruct fuel.
Qed.

(** *** Destruction *)

(** X7.  Destroying an element does to the table what
    [RemoveHashTableElement] does: the chains, the back references and the
    count are the same.  No chain holds the destroyed element afterwards and
    no lookup returns it. *)
Theorem destroyed_element_leaves_table n d ops e :
  isPowerOfTwo n →
  let s := run ops (HashTableBase n d) in
  let s' := delete_element e s in
  bucketTable s' = bucketTable (RemoveHashTableElement e s) ∧
  owningHashTableBucket s' = owningHashTableBucket (RemoveHashTableElement e s) ∧
  elementCount s' = elementCount (RemoveHashTableElement e s) ∧
  (∀ b, e ∉ chain s' b) ∧
  (∀ key, Find key s' ≠ Some e) ∧
  hashValue s' !! e = None.
Proof.
  intros Hn s s'. pose proof (run_inv GetKey Hash ops n d Hn) as Hinv. fold s in Hinv.
  pose proof (exec_inv GetKey Hash (OpDelete e) s _ Hinv) as (Hwf' & _ & Hord').
  simpl in Hwf', Hord'. fold s' in Hwf', Hord'.
  assert (owningHashTableBucket s' !! e = None) as He.
  { unfold s', delete_element.
    destruct (owningHashTableBucket s !! e) as [b|] eqn:Ho; simpl; [|done].
    apply lookup_delete_eq. }
  split_and!.
  - unfold s', delete_element, RemoveHashTableElement.
    by destruct (owningHashTableBucket s !! e).
  - unfold s', delete_element, RemoveHashTableElement.
    by destruct (owningHashTableBucket s !! e).
  - unfold s', delete_element, RemoveHashTableElement.
    by destruct (owningHashTableBucket s !! e).
  - intros b. by apply wf_unattached_chain.
  - intros key Hfind. unfold FindHashTableElement in Hfind. rewrite scan_head in Hfind.
    apply head_Some_elem_of, list_elem_of_filter in Hfind as [_ Hin].
    by apply (wf_unattached_chain s' e _ Hwf' He) in Hin.
  - unfold s', delete_element. simpl. apply lookup_delete_eq.
Qed.

Lemma destructor_nothing_attached (bs : list nat) s :
  (∀ b, chain s b = []) → foldl (λ acc a, PurgeBucket a acc) s bs = s.
Proof.
  intros Hch. induction bs as [|a bs IH]; [done|].
  change (foldl _ s (a :: bs))
    with (foldl (λ acc a, PurgeBucket a acc) (PurgeBucket a s) bs).
  unfold PurgeBucket at 2. rewrite Hch. simpl. apply IH.
Qed.

(** X10.  [~HashTableBase] destroys exactly the elements that are attached
    to the table.  After [RemoveAllHashTableElements] it finds nothing to
    destroy: the state it leaves is the state it found, with every element
    alive. *)
Theorem table_destruction_destroys_members n d ops :
  isPowerOfTwo n →
  let s := run ops (HashTableBase n d) in
  (∀ e, hashValue (HashTableBase_destructor s) !! e =
        if owningHashTableBucket s !! e is Some _ then None else hashValue s !! e) ∧
  HashTableBase_destructor (RemoveAllHashTableElements s) = RemoveAllHashTableElements s ∧
  hashValue (HashTableBase_destructor (RemoveAllHashTableElements s)) = hashValue s.
Proof.
  intros Hn s. destruct (run_inv GetKey Hash ops n d Hn) as (Hwf & _ & _). fold s in Hwf.
  assert (HashTableBase_destructor (RemoveAllHashTableElements s)
          = RemoveAllHashTableElements s) as Hidle.
  { pose proof (emptied_inv GetKey Hash _ s (empties_RemoveAllBucketElements GetKey Hash) Hwf)
      as Hem. cbv zeta in Hem. destruct Hem as (_ & _ & _ & Hch).
    apply destructor_nothing_attached. intros b. apply Hch. }
  split_and!; [|done|].
  - intros e.
    pose proof (emptied_inv GetKey Hash _ s (empties_PurgeBucket GetKey Hash) Hwf) as Hem.
    cbv zeta in Hem. destruct Hem as ((Hwf' & _ & _) & _ & _ & Hch).
    assert (purged s s) as HR0 by (intros e'; split; [done|by left]).
    destruct (purged_fold (downward (bucketCount s)) s s Hwf HR0 e) as [Hun Hat].
    unfold HashTableBase_destructor.
    destruct (owningHashTableBucket s !! e) as [b|] eqn:Ho.
    + destruct Hat as [[b' Hb']|Hgone]; [by eexists| |done].
      pose proof (wf_all_empty _ e Hwf' Hch) as Hnone. simpl in Hnone. congruence.
    + by destruct Hun.
  - rewrite Hidle. apply hashValue_RemoveAll_fold.
Qed.

(** *** Inserting twice *)

Lemma unlink_placed e l :
  NoDup l → e ∉ l → unlink e (Hash.placed GetKey e l) = l.
Proof.
  intros Hnd He. destruct (placed_split GetKey e l Hnd) as (l1 & l2 & Hl & -> & _).
  rewrite Hl in He. apply not_elem_of_app in He as [He1 He2].
  by rewrite unlink_app, unlink_cons_eq, !unlink_absent.
Qed.

(** X3.  Inserting an element that is in the table already, under the same
    key, puts it back where it was: a second [InsertHashTableElement(e)]
    right after the first leaves the whole state as it is. *)
Theorem insert_twice_is_insert_once n d ops e :
  isPowerOfTwo n →
  let s := run ops (HashTableBase n d) in
  Insert e (Insert e s) = Insert e s.
Proof.
  intros Hn s. pose proof (run_inv GetKey Hash ops n d Hn) as Hinv. fold s in Hinv.
  destruct (detach_inv GetKey Hash e s _ Hinv) as [(Hwf1 & _ & _) He1].
  rewrite (InsertHashTableElement_eq GetKey Hash e (Insert e s)).
  rewrite (InsertHashTableElement_eq GetKey Hash e s). cbv zeta.
  set (s1 := InsertHashTableElement_detach e s) in *.
  set (b := GetBucket (keyHash e) s1).
  assert (b < length (bucketTable s1))%nat as Hb by by apply (GetBucket_lt GetKey Hash).
  pose proof (wf_chain_NoDup GetKey Hash s1 b Hwf1) as Hnd.
  pose proof (wf_unattached_chain s1 e b Hwf1 He1) as Hnot.
  set (S1 := State (elementCount s1 + 1) (bucketCount s1) (resizeLimit s1)
                   (<[b := Hash.placed GetKey e (chain s1 b)]> (bucketTable s1))
                   (<[e := b]> (owningHashTableBucket s1))
                   (<[e := keyHash e]> (hashValue s1))).
  assert (InsertHashTableElement_detach e S1
          = State (elementCount s1 + 1 - 1) (bucketCount s1) (resizeLimit s1)
                  (bucketTable s1) (owningHashTableBucket s1)
                  (<[e := keyHash e]> (hashValue s1))) as ->.
  { unfold InsertHashTableElement_detach, S1. simpl. rewrite lookup_insert_eq.
    unfold RemoveBucketElement, set_count, set_owner, set_chain. simpl.
    unfold chain at 1. simpl. rewrite list_lookup_insert_eq by done. simpl.
    rewrite unlink_placed by done. rewrite list_insert_insert_eq.
    rewrite (list_insert_id (bucketTable s1) b (chain s1 b)) by by apply lookup_chain.
    by rewrite delete_insert_id. }
  simpl. fold b. unfold S1. f_equal.
  - lia.
  - by rewrite insert_insert_eq.
Qed.

(** *** Inserting and removing *)

Lemma Remove_chain s e b :
  wf s → chain (RemoveHashTableElement e s) b = unlink e (chain s b).
Proof.
  intros Hwf. unfold RemoveHashTableElement.
  destruct (owningHashTableBucket s !! e) as [b0|] eqn:Ho.
  - by apply RemoveBucketElement_chain.
  - symmetry. apply unlink_absent. by apply wf_unattached_chain.
Qed.

Lemma Remove_elementCount s e :
  elementCount (RemoveHashTableElement e s)
  = if owningHashTableBucket s !! e is Some _ then (elementCount s - 1)%Z
    else elementCount s.
Proof.
  unfold RemoveHashTableElement. by destruct (owningHashTableBucket s !! e).
Qed.

(** X30.  [RemoveHashTableElement(e)] right after
    [InsertHashTableElement(e)] leaves the table as
    [RemoveHashTableElement(e)] alone does, as far as lookups go: every
    lookup returns the same, the same elements are attached and the count is
    the same.  The chains are those the insertion had before it filed [e];
    they are those of the removal alone unless the insertion has resized the
    table, which the removal does not undo. *)
Theorem insert_then_remove n d ops e :
  isPowerOfTwo n →
  let s := run ops (HashTableBase n d) in
  let s1 := RemoveHashTableElement e (Insert e s) in
  let s0 := RemoveHashTableElement e s in
  (∀ key, Find key s1 = Find key s0) ∧
  (∀ x, owningHashTableBucket s1 !! x = None ↔ owningHashTableBucket s0 !! x = None) ∧
  elementCount s1 = elementCount s0 ∧
  (∀ b, chain s1 b = chain (InsertHashTableElement_detach e s) b) ∧
  (is_Some (owningHashTableBucket s !! e) ∨ (elementCount s < resizeLimit s)%Z →
   ∀ b, chain s1 b = chain s0 b).
Proof.
  intros Hn s s1 s0. pose proof (run_inv GetKey Hash ops n d Hn) as Hinv. fold s in Hinv.
  set (log := insertionOrder ops) in *.
  pose proof (Insert_inv GetKey Hash e s _ Hinv) as Hinv'.
  pose proof (Remove_inv GetKey Hash e _ _ Hinv') as (Hwf1 & _ & Hord1). fold s1 in Hwf1, Hord1.
  pose proof (Remove_inv GetKey Hash e _ _ Hinv) as (Hwf0 & _ & Hord0). fold s0 in Hwf0, Hord0.
  assert (unlink e (unlink e log ++ [e]) = unlink e log) as Hlog.
  { rewrite unlink_app, unlink_cons_eq. unfold unlink at 3. rewrite filter_nil, app_nil_r.
    apply unlink_absent. by intros [_ ?]%elem_of_unlink. }
  rewrite Hlog in Hord1.
  destruct (detach_inv GetKey Hash e s _ Hinv) as [(Hwfd & _ & _) Hed].
  assert (∀ b, chain s1 b = chain (InsertHashTableElement_detach e s) b) as Hch.
  { intros b. unfold s1. rewrite (Remove_chain _ e b (proj1 Hinv')).
    rewrite (Insert_chain GetKey Hash s e _ b Hinv). cbv zeta.
    pose proof (wf_unattached_chain _ e b Hwfd Hed) as Hnot.
    case_decide as Hb.
    - subst b. apply unlink_placed; [|done]. by apply (wf_chain_NoDup GetKey Hash).
    - by apply unlink_absent. }
  destruct Hinv as (Hwf & Hc & Hord).
  split_and!.
  - intros key. by rewrite (Find_head _ _ _ _ _ Hord1), (Find_head _ _ _ _ _ Hord0).
  - intros x. rewrite !eq_None_not_Some.
    rewrite <- (ordered_attached GetKey Hash s1 _ x Hwf1 Hord1).
    by rewrite <- (ordered_attached GetKey Hash s0 _ x Hwf0 Hord0).
  - unfold s1, s0. rewrite !Remove_elementCount.
    rewrite (Insert_elementCount GetKey Hash s e Hwf Hc).
    assert (is_Some (owningHashTableBucket (Insert e s) !! e)) as [b ->].
    { apply (ordered_attached GetKey Hash _ _ e (proj1 Hinv') (proj2 (proj2 Hinv'))).
      apply elem_of_app. right. left. }
    destruct (owningHashTableBucket s !! e); lia.
  - done.
  - intros Hcase b. rewrite Hch. unfold s0, InsertHashTableElement_detach,
      RemoveHashTableElement.
    destruct (owningHashTableBucket s !! e) as [b0|] eqn:Ho; [done|].
    destruct Hcase as [[? [=]]|Hlt]. by rewrite decide_False by lia.
Qed.

(** *** Filing an unattached element *)

(** The second half of [InsertHashTableElement], from a state in which
    the element is in no bucket. *)
Lemma attach_inv e s1 log1 :
  inv log1 s1 → owningHashTableBucket s1 !! e = None →
  let b := GetBucket (keyHash e) s1 in
  inv (log1 ++ [e])
      (State (elementCount s1 + 1) (bucketCount s1) (resizeLimit s1)
             (<[b := Hash.placed GetKey e (chain s1 b)]> (bucketTable s1))
             (<[e := b]> (owningHashTableBucket s1))
             (<[e := keyHash e]> (hashValue s1))).
Proof.
  intros (Hwf & Hc & Hord) He b.
  assert (b < length (bucketTable s1))%nat as Hb by by apply (GetBucket_lt GetKey Hash).
  pose proof (wf_chain_NoDup GetKey Hash _ b Hwf) as Hnd.
  split_and!.
  - pose proof (wf_set_hash GetKey Hash s1 e (keyHash e) Hwf He) as Hwf2.
    apply (wf_attach GetKey Hash (set_hash e (keyHash e) s1)); try done.
    + simpl. apply lookup_insert_eq.
    + by apply placed_perm.
  - apply counted_update; try done.
    rewrite (placed_perm GetKey e _ Hnd). simpl. lia.
  - apply (ordered_update GetKey Hash _ _ _ _ _ _ _ log1); try done.
    + intros key Hk. rewrite filter_app. destruct (decide (GetKey e = key)) as [<-|Hne].
      * rewrite placed_filter_same by done. rewrite filter_cons_True by done.
        simpl. f_equal. fold (Hash.keyHash GetKey Hash e) in Hk.
        by rewrite <- Hord.
      * rewrite placed_filter_other by done. rewrite filter_cons_False by done.
        simpl. rewrite app_nil_r. subst b. rewrite <- Hk. apply Hord.
    + intros key Hk. rewrite filter_app, filter_cons_False; [by rewrite app_nil_r|].
      intros Hkey. apply Hk. subst key. done.
Qed.
End HashExtras.

(** *** Inserting again after the key has changed *)

Section KeyChange.
Context {KeyType : Type} `{!EqDecision KeyType}.
Variables GetKey GetKey' : elem → KeyType.
Variable Hash : KeyType → Z.
Variable e : elem.
Hypothesis Hsame : ∀ x, x ≠ e → GetKey' x = GetKey x.
Implicit Types (s : state) (x : elem) (l log : list elem).

Lemma filter_key_change key l :
  e ∉ l → filter (λ x, GetKey' x = key) l = filter (λ x, GetKey x = key) l.
Proof.
  intros He. apply filter_iff_in. intros x Hx.
  rewrite Hsame; [done|]. intros ->. done.
Qed.

Lemma inv_key_change log s :
  Hash.wf GetKey Hash s ∧ counted s ∧ Hash.ordered GetKey Hash log s →
  owningHashTableBucket s !! e = None →
  Hash.wf GetKey' Hash s ∧ counted s ∧ Hash.ordered GetKey' Hash log s.
Proof.
  intros (Hwf & Hc & Hord) He.
  assert (e ∉ log) as Hlog.
  { intros Hin. apply (ordered_attached GetKey Hash s log e Hwf Hord) in Hin.
    rewrite He in Hin. by destruct Hin. }
  split_and!; [|done|].
  - destruct Hwf as [Hp Hl Ho Hn Hh]. split; try done.
    intros x b Hx. unfold Hash.keyHash. rewrite Hsame by congruence. by apply Hh.
  - intros key. rewrite !filter_key_change; [apply Hord|done|].
    intros Hin. apply (wf_owner _ _ _ Hwf) in Hin. congruence.
Qed.

(** X4.  When the key of [e] has changed while [e] was attached, the keys of
    the other elements being as they were, [InsertHashTableElement(e)] files
    [e] in the bucket of its new key and caches the new hash, leaves the
    other elements attached or unattached as they were, and makes every
    lookup by the new keys return the earliest inserted match, [e] counting
    as inserted last.  The count grows only if [e] was not attached. *)
Theorem reinsert_after_key_change n d ops :
  isPowerOfTwo n →
  let s := Hash.run GetKey Hash ops (HashTableBase n d) in
  let s' := InsertHashTableElement GetKey' Hash e s in
  owningHashTableBucket s' !! e = Some (GetBucket (Hash.keyHash GetKey' Hash e) s') ∧
  hashValue s' !! e = Some (Hash.keyHash GetKey' Hash e) ∧
  (∀ x, x ≠ e → owningHashTableBucket s' !! x = None ↔ owningHashTableBucket s !! x = None) ∧
  (∀ key, FindHashTableElement GetKey' Hash key s'
          = head (filter (λ x, GetKey' x = key) (unlink e (insertionOrder ops) ++ [e]))) ∧
  elementCount s'
  = (if owningHashTableBucket s !! e is Some _ then elementCount s
     else elementCount s + 1)%Z.
Proof.
  intros Hn s s'. pose proof (run_inv GetKey Hash ops n d Hn) as Hinv. fold s in Hinv.
  destruct (detach_inv GetKey Hash e s _ Hinv) as [Hinv1 He1].
  pose proof (inv_key_change _ _ Hinv1 He1) as Hinv1'.
  pose proof (attach_inv GetKey' Hash e _ _ Hinv1' He1) as (Hwf' & Hc' & Hord').
  cbv zeta in Hwf', Hc', Hord'.
  rewrite <- InsertHashTableElement_eq in Hwf', Hc', Hord'. fold s' in Hwf', Hc', Hord'.
  destruct Hinv as (Hwf & Hc & Hord).
  assert (is_Some (owningHashTableBucket s' !! e)) as [b Hb].
  { apply (ordered_attached GetKey' Hash s' _ e Hwf' Hord').
    apply elem_of_app. right. left. }
  destruct (wf_hash _ _ _ Hwf' e b Hb) as [Hhv ->].
  split_and!; [done|done| | |].
  - intros x Hne. rewrite !eq_None_not_Some.
    rewrite <- (ordered_attached GetKey' Hash s' _ x Hwf' Hord').
    rewrite <- (ordered_attached GetKey Hash s _ x Hwf Hord).
    rewrite elem_of_app, elem_of_unlink, list_elem_of_singleton. tauto.
  - intros key. apply (Find_head _ _ _ _ _ Hord').
  - unfold s'. rewrite InsertHashTableElement_eq. cbn [elementCount].
    rewrite (detach_elementCount GetKey Hash s e Hwf Hc).
    destruct (owningHashTableBucket s !! e); lia.
Qed.
End KeyChange.

(** Witnesses: the theorems at a table of four buckets, depth two. *)

Lemma isPowerOfTwo_4 : isPowerOfTwo 4.
Proof. exists 2%nat. reflexivity. Defined.

Lemma find_after_insert_witness :
  isPowerOfTwo 4 ∧
  ∀ key,
    FindHashTableElement addressKey identityHash key
      (run addressKey identityHash [OpInsert 1%nat; OpInsert 5%nat; OpRemove 1%nat]
           (HashTableBase 4 2))
    = head (filter (λ x, addressKey x = key)
                   (insertionOrder [OpInsert 1%nat; OpInsert 5%nat; OpRemove 1%nat])).
Proof.
  split; [exact isPowerOfTwo_4|].
  destruct (find_after_insert addressKey identityHash 4 2
              [OpInsert 1%nat; OpInsert 5%nat; OpRemove 1%nat] 9%nat isPowerOfTwo_4)
    as (_ & _ & Hfind).
  exact Hfind.
Defined.

Lemma insert_position_witness :
  isPowerOfTwo 4 ∧
  let s := run addressKey identityHash [OpInsert 1%nat; OpInsert 5%nat] (HashTableBase 4 2) in
  let s1 := InsertHashTableElement_detach 9%nat s in
  let b := GetBucket (keyHash addressKey identityHash 9%nat) s1 in
  ∀ b', b' ≠ b →
    chain (InsertHashTableElement addressKey identityHash 9%nat s) b' = chain s1 b'.
Proof.
  split; [exact isPowerOfTwo_4|].
  destruct (insert_position addressKey identityHash 4 2
              [OpInsert 1%nat; OpInsert 5%nat] 9%nat isPowerOfTwo_4)
    as (_ & _ & Hothers & _).
  exact Hothers.
Defined.

Lemma ninth_insert_resizes_witness :
  NoDup (seq 0 8) ∧ (8%nat ∉ seq 0 8) ∧
  (addressKey 8%nat ∉ addressKey <$> seq 0 8) ∧
  ∀ x, x ∈ seq 0 9 →
    FindHashTableElement addressKey identityHash (addressKey x)
      (InsertHashTableElement addressKey identityHash 8%nat
         (run addressKey identityHash (OpInsert <$> seq 0 8) (HashTableBase 4 2)))
    = Some x.
Proof.
  assert (NoDup (seq 0 8)) as Hnd by evaluate.
  assert (8%nat ∉ seq 0 8) as Hfresh by evaluate.
  assert (addressKey 8%nat ∉ addressKey <$> seq 0 8) as Hkey by evaluate.
  split_and!; [exact Hnd|exact Hfresh|exact Hkey|].
  destruct (ninth_insert_resizes addressKey identityHash (seq 0 8) 8%nat Hnd Hfresh)
    as (_ & _ & _ & Hfind & _ & Hninth).
  - vm_compute. reflexivity.
  - intros x Hx. change (seq 0 9) with (seq 0 8 ++ [8%nat]) in Hx.
    apply elem_of_app in Hx as [Hx| ->%list_elem_of_singleton].
    + exact (Hfind x Hx).
    + exact (Hninth Hkey).
Defined.


Lemma remove_unattached_is_noop_witness :
  owningHashTableBucket (HashTableBase 4 2) !! 3%nat = None ∧
  RemoveHashTableElement 3%nat (HashTableBase 4 2) = HashTableBase 4 2.
Proof.
  split; [reflexivity|].
  apply (remove_unattached_is_noop (HashTableBase 4 2) 3%nat). reflexivity.
Defined.

(** C5, the ninth element returned under its key: this part does not hold
    when the ninth element has the key of one of the eight.  With the key
    an address modulo 8, the elements 0..7 have the hashes 0..7 and
    element 8 has the key of element 0.  The ninth insertion resizes as
    the claim says and attaches element 8, and [FindHashTableElement]
    returns element 0 for its key. *)
Lemma ninth_with_an_earlier_key :
  let s9 := run lowBitsKey identityHash (OpInsert <$> seq 0 9) (HashTableBase 4 2) in
  keyHash lowBitsKey identityHash <$> seq 0 8 = [0; 1; 2; 3; 4; 5; 6; 7]%Z ∧
  (bucketCount s9, resizeLimit s9, elementCount s9) = (8, 16, 9)%Z ∧
  is_Some (owningHashTableBucket s9 !! 8%nat) ∧
  FindHashTableElement lowBitsKey identityHash (lowBitsKey 8%nat) s9 = Some 0%nat ∧
  FindHashTableElement lowBitsKey identityHash (lowBitsKey 8%nat) s9 ≠ Some 8%nat.
Proof.
  split_and!; [by vm_compute|by vm_compute|by eexists; vm_compute|by vm_compute|].
  by vm_compute.
Qed.


(** Witnesses of the further properties: a table of four buckets, depth
    two, with the elements 1 and 5 in bucket 1. *)

Lemma find_hit_or_miss_witness :
  isPowerOfTwo 4 ∧
  let s := run addressKey identityHash [OpInsert 1%nat; OpInsert 5%nat] (HashTableBase 4 2) in
  (FindHashTableElement addressKey identityHash 7%Z s = None ↔
   ∀ x, is_Some (owningHashTableBucket s !! x) → addressKey x ≠ 7%Z).
Proof.
  split; [exact isPowerOfTwo_4|].
  destruct (find_hit_or_miss addressKey identityHash 4 2
              [OpInsert 1%nat; OpInsert 5%nat] 7%Z isPowerOfTwo_4) as [_ Hmiss].
  exact Hmiss.
Defined.

Lemma remove_detaches_witness :
  isPowerOfTwo 4 ∧
  let s := run addressKey identityHash [OpInsert 1%nat; OpInsert 5%nat] (HashTableBase 4 2) in
  let s' := RemoveHashTableElement 1%nat s in
  owningHashTableBucket s' !! 1%nat = None.
Proof.
  split; [exact isPowerOfTwo_4|].
  destruct (remove_detaches addressKey identityHash 4 2
              [OpInsert 1%nat; OpInsert 5%nat] 1%nat isPowerOfTwo_4) as [Hnone _].
  exact Hnone.
Defined.

Lemma insert_keeps_other_lookups_witness :
  isPowerOfTwo 4 ∧
  let s := run addressKey identityHash [OpInsert 1%nat; OpInsert 5%nat] (HashTableBase 4 2) in
  let s' := InsertHashTableElement addressKey identityHash 9%nat s in
  ∀ key, key ≠ addressKey 9%nat →
         FindHashTableElement addressKey identityHash key s'
         = FindHashTableElement addressKey identityHash key s.
Proof.
  split; [exact isPowerOfTwo_4|].
  destruct (insert_keeps_other_lookups addressKey identityHash 4 2
              [OpInsert 1%nat; OpInsert 5%nat] 9%nat isPowerOfTwo_4) as (_ & Hother & _).
  exact Hother.
Defined.

Lemma remove_all_detaches_everything_witness :
  isPowerOfTwo 4 ∧
  let s := run addressKey identityHash [OpInsert 1%nat; OpInsert 5%nat] (HashTableBase 4 2) in
  let s' := RemoveAllHashTableElements s in
  elementCount s' = 0%Z.
Proof.
  split; [exact isPowerOfTwo_4|].
  destruct (remove_all_detaches_everything addressKey identityHash 4 2
              [OpInsert 1%nat; OpInsert 5%nat] isPowerOfTwo_4) as [Hcount _].
  exact Hcount.
Defined.

Lemma purge_destroys_members_witness :
  isPowerOfTwo 4 ∧
  let s := run addressKey identityHash [OpInsert 1%nat; OpInsert 5%nat] (HashTableBase 4 2) in
  let s' := PurgeHashTable s in
  ∀ e, hashValue s' !! e =
       if owningHashTableBucket s !! e is Some _ then None else hashValue s !! e.
Proof.
  split; [exact isPowerOfTwo_4|].
  destruct (purge_destroys_members addressKey identityHash 4 2
              [OpInsert 1%nat; OpInsert 5%nat] isPowerOfTwo_4) as (_ & _ & _ & _ & Hgone & _).
  exact Hgone.
Defined.

Lemma load_never_exceeds_limit_witness :
  isPowerOfTwo 4 ∧ (1 ≤ 2)%Z ∧
  (∀ e, OpInsertAttached e ∉ OpInsert <$> seq 0 20) ∧
  let s := run addressKey identityHash (OpInsert <$> seq 0 20) (HashTableBase 4 2) in
  (GetBucketCount s * 2 < 2 ^ 31)%Z ∧
  (GetHashTableElementCount s ≤ GetBucketCount s * 2)%Z.
Proof.
  assert (∀ e, OpInsertAttached e ∉ OpInsert <$> seq 0 20) as Hown.
  { intros e (x & Hx & _)%list_elem_of_fmap. discriminate Hx. }
  assert (GetBucketCount
            (run addressKey identityHash (OpInsert <$> seq 0 20) (HashTableBase 4 2)) * 2
          < 2 ^ 31)%Z as Hfit by (by vm_compute).
  split; [exact isPowerOfTwo_4|]. split; [lia|]. split; [exact Hown|].
  split; [exact Hfit|].
  destruct (load_never_exceeds_limit addressKey identityHash 4 2
              (OpInsert <$> seq 0 20) isPowerOfTwo_4 ltac:(lia) Hown Hfit) as [Hload _].
  exact Hload.
Defined.

Lemma nonpositive_depth_doubles_every_time_witness :
  isPowerOfTwo 4 ∧ (-1 ≤ 0)%Z ∧ NoDup [1; 5; 9]%nat ∧
  (4 * 2 ^ Z.of_nat (length [1; 5; 9]%nat) < 2 ^ 31)%Z ∧
  (- 2 ^ 31 ≤ 4 * 2 ^ Z.of_nat (length [1; 5; 9]%nat) * -1)%Z ∧
  let s := run addressKey identityHash (OpInsert <$> [1; 5; 9]%nat) (HashTableBase 4 (-1)) in
  GetBucketCount s = (4 * 2 ^ Z.of_nat (length [1; 5; 9]%nat))%Z.
Proof.
  assert (NoDup [1; 5; 9]%nat) as Hnd by evaluate.
  assert (4 * 2 ^ Z.of_nat (length [1; 5; 9]%nat) < 2 ^ 31)%Z as Hbuckets by reflexivity.
  assert (- 2 ^ 31 ≤ 4 * 2 ^ Z.of_nat (length [1; 5; 9]%nat) * -1)%Z as Hlimit
    by (by vm_compute).
  split; [exact isPowerOfTwo_4|]. split; [lia|]. split; [exact Hnd|].
  split; [exact Hbuckets|]. split; [exact Hlimit|].
  destruct (nonpositive_depth_doubles_every_time addressKey identityHash 4 (-1)
              [1; 5; 9]%nat isPowerOfTwo_4 ltac:(lia) Hnd Hbuckets Hlimit) as [Hcount _].
  exact Hcount.
Defined.

Lemma bucket_is_hash_modulo_count_witness :
  isPowerOfTwo 4 ∧
  let s := run addressKey identityHash [OpInsert 1%nat; OpInsert 5%nat] (HashTableBase 4 2) in
  5%nat ∈ chain s 1 ∧
  Z.of_nat 1 = (keyHash addressKey identityHash 5%nat mod bucketCount s)%Z.
Proof.
  split; [exact isPowerOfTwo_4|].
  assert (5%nat ∈ chain (run addressKey identityHash [OpInsert 1%nat; OpInsert 5%nat]
                             (HashTableBase 4 2)) 1) as Hin by evaluate.
  split; [exact Hin|].
  destruct (bucket_is_hash_modulo_count addressKey identityHash 4 2
              [OpInsert 1%nat; OpInsert 5%nat] 5%nat 1%nat isPowerOfTwo_4 Hin) as [Hmod _].
  exact Hmod.
Defined.

Lemma resize_splits_each_bucket_witness :
  isPowerOfTwo 4 ∧
  let s := run addressKey identityHash [OpInsert 1%nat; OpInsert 5%nat] (HashTableBase 4 2) in
  let s' := ResizeBucketTable s in
  ∀ key, FindHashTableElement addressKey identityHash key s'
         = FindHashTableElement addressKey identityHash key s.
Proof.
  split; [exact isPowerOfTwo_4|].
  destruct (resize_splits_each_bucket addressKey identityHash 4 2
              [OpInsert 1%nat; OpInsert 5%nat] isPowerOfTwo_4) as (_ & _ & Hfind & _).
  exact Hfind.
Defined.

Lemma bucket_walks_witness :
  isPowerOfTwo 4 ∧
  let s := run addressKey identityHash [OpInsert 1%nat; OpInsert 5%nat] (HashTableBase 4 2) in
  let fuel := Z.to_nat (GetHashTableElementCount s) in
  follow (λ e, GetNextBucketElement e s) (λ _, true) fuel (GetFirstBucketElement 1 s)
  = chain s 1.
Proof.
  split; [exact isPowerOfTwo_4|].
  destruct (bucket_walks addressKey identityHash 4 2
              [OpInsert 1%nat; OpInsert 5%nat] 1%nat isPowerOfTwo_4) as [Hwalk _].
  exact Hwalk.
Defined.

Lemma duplicates_follow_the_first_witness :
  isPowerOfTwo 4 ∧
  let s := run (λ _, 3%Z) identityHash [OpInsert 1%nat; OpInsert 5%nat] (HashTableBase 4 2) in
  length (filter (λ x : elem, (λ _ : elem, 3%Z) x = 3%Z)
                 (insertionOrder [OpInsert 1%nat; OpInsert 5%nat])) ≤ 2 ∧
  follow (λ e, GetNextBucketElement e s) (λ e, bool_decide ((λ _ : elem, 3%Z) e = 3%Z)) 2
         (FindHashTableElement (λ _, 3%Z) identityHash 3%Z s)
  = filter (λ x : elem, (λ _ : elem, 3%Z) x = 3%Z)
           (insertionOrder [OpInsert 1%nat; OpInsert 5%nat]).
Proof.
  split; [exact isPowerOfTwo_4|].
  assert (length (filter (λ x : elem, (λ _ : elem, 3%Z) x = 3%Z)
                         (insertionOrder [OpInsert 1%nat; OpInsert 5%nat])) ≤ 2) as Hfuel
    by evaluate.
  split; [exact Hfuel|].
  exact (duplicates_follow_the_first (λ _, 3%Z) identityHash 4 2
           [OpInsert 1%nat; OpInsert 5%nat] 3%Z 2 isPowerOfTwo_4 Hfuel).
Defined.

Lemma reinsert_after_key_change_witness :
  (∀ x : elem, x ≠ 1%nat →
     (λ x, if decide (x = 1%nat) then 6%Z else addressKey x) x = addressKey x) ∧
  isPowerOfTwo 4 ∧
  let s := run addressKey identityHash [OpInsert 1%nat; OpInsert 5%nat] (HashTableBase 4 2) in
  let s' := InsertHashTableElement
              (λ x, if decide (x = 1%nat) then 6%Z else addressKey x) identityHash 1%nat s in
  hashValue s' !! 1%nat
  = Some (keyHash (λ x, if decide (x = 1%nat) then 6%Z else addressKey x) identityHash 1%nat).
Proof.
  assert (∀ x : elem, x ≠ 1%nat →
            (λ x, if decide (x = 1%nat) then 6%Z else addressKey x) x = addressKey x)
    as Hsame.
  { intros x Hx. simpl. rewrite decide_False by exact Hx. reflexivity. }
  split; [exact Hsame|]. split; [exact isPowerOfTwo_4|].
  destruct (reinsert_after_key_change addressKey _ identityHash 1%nat Hsame 4 2
              [OpInsert 1%nat; OpInsert 5%nat] isPowerOfTwo_4) as (_ & Hhash & _).
  exact Hhash.
Defined.

Lemma destroyed_element_leaves_table_witness :
  isPowerOfTwo 4 ∧
  let s := run addressKey identityHash [OpInsert 1%nat; OpInsert 5%nat] (HashTableBase 4 2) in
  let s' := delete_element 1%nat s in
  ∀ key, FindHashTableElement addressKey identityHash key s' ≠ Some 1%nat.
Proof.
  split; [exact isPowerOfTwo_4|].
  destruct (destroyed_element_leaves_table addressKey identityHash 4 2
              [OpInsert 1%nat; OpInsert 5%nat] 1%nat isPowerOfTwo_4)
    as (_ & _ & _ & _ & Hfind & _).
  exact Hfind.
Defined.

Lemma table_destruction_destroys_members_witness :
  isPowerOfTwo 4 ∧
  let s := run addressKey identityHash [OpInsert 1%nat; OpInsert 5%nat] (HashTableBase 4 2) in
  HashTableBase_destructor (RemoveAllHashTableElements s) = RemoveAllHashTableElements s.
Proof.
  split; [exact isPowerOfTwo_4|].
  destruct (table_destruction_destroys_members addressKey identityHash 4 2
              [OpInsert 1%nat; OpInsert 5%nat] isPowerOfTwo_4) as (_ & Hidle & _).
  exact Hidle.
Defined.

Lemma insert_twice_is_insert_once_witness :
  isPowerOfTwo 4 ∧
  let s := run addressKey identityHash [OpInsert 1%nat; OpInsert 5%nat] (HashTableBase 4 2) in
  InsertHashTableElement addressKey identityHash 1%nat
    (InsertHashTableElement addressKey identityHash 1%nat s)
  = InsertHashTableElement addressKey identityHash 1%nat s.
Proof.
  split; [exact isPowerOfTwo_4|].
  exact (insert_twice_is_insert_once addressKey identityHash 4 2
           [OpInsert 1%nat; OpInsert 5%nat] 1%nat isPowerOfTwo_4).
Defined.

Lemma insert_then_remove_witness :
  isPowerOfTwo 4 ∧
  let s := run addressKey identityHash [OpInsert 1%nat; OpInsert 5%nat] (HashTableBase 4 2) in
  let s1 := RemoveHashTableElement 9%nat (InsertHashTableElement addressKey identityHash 9%nat s) in
  let s0 := RemoveHashTableElement 9%nat s in
  elementCount s1 = elementCount s0.
Proof.
  split; [exact isPowerOfTwo_4|].
  destruct (insert_then_remove addressKey identityHash 4 2
              [OpInsert 1%nat; OpInsert 5%nat] 9%nat isPowerOfTwo_4) as (_ & _ & Hcount & _).
  exact Hcount.
Defined.

(** The states of the scenario, evaluated. *)

Example eight_inserts :
  bucketTable (run addressKey identityHash (OpInsert <$> seq 0 8) (HashTableBase 4 2))
  = [[0; 4]; [1; 5]; [2; 6]; [3; 7]]%nat.
Proof. by vm_compute. Qed.

Example nine_inserts :
  let s := run addressKey identityHash (OpInsert <$> seq 0 9) (HashTableBase 4 2) in
  bucketTable s = [[0; 8]; [1]; [2]; [3]; [4]; [5]; [6]; [7]]%nat ∧
  (elementCount s, bucketCount s, resizeLimit s) = (9, 8, 16)%Z.
Proof. by vm_compute. Qed.

(** Elements 2 and 6 with the key 2, element 10 with a key of its own in
    the same bucket: a later member with key 2 goes behind the last one
    with that key, not to the tail. *)
Example same_key_grouped :
  let key := λ e : elem, if decide (e = 10%nat) then 10%Z else 2%Z in
  bucketTable
    (run key identityHash [OpInsert 2%nat; OpInsert 10%nat; OpInsert 6%nat] (HashTableBase 4 2))
  = [[]; []; [2; 6; 10]; []]%nat.
Proof. by vm_compute. Qed.

(** An element taken over from another table is filed without the resize
    check: the count passes the limit. *)
Example taken_over_element :
  let s := run addressKey identityHash (OpInsert <$> seq 0 8) (HashTableBase 4 2) in
  let s' := InsertHashTableElement_attached addressKey identityHash 8%nat s in
  (elementCount s, bucketCount s, resizeLimit s) = (8, 4, 8)%Z ∧
  (elementCount s', bucketCount s', resizeLimit s') = (9, 4, 8)%Z ∧
  chain s' 0 = [0; 4; 8]%nat.
Proof. by vm_compute. Qed.

End HashProps.

(** ** TSGraph *)

Module GraphProps.
Import Graph.

Section SearchFacts.
Implicit Types (w : world) (st : search) (x y first second : elem) (fs : list elem).

(** *** Moving an element between the three lists *)


Lemma AppendListElement_ready x st :
  x ∉ visitedList st →
  readyList (AppendListElement TheReadyList x st) = unlink x (readyList st) ++ [x] ∧
  visitedList (AppendListElement TheReadyList x st) = visitedList st ∧
  graphList (AppendListElement TheReadyList x st) = unlink x (graphList st) ∧
  trace (AppendListElement TheReadyList x st) = trace st ++ [Enqueue x].
Proof. intros Hx. simpl. by rewrite (unlink_absent x (visitedList st)). Qed.

Lemma AppendListElement_visited x rest st :
  NoDup (frontier st) → readyList st = x :: rest →
  readyList (AppendListElement TheVisitedList x st) = rest ∧
  visitedList (AppendListElement TheVisitedList x st) = visitedList st ++ [x] ∧
  graphList (AppendListElement TheVisitedList x st) = unlink x (graphList st) ∧
  trace (AppendListElement TheVisitedList x st) = trace st ++ [Visit x].
Proof.
  unfold frontier. intros Hnd Hr. rewrite Hr in Hnd. simpl in *.
  apply NoDup_cons in Hnd as [Hx Hnd]. apply not_elem_of_app in Hx as [Hxr Hxv].
  rewrite Hr, unlink_cons_eq, !unlink_absent by done. done.
Qed.

#[local] Arguments AppendListElement : simpl never.

Lemma NoDup_frontier_ready x st :
  NoDup (frontier st) → x ∉ visitedList st →
  NoDup (frontier (AppendListElement TheReadyList x st)).
Proof.
  unfold frontier. intros Hnd Hx.
  destruct (AppendListElement_ready x st Hx) as (-> & -> & _).
  apply NoDup_app in Hnd as (Hr & Hd & Hv).
  rewrite <- (assoc_L (++)). apply NoDup_app. split_and!.
  - by apply NoDup_unlink.
  - intros y [Hy Hne]%elem_of_unlink [->%list_elem_of_singleton|Hyv]%elem_of_app; [done|].
    by apply (Hd y).
  - apply NoDup_app. split_and!; [apply NoDup_singleton| |done].
    by intros y ->%list_elem_of_singleton.
Qed.

Lemma NoDup_frontier_visited x rest st :
  NoDup (frontier st) → readyList st = x :: rest →
  NoDup (frontier (AppendListElement TheVisitedList x st)).
Proof.
  intros Hnd Hr.
  destruct (AppendListElement_visited x rest st Hnd Hr) as (Hr' & Hv' & _).
  unfold frontier in *. rewrite Hr', Hv'. rewrite Hr in Hnd. simpl in Hnd.
  rewrite (assoc_L (++)). by rewrite <- Permutation_cons_append.
Qed.

(** *** Induction principles following the two loops *)

Lemma searchLoop_unfold fuel w second st :
  searchLoop (S fuel) w second st =
  match readyList st with
  | [] => Some (false, st)
  | element :: _ =>
      let st1 := AppendListElement TheVisitedList element st in
      match scanRelations second (finishes w element) st1 with
      | (true, st2) => Some (true, st2)
      | (false, st2) => searchLoop fuel w second st2
      end
  end.
Proof. reflexivity. Qed.

Lemma scanRelations_ind (P : search → Prop) second fs st :
  (∀ st' finish, P st' → finish ∈ fs → finish ∉ visitedList st' →
                 finish ≠ second →
                 P (AppendListElement TheReadyList finish st')) →
  P st → P (scanRelations second fs st).2.
Proof.
  revert st. induction fs as [|finish rest IH]; intros st Hstep Hst; [done|].
  simpl. unfold Member_visitedList. case_bool_decide as Hv.
  - apply IH; [|done]. intros st' f ? ?. apply Hstep; [done|by right].
  - case_decide as Hs; [done|]. apply IH.
    + intros st' f ? ?. apply Hstep; [done|by right].
    + apply Hstep; [done|left|done|done].
Qed.

Lemma scanRelations_visitedList second fs st :
  visitedList (scanRelations second fs st).2 = visitedList st.
Proof.
  apply (scanRelations_ind (λ st', visitedList st' = visitedList st)); [|done].
  intros st' finish Hst' _ Hv _.
  by destruct (AppendListElement_ready finish st' Hv) as (_ & -> & _).
Qed.

Lemma scanRelations_found second fs st :
  (scanRelations second fs st).1 = true → second ∈ fs ∧ second ∉ visitedList st.
Proof.
  revert st. induction fs as [|finish rest IH]; intros st; [done|].
  simpl. unfold Member_visitedList. case_bool_decide as Hv.
  - intros [? ?]%IH. split; [by right|done].
  - case_decide as Hs.
    + intros _. subst. split; [left|done].
    + intros [? Hn]%IH. split; [by right|].
      by destruct (AppendListElement_ready finish st Hv) as (_ & <- & _).
Qed.

Lemma searchLoop_ind (P : search → Prop) fuel w second st res st' :
  (∀ s x rest, P s → NoDup (frontier s) → readyList s = x :: rest →
               P (AppendListElement TheVisitedList x s)) →
  (∀ s finish, P s → NoDup (frontier s) → finish ∉ visitedList s →
               finish ≠ second →
               (∃ x, x ∈ visitedList s ∧ finish ∈ finishes w x) →
               P (AppendListElement TheReadyList finish s)) →
  NoDup (frontier st) → P st →
  searchLoop fuel w second st = Some (res, st') →
  P st' ∧ NoDup (frontier st') ∧
  (if res then ∃ x, x ∈ visitedList st' ∧ second ∈ finishes w x ∧
                    second ∉ visitedList st'
   else readyList st' = []).
Proof.
  intros Hvisit Henq. revert st.
  induction fuel as [|fuel IH]; intros st Hnd Hst Hrun; [done|].
  rewrite searchLoop_unfold in Hrun. destruct (readyList st) as [|x rest] eqn:Hr.
  - by injection Hrun as <- <-.
  - cbv zeta in Hrun. set (st1 := AppendListElement TheVisitedList x st) in *.
    assert (P st1 ∧ NoDup (frontier st1)) as [Hst1 Hnd1].
    { split; [by eapply Hvisit|by eapply NoDup_frontier_visited]. }
    assert (x ∈ visitedList st1) as Hx.
    { destruct (AppendListElement_visited x rest st Hnd Hr) as (_ & Hv & _).
      unfold st1. rewrite Hv. apply elem_of_app. right. left. }
    pose proof (scanRelations_ind
                  (λ s, P s ∧ NoDup (frontier s) ∧ visitedList s = visitedList st1)
                  second (finishes w x) st1) as Hscan.
    destruct Hscan as (Hst2 & Hnd2 & Hv2).
    { intros s finish (Hs & Hnds & Hvs) Hfin Hnv Hne. split_and!.
      - apply Henq; try done. exists x. by rewrite Hvs.
      - by apply NoDup_frontier_ready.
      - by destruct (AppendListElement_ready finish s Hnv) as (_ & -> & _). }
    { done. }
    pose proof (scanRelations_found second (finishes w x) st1) as Hfound.
    destruct (scanRelations second (finishes w x) st1) as [[] st2]; simpl in *.
    + injection Hrun as <- <-. split_and!; [done|done|].
      exists x. destruct (Hfound eq_refl) as [Hin Hnv]. rewrite Hv2. done.
    + by apply (IH st2).
Qed.

(** *** The search returns *)

Lemma finishes_allFinishes w x y : y ∈ finishes w x → y ∈ allFinishes w.
Proof.
  unfold finishes, allFinishes, finishOf. intros (r & _ & Hr)%list_elem_of_omap.
  destruct (relations w !! r) as [R|] eqn:HR; [|done]. injection Hr as <-.
  apply list_elem_of_fmap. exists (r, R). split; [done|].
  by apply elem_of_map_to_list.
Qed.

Lemma searchLoop_total fuel w second st (U : list elem) :
  (∀ x y, y ∈ finishes w x → y ∈ U) →
  NoDup (frontier st) → (∀ x, x ∈ frontier st → x ∈ U) →
  length U < fuel + length (visitedList st) →
  is_Some (searchLoop fuel w second st).
Proof.
  intros HU. revert st. induction fuel as [|fuel IH]; intros st Hnd Hsub Hlen.
  - exfalso. assert (length (visitedList st) ≤ length U); [|lia].
    apply submseteq_length, NoDup_submseteq.
    + by apply NoDup_app in Hnd as (_ & _ & ?).
    + intros x Hx. apply Hsub, elem_of_app. by right.
  - rewrite searchLoop_unfold. destruct (readyList st) as [|x rest] eqn:Hr; [done|].
    cbv zeta. set (st1 := AppendListElement TheVisitedList x st).
    destruct (AppendListElement_visited x rest st Hnd Hr) as (Hr1 & Hv1 & _).
    fold st1 in Hr1, Hv1.
    pose proof (scanRelations_ind
                  (λ s, NoDup (frontier s) ∧ (∀ y, y ∈ frontier s → y ∈ U) ∧
                        visitedList s = visitedList st1)
                  second (finishes w x) st1) as Hscan.
    destruct Hscan as (Hnd2 & Hsub2 & Hv2).
    { intros s finish (Hnds & Hsubs & Hvs) Hfin Hnv Hne.
      destruct (AppendListElement_ready finish s Hnv) as (Hr' & Hv' & _).
      split_and!; [by apply NoDup_frontier_ready| |congruence].
      intros y. unfold frontier. rewrite Hr', Hv'.
      intros [[[Hy _]%elem_of_unlink| ->%list_elem_of_singleton]%elem_of_app|Hy]%elem_of_app.
      - apply Hsubs, elem_of_app. by left.
      - by eapply HU.
      - apply Hsubs, elem_of_app. by right. }
    { split_and!; [by eapply NoDup_frontier_visited| |done].
      intros y. unfold frontier. rewrite Hr1, Hv1.
      intros [Hy|[Hy| ->%list_elem_of_singleton]%elem_of_app]%elem_of_app.
      - apply Hsub. unfold frontier. rewrite Hr. apply elem_of_app. left. by right.
      - apply Hsub, elem_of_app. by right.
      - apply Hsub. unfold frontier. rewrite Hr. apply elem_of_app. left. left. }
    destruct (scanRelations second (finishes w x) st1) as [[] st2]; simpl in *; [done|].
    apply IH; [done|done|]. rewrite Hv2, Hv1, length_app. simpl. lia.
Qed.

Lemma startState_frontier w first : frontier (startState w first) = [first].
Proof. done. Qed.

Lemma startState_NoDup w first : NoDup (frontier (startState w first)).
Proof. rewrite startState_frontier. apply NoDup_singleton. Qed.

Lemma searchLoop_returns w first second :
  is_Some (searchLoop (searchFuel w) w second (startState w first)).
Proof.
  apply (searchLoop_total _ _ _ _ (first :: allFinishes w)).
  - intros x y Hy. right. by eapply finishes_allFinishes.
  - rewrite startState_frontier. apply NoDup_singleton.
  - rewrite startState_frontier. intros x ->%list_elem_of_singleton. left.
  - unfold searchFuel, allFinishes. simpl.
    rewrite length_fmap, length_map_to_list. lia.
Qed.

Lemma Predecessor_returns w first second :
  ∃ res st, searchLoop (searchFuel w) w second (startState w first) = Some (res, st) ∧
            Predecessor w first second =
            Some (Outcome res
                    (World (relations w) (outgoingRelationList w) (incomingRelationList w)
                           (graphList (giveBack st)))
                    (trace st)).
Proof.
  destruct (searchLoop_returns w first second) as [[res st] Hrun].
  exists res, st. split; [done|]. unfold Predecessor. by rewrite Hrun.
Qed.

(** *** What the record of the frontier shows *)

Lemma snoc_eq_middle {A} (l t1 t2 : list A) (a b : A) :
  l ++ [a] = t1 ++ b :: t2 →
  (t2 = [] ∧ l = t1 ∧ a = b) ∨ (∃ t2', t2 = t2' ++ [a] ∧ l = t1 ++ b :: t2').
Proof.
  intros Heq. destruct t2 as [|c t2 _] using rev_ind.
  - left. apply (app_inj_tail l t1 a b) in Heq as [-> ->]. done.
  - right. exists t2. rewrite app_comm_cons, (assoc_L (++)) in Heq.
    apply app_inj_tail in Heq as [-> ->]. done.
Qed.


Lemma recorded_visit st x rest :
  recorded st → NoDup (frontier st) → readyList st = x :: rest →
  recorded (AppendListElement TheVisitedList x st).
Proof.
  intros (Hv & Hbefore & Henq) Hnd Hr.
  destruct (AppendListElement_visited x rest st Hnd Hr) as (Hr' & Hv' & _ & Ht').
  unfold recorded, frontier. rewrite Hr', Hv', Ht'. split_and!.
  - unfold visits in *. rewrite omap_app. simpl. by rewrite Hv.
  - intros t1 y t2 [(_ & _ & [=])|(t2' & _ & Heq)]%snoc_eq_middle.
    by eapply Hbefore.
  - intros y Hy. unfold enqueues in *. rewrite omap_app. simpl. rewrite app_nil_r.
    apply Henq. unfold frontier. rewrite Hr.
    apply elem_of_app in Hy as [Hy|[Hy| ->%list_elem_of_singleton]%elem_of_app].
    + apply elem_of_app. left. by right.
    + apply elem_of_app. by right.
    + apply elem_of_app. left. left.
Qed.

Lemma recorded_enqueue st finish :
  recorded st → finish ∉ visitedList st →
  recorded (AppendListElement TheReadyList finish st).
Proof.
  intros (Hv & Hbefore & Henq) Hnv.
  destruct (AppendListElement_ready finish st Hnv) as (Hr' & Hv' & _ & Ht').
  unfold recorded, frontier. rewrite Hr', Hv', Ht'. split_and!.
  - unfold visits in *. rewrite omap_app. simpl. by rewrite app_nil_r.
  - intros t1 y t2 [(_ & <- & [= <-])|(t2' & _ & Heq)]%snoc_eq_middle.
    + by rewrite Hv.
    + by eapply Hbefore.
  - intros y Hy. unfold enqueues in *. rewrite omap_app. simpl.
    apply elem_of_app in Hy as [[[Hy _]%elem_of_unlink| ->%list_elem_of_singleton]%elem_of_app|Hy].
    + apply elem_of_app. left. apply Henq, elem_of_app. by left.
    + apply elem_of_app. right. left.
    + apply elem_of_app. left. apply Henq, elem_of_app. by right.
Qed.

Lemma recorded_start w first : recorded (startState w first).
Proof.
  split_and!; [done| |].
  - intros t1 x t2 Heq. simpl in Heq.
    destruct t1 as [|ev t1]; [by intros ?%elem_of_nil|].
    injection Heq as _ Heq. by destruct t1.
  - rewrite startState_frontier. simpl. by intros x ->%list_elem_of_singleton; left.
Qed.

Lemma searchLoop_recorded w first second res st :
  searchLoop (searchFuel w) w second (startState w first) = Some (res, st) →
  recorded st ∧ NoDup (frontier st).
Proof.
  intros Hrun.
  destruct (searchLoop_ind recorded _ _ _ _ _ _
              (λ s x rest Hs Hnd Hr, recorded_visit s x rest Hs Hnd Hr)
              (λ s finish Hs _ Hnv _ _, recorded_enqueue s finish Hs Hnv)
              (startState_NoDup w first) (recorded_start w first) Hrun)
    as (? & ? & _).
  done.
Qed.

(** *** An element is not found from itself *)


Lemma searchLoop_startVisited w first second res st :
  searchLoop (searchFuel w) w second (startState w first) = Some (res, st) →
  startVisited first st.
Proof.
  intros Hrun.
  apply (searchLoop_ind (startVisited first) _ _ _ _ _ _) in Hrun as (? & _); try done.
  - intros s x rest Hs Hnd Hr.
    destruct (AppendListElement_visited x rest s Hnd Hr) as (_ & Hv' & _).
    left. rewrite Hv'. destruct Hs as [Hs|[Hh _]].
    + apply elem_of_app. by left.
    + rewrite Hr in Hh. injection Hh as ->. apply elem_of_app. right. left.
  - intros s finish Hs _ Hnv _ (x & Hx & _).
    destruct (AppendListElement_ready finish s Hnv) as (_ & Hv' & _).
    left. rewrite Hv'. destruct Hs as [Hs|[_ Hnil]]; [done|].
    rewrite Hnil in Hx. by apply elem_of_nil in Hx.
  - apply startState_NoDup.
  - by right.
Qed.

Lemma searchLoop_same_element w first res st :
  searchLoop (searchFuel w) w first (startState w first) = Some (res, st) →
  res = false.
Proof.
  intros Hrun. pose proof (searchLoop_startVisited _ _ _ _ _ Hrun) as Hstart.
  apply (searchLoop_ind (λ _, True) _ _ _ _ _ _) in Hrun as (_ & _ & Hres); try done.
  - destruct res; [|done]. destruct Hres as (x & Hx & _ & Hnv).
    destruct Hstart as [?|[_ Hnil]]; [done|].
    rewrite Hnil in Hx. by apply elem_of_nil in Hx.
  - apply startState_NoDup.
Qed.

(** *** Membership of the container *)

Lemma unlink_members x st :
  unlink x (graphList st) ++ unlink x (readyList st) ++ unlink x (visitedList st)
  = unlink x (members st).
Proof. unfold members. by rewrite !unlink_app. Qed.

Lemma members_move target x st :
  NoDup (members st) → x ∈ members st →
  members (AppendListElement target x st) ≡ₚ members st.
Proof.
  intros Hnd Hx. rewrite (unlink_perm x (members st) Hnd Hx) at 1.
  rewrite <- unlink_members. unfold members.
  destruct target; simpl.
  - rewrite <- !(assoc_L (++)). symmetry. apply Permutation_middle.
  - rewrite <- !(assoc_L (++)). rewrite (assoc_L (++)). simpl.
    rewrite <- Permutation_middle. by rewrite <- (assoc_L (++)).
  - rewrite !(assoc_L (++)). symmetry. apply Permutation_cons_append.
Qed.

Lemma drain_readyList n st :
  NoDup (members st) → length (readyList st) ≤ n →
  drain n readyList st =
  Search (graphList st ++ readyList st) [] (visitedList st) (trace st).
Proof.
  revert st. induction n as [|n IH]; intros [g r v t] Hnd Hlen; simpl in *.
  - destruct r; [by rewrite app_nil_r|simpl in Hlen; lia].
  - destruct r as [|x rest]; [by rewrite app_nil_r|].
    unfold members in Hnd. simpl in Hnd.
    apply NoDup_app in Hnd as (Hg & Hd & Hrest).
    apply NoDup_cons in Hrest as [Hx Hrest].
    apply not_elem_of_app in Hx as [Hxr Hxv].
    assert (x ∉ g) as Hxg by (intros Hin; apply (Hd x Hin); left).
    unfold AppendListElement. simpl.
    rewrite unlink_cons_eq, !unlink_absent by done.
    rewrite IH; simpl.
    + by rewrite <- (assoc_L (++)).
    + unfold members. simpl. rewrite <- (assoc_L (++)). simpl.
      apply NoDup_app. split_and!; [done| |].
      * intros y Hy. apply (Hd y Hy).
      * apply NoDup_cons. split; [by apply not_elem_of_app|done].
    + simpl in Hlen. lia.
Qed.

Lemma drain_visitedList n st :
  NoDup (members st) → readyList st = [] → length (visitedList st) ≤ n →
  drain n visitedList st =
  Search (graphList st ++ visitedList st) [] [] (trace st).
Proof.
  revert st. induction n as [|n IH]; intros [g r v t] Hnd Hr Hlen; simpl in *; subst r.
  - destruct v; [by rewrite app_nil_r|simpl in Hlen; lia].
  - destruct v as [|x rest]; [by rewrite app_nil_r|].
    unfold members in Hnd. simpl in Hnd.
    apply NoDup_app in Hnd as (Hg & Hd & Hrest).
    apply NoDup_cons in Hrest as [Hx Hrest].
    assert (x ∉ g) as Hxg by (intros Hin; apply (Hd x Hin); left).
    unfold AppendListElement. simpl.
    rewrite unlink_cons_eq, (unlink_absent x g), (unlink_absent x rest) by done.
    rewrite IH; simpl.
    + by rewrite <- (assoc_L (++)).
    + unfold members. simpl. rewrite <- (assoc_L (++)). simpl.
      apply NoDup_app. split_and!; [done| |by apply NoDup_cons].
      intros y Hy. apply (Hd y Hy).
    + done.
    + simpl in Hlen. lia.
Qed.

Lemma giveBack_graphList st :
  NoDup (members st) → graphList (giveBack st) = members st.
Proof.
  intros Hnd. unfold giveBack.
  rewrite (drain_readyList _ st Hnd) by done. simpl.
  rewrite drain_visitedList; simpl; try done.
  - unfold members. by rewrite <- (assoc_L (++)).
  - unfold members in *. simpl. by rewrite <- (assoc_L (++)).
Qed.


Lemma frontier_members st x : x ∈ frontier st → x ∈ members st.
Proof. unfold frontier, members. intros Hx. apply elem_of_app. by right. Qed.

Lemma searchLoop_kept w first second res st :
  NoDup (elementList w) →
  (∀ x, x = first ∨ path w first x → x ∈ elementList w) →
  searchLoop (searchFuel w) w second (startState w first) = Some (res, st) →
  kept w first st.
Proof.
  intros Hnd Hclosed Hrun.
  apply (searchLoop_ind (kept w first) _ _ _ _ _ _) in Hrun as (? & _); try done.
  - intros s x rest [Hm Hreach] Hnds Hr.
    assert (x ∈ frontier s) as Hx.
    { unfold frontier. rewrite Hr. apply elem_of_app. left. left. }
    split.
    + rewrite members_move; [done| |by apply frontier_members].
      by rewrite Hm.
    + destruct (AppendListElement_visited x rest s Hnds Hr) as (Hr' & Hv' & _).
      intros y. unfold frontier. rewrite Hr', Hv'.
      intros [Hy|[Hy| ->%list_elem_of_singleton]%elem_of_app]%elem_of_app.
      * apply Hreach. unfold frontier. rewrite Hr. apply elem_of_app. left. by right.
      * apply Hreach, elem_of_app. by right.
      * by apply Hreach.
  - intros s finish [Hm Hreach] Hnds Hnv _ (x & Hx & Hfin).
    assert (path w first finish) as Hpath.
    { destruct (Hreach x) as [->|Hp]; [apply elem_of_app; by right| |].
      - by apply tc_once.
      - by eapply tc_r. }
    split.
    + rewrite members_move; [done|by rewrite Hm|].
      rewrite Hm. apply Hclosed. by right.
    + destruct (AppendListElement_ready finish s Hnv) as (Hr' & Hv' & _).
      intros y. unfold frontier. rewrite Hr', Hv'.
      intros [[[Hy _]%elem_of_unlink| ->%list_elem_of_singleton]%elem_of_app|Hy]%elem_of_app.
      * apply Hreach, elem_of_app. by left.
      * by right.
      * apply Hreach, elem_of_app. by right.
  - apply startState_NoDup.
  - split.
    + unfold startState. rewrite members_move.
      * unfold members. simpl. by rewrite app_nil_r.
      * unfold members. simpl. by rewrite app_nil_r.
      * unfold members. simpl. rewrite app_nil_r. apply Hclosed. by left.
    + rewrite startState_frontier. intros x ->%list_elem_of_singleton. by left.
Qed.

(** *** The search finds exactly what can be reached *)

Lemma searchLoop_reached w first second res st :
  searchLoop (searchFuel w) w second (startState w first) = Some (res, st) →
  ∀ x, x ∈ frontier st → x = first ∨ path w first x.
Proof.
  intros Hrun.
  apply (searchLoop_ind (λ s, ∀ x, x ∈ frontier s → x = first ∨ path w first x)
           _ _ _ _ _ _) in Hrun as (? & _); try done.
  - intros s x rest Hreach Hnds Hr.
    destruct (AppendListElement_visited x rest s Hnds Hr) as (Hr' & Hv' & _).
    intros y. unfold frontier. rewrite Hr', Hv'.
    intros [Hy|[Hy| ->%list_elem_of_singleton]%elem_of_app]%elem_of_app.
    + apply Hreach. unfold frontier. rewrite Hr. apply elem_of_app. left. by right.
    + apply Hreach, elem_of_app. by right.
    + apply Hreach. unfold frontier. rewrite Hr. apply elem_of_app. left. left.
  - intros s finish Hreach Hnds Hnv _ (x & Hx & Hfin).
    destruct (AppendListElement_ready finish s Hnv) as (Hr' & Hv' & _).
    intros y. unfold frontier. rewrite Hr', Hv'.
    intros [[[Hy _]%elem_of_unlink| ->%list_elem_of_singleton]%elem_of_app|Hy]%elem_of_app.
    + apply Hreach, elem_of_app. by left.
    + right. destruct (Hreach x) as [->|Hp]; [apply elem_of_app; by right| |].
      * by apply tc_once.
      * by eapply tc_r.
    + apply Hreach, elem_of_app. by right.
  - apply startState_NoDup.
  - rewrite startState_frontier. intros x ->%list_elem_of_singleton. by left.
Qed.

Lemma searchLoop_sound w first second st :
  searchLoop (searchFuel w) w second (startState w first) = Some (true, st) →
  second ≠ first ∧ path w first second.
Proof.
  intros Hrun.
  pose proof (searchLoop_reached _ _ _ _ _ Hrun) as Hreach.
  pose proof (searchLoop_startVisited _ _ _ _ _ Hrun) as Hstart.
  apply (searchLoop_ind (λ _, True) _ _ _ _ _ _) in Hrun
    as (_ & _ & (x & Hx & Hfin & Hnv)); try done; [|apply startState_NoDup].
  split.
  - intros ->. destruct Hstart as [?|[_ Hnil]]; [done|].
    rewrite Hnil in Hx. by apply elem_of_nil in Hx.
  - destruct (Hreach x) as [->|Hp]; [apply elem_of_app; by right| |].
    + by apply tc_once.
    + by eapply tc_r.
Qed.


Lemma scanRelations_false second fs st st2 :
  scanRelations second fs st = (false, st2) →
  (∀ y, y ∈ frontier st → y ∈ frontier st2) ∧
  (∀ y, y ∈ fs → y ∈ frontier st2) ∧
  (∀ y, y ∈ frontier st2 → y ∈ frontier st ∨ (y ∈ fs ∧ y ≠ second)) ∧
  visitedList st2 = visitedList st.
Proof.
  revert st. induction fs as [|finish rest IH]; intros st Hscan.
  - injection Hscan as <-. split_and!; try done. by intros y ?%elem_of_nil. by left.
  - simpl in Hscan. unfold Member_visitedList in Hscan.
    case_bool_decide as Hv.
    + destruct (IH st Hscan) as (Hmono & Hfs & Hnew & Hvis). split_and!; try done.
      * intros y [->|Hy]%elem_of_cons; [|by apply Hfs].
        apply Hmono, elem_of_app. by right.
      * intros y [?|[? ?]]%Hnew; [by left|]. right. split; [by right|done].
    + case_decide as Hs; [done|].
      destruct (AppendListElement_ready finish st Hv) as (Hr' & Hv' & _).
      destruct (IH _ Hscan) as (Hmono & Hfs & Hnew & Hvis).
      assert (∀ y, y ∈ frontier st → y ∈ frontier (AppendListElement TheReadyList finish st))
        as Hstep.
      { intros y. unfold frontier. rewrite Hr', Hv'.
        intros [Hy|Hy]%elem_of_app; [|apply elem_of_app; by right].
        apply elem_of_app. left. destruct (decide (y = finish)) as [->|Hne].
        - apply elem_of_app. right. left.
        - apply elem_of_app. left. by apply elem_of_unlink. }
      split_and!.
      * intros y Hy. by apply Hmono, Hstep.
      * intros y [->|Hy]%elem_of_cons; [|by apply Hfs].
        apply Hmono. unfold frontier. rewrite Hr'.
        apply elem_of_app. left. apply elem_of_app. right. left.
      * intros y [Hy|[? ?]]%Hnew; [|right; split; [by right|done]].
        revert Hy. unfold frontier. rewrite Hr', Hv'.
        intros [[[Hy _]%elem_of_unlink| ->%list_elem_of_singleton]%elem_of_app|Hy]%elem_of_app.
        -- left. apply elem_of_app. by left.
        -- right. split; [left|done].
        -- left. apply elem_of_app. by right.
      * by rewrite Hvis.
Qed.

Lemma searchLoop_closed fuel w first second st st' :
  searchLoop fuel w second st = Some (false, st') →
  NoDup (frontier st) → closed w first second st →
  closed w first second st' ∧ readyList st' = [].
Proof.
  revert st. induction fuel as [|fuel IH]; intros st Hrun Hnd Hcl; [done|].
  rewrite searchLoop_unfold in Hrun. destruct (readyList st) as [|x rest] eqn:Hr.
  - by injection Hrun as <-.
  - cbv zeta in Hrun. set (st1 := AppendListElement TheVisitedList x st) in *.
    destruct (AppendListElement_visited x rest st Hnd Hr) as (Hr1 & Hv1 & _).
    fold st1 in Hr1, Hv1.
    assert (∀ y, y ∈ frontier st ↔ y ∈ frontier st1) as Hsame.
    { intros y. unfold frontier. rewrite Hr, Hr1, Hv1.
      rewrite !elem_of_app, elem_of_cons, list_elem_of_singleton. tauto. }
    assert (NoDup (frontier st1)) as Hnd1 by by eapply NoDup_frontier_visited.
    pose proof (scanRelations_ind (λ s, NoDup (frontier s)) second (finishes w x) st1)
      as Hnd2.
    destruct (scanRelations second (finishes w x) st1) as [[] st2] eqn:Hscan; [done|].
    simpl in Hnd2.
    destruct (scanRelations_false _ _ _ _ Hscan) as (Hmono & Hfs & Hnew & Hvis).
    destruct Hcl as (Hsucc & Hsecond & Hfirst).
    apply (IH st2 Hrun).
    + apply Hnd2; [|done]. intros s finish Hs _ Hnv _. by apply NoDup_frontier_ready.
    + split_and!.
      * intros x' y. rewrite Hvis, Hv1.
        intros [Hx'| ->%list_elem_of_singleton]%elem_of_app Hy.
        -- by eapply Hmono, Hsame, Hsucc.
        -- by apply Hfs.
      * intros [Hin|[_ ?]]%Hnew; [|done]. by apply Hsecond, Hsame.
      * by apply Hmono, Hsame.
Qed.

Lemma searchLoop_complete w first second st :
  searchLoop (searchFuel w) w second (startState w first) = Some (false, st) →
  path w first second → second = first.
Proof.
  intros Hrun Hpath.
  destruct (searchLoop_closed _ _ first _ _ _ Hrun) as ((Hsucc & Hsecond & Hfirst) & Hr).
  - apply startState_NoDup.
  - split_and!.
    + by intros x y ?%elem_of_nil.
    + rewrite startState_frontier. by intros ->%list_elem_of_singleton.
    + rewrite startState_frontier. left.
  - unfold frontier in Hsucc, Hsecond, Hfirst.
    rewrite Hr in Hsucc, Hsecond, Hfirst. simpl in Hsucc, Hsecond, Hfirst.
    apply Hsecond. clear Hsecond Hrun. revert Hfirst.
    induction Hpath as [x y Hxy|x y z Hxy _ IH]; intros Hx.
    + by eapply Hsucc.
    + apply IH. by eapply Hsucc.
Qed.

Lemma Predecessor_result w first second :
  ∃ o, Predecessor w first second = Some o ∧
       (result o = true ↔ second ≠ first ∧ path w first second).
Proof.
  destruct (Predecessor_returns w first second) as (res & st & Hrun & ->).
  eexists. split; [done|]. simpl. destruct res.
  - split; [intros _; by eapply searchLoop_sound|done].
  - split; [done|]. intros [Hne Hpath]. destruct Hne.
    by eapply searchLoop_complete.
Qed.

End SearchFacts.

Section RemovalFacts.
Implicit Types (w : world) (r : rel) (e a : elem) (R : GraphRelationFinish).

(** *** Destroying one relation *)

Lemma startOf_Some w r e :
  startOf w r = Some e ↔ ∃ R, relations w !! r = Some R ∧ startElement R = e.
Proof.
  unfold startOf. destruct (relations w !! r) as [R|]; simpl.
  - split; [intros [= <-]; by exists R|by intros (? & [= <-] & <-)].
  - split; [done|by intros (? & ? & _)].
Qed.

Lemma finishOf_Some w r e :
  finishOf w r = Some e ↔ ∃ R, relations w !! r = Some R ∧ finishElement R = e.
Proof.
  unfold finishOf. destruct (relations w !! r) as [R|]; simpl.
  - split; [intros [= <-]; by exists R|by intros (? & [= <-] & <-)].
  - split; [done|by intros (? & ? & _)].
Qed.

Lemma list_update_lookup (m : gmap elem (list rel)) e e' l :
  default [] (<[e := l]> m !! e') = if decide (e' = e) then l else default [] (m !! e').
Proof.
  case_decide as He.
  - subst. by rewrite lookup_insert_eq.
  - by rewrite lookup_insert_ne.
Qed.

Lemma destroyRelation_spec w r R :
  wf w → relations w !! r = Some R →
  let w' := destroyRelation r w in
  wf w' ∧ relations w' = delete r (relations w) ∧
  (∀ e, outgoing w' e = unlink r (outgoing w e)) ∧
  (∀ e, incoming w' e = unlink r (incoming w e)) ∧
  elementList w' = elementList w.
Proof.
  intros [Hout Hin Hnout Hnin] HR w'. unfold w', destroyRelation. rewrite HR.
  assert (∀ e, outgoing (destroyRelation r w) e = unlink r (outgoing w e)) as Ho.
  { intros e. unfold destroyRelation, outgoing at 1. rewrite HR. simpl.
    rewrite list_update_lookup. case_decide as He; [by subst|].
    fold (outgoing w e). symmetry. apply unlink_absent.
    rewrite Hout. intros (R' & HR' & Hs). congruence. }
  assert (∀ e, incoming (destroyRelation r w) e = unlink r (incoming w e)) as Hi.
  { intros e. unfold destroyRelation, incoming at 1. rewrite HR. simpl.
    rewrite list_update_lookup. case_decide as He; [by subst|].
    fold (incoming w e). symmetry. apply unlink_absent.
    rewrite Hin. intros (R' & HR' & Hs). congruence. }
  unfold destroyRelation in Ho, Hi. rewrite HR in Ho, Hi.
  split_and!; try done. split.
  - intros e r'. rewrite Ho, elem_of_unlink, Hout. simpl.
    split.
    + intros [(R' & HR' & Hs) Hne]. exists R'. by rewrite lookup_delete_ne.
    + intros (R' & [Hne HR']%lookup_delete_Some & Hs). split; [by exists R'|done].
  - intros e r'. rewrite Hi, elem_of_unlink, Hin. simpl.
    split.
    + intros [(R' & HR' & Hs) Hne]. exists R'. by rewrite lookup_delete_ne.
    + intros (R' & [Hne HR']%lookup_delete_Some & Hs). split; [by exists R'|done].
  - intros e. rewrite Ho. by apply NoDup_unlink.
  - intros e. rewrite Hi. by apply NoDup_unlink.
Qed.

Lemma filter_all (P : rel → Prop) `{!∀ x, Decision (P x)} (l : list rel) :
  (∀ x, x ∈ l → P x) → filter P l = l.
Proof.
  induction l as [|x l IH]; intros Hall; [done|].
  rewrite filter_cons_True by (apply Hall; left).
  f_equal. apply IH. intros y Hy. apply Hall. by right.
Qed.

Lemma filter_not_in_nil (l : list rel) : filter (λ r, r ∉ ([] : list rel)) l = l.
Proof. apply filter_all. intros x _. apply not_elem_of_nil. Qed.

(** *** Purging a list of relations *)

Section Purge.
(** The list being purged: the incoming or the outgoing list of one
    element. *)
Variable get : world → list rel.
Hypothesis get_live : ∀ w r, wf w → r ∈ get w → is_Some (relations w !! r).
Hypothesis get_NoDup : ∀ w, wf w → NoDup (get w).
Hypothesis get_destroy : ∀ w r, wf w → is_Some (relations w !! r) →
  get (destroyRelation r w) = unlink r (get w).

Lemma PurgeList_spec n w :
  wf w → length (get w) ≤ n →
  let w' := PurgeList n get w in
  wf w' ∧ get w' = [] ∧
  (∀ r, relations w' !! r = if decide (r ∈ get w) then None else relations w !! r) ∧
  (∀ e, outgoing w' e = filter (λ r, r ∉ get w) (outgoing w e)) ∧
  (∀ e, incoming w' e = filter (λ r, r ∉ get w) (incoming w e)) ∧
  elementList w' = elementList w.
Proof.
  revert w. induction n as [|n IH]; intros w Hwf Hlen; simpl.
  - destruct (get w) as [|r rest] eqn:Hg; [|simpl in Hlen; lia].
    split_and!; try done.
    + intros e. by rewrite filter_not_in_nil.
    + intros e. by rewrite filter_not_in_nil.
  - destruct (get w) as [|r rest] eqn:Hg.
    + split_and!; try done.
      * intros e. by rewrite filter_not_in_nil.
      * intros e. by rewrite filter_not_in_nil.
    + assert (is_Some (relations w !! r)) as [R HR].
      { apply get_live; [done|]. rewrite Hg. left. }
      destruct (destroyRelation_spec w r R Hwf HR) as (Hwf1 & Hrel1 & Ho1 & Hi1 & He1).
      pose proof (get_NoDup w Hwf) as Hnd. rewrite Hg in Hnd.
      apply NoDup_cons in Hnd as [Hr Hnd].
      assert (get (destroyRelation r w) = rest) as Hg1.
      { rewrite get_destroy by done. rewrite Hg, unlink_cons_eq.
        by apply unlink_absent. }
      destruct (IH (destroyRelation r w) Hwf1) as (Hwf2 & Hg2 & Hrel2 & Ho2 & Hi2 & He2).
      { rewrite Hg1. simpl in Hlen. lia. }
      rewrite Hg1 in Hrel2, Ho2, Hi2.
      split_and!; try done.
      * intros r'. rewrite Hrel2, Hrel1.
        destruct (decide (r' = r)) as [->|Hne].
        -- rewrite decide_False by done. rewrite decide_True by left.
           apply lookup_delete_eq.
        -- rewrite lookup_delete_ne by done.
           destruct (decide (r' ∈ rest)).
           ++ rewrite decide_True; [done|by right].
           ++ rewrite decide_False; [done|]. by intros [?|?]%elem_of_cons.
      * intros e. rewrite Ho2, Ho1. unfold unlink. rewrite list_filter_filter.
        apply list_filter_iff. intros r'. rewrite not_elem_of_cons. tauto.
      * intros e. rewrite Hi2, Hi1. unfold unlink. rewrite list_filter_filter.
        apply list_filter_iff. intros r'. rewrite not_elem_of_cons. tauto.
      * congruence.
Qed.
End Purge.

Lemma incoming_purgeable a :
  (∀ w r, wf w → r ∈ incoming w a → is_Some (relations w !! r)) ∧
  (∀ w, wf w → NoDup (incoming w a)) ∧
  (∀ w r, wf w → is_Some (relations w !! r) →
          incoming (destroyRelation r w) a = unlink r (incoming w a)).
Proof.
  split_and!.
  - intros w r Hwf (R & -> & _)%(wf_incoming _ Hwf). by eexists.
  - intros w Hwf. apply (wf_incoming_NoDup _ Hwf).
  - intros w r Hwf [R HR]. by destruct (destroyRelation_spec w r R Hwf HR) as (_ & _ & _ & -> & _).
Qed.

Lemma outgoing_purgeable a :
  (∀ w r, wf w → r ∈ outgoing w a → is_Some (relations w !! r)) ∧
  (∀ w, wf w → NoDup (outgoing w a)) ∧
  (∀ w r, wf w → is_Some (relations w !! r) →
          outgoing (destroyRelation r w) a = unlink r (outgoing w a)).
Proof.
  split_and!.
  - intros w r Hwf (R & -> & _)%(wf_outgoing _ Hwf). by eexists.
  - intros w Hwf. apply (wf_outgoing_NoDup _ Hwf).
  - intros w r Hwf [R HR]. by destruct (destroyRelation_spec w r R Hwf HR) as (_ & _ & -> & _).
Qed.

(** *** Removing an element *)

Lemma elem_of_incoming w a r : wf w → r ∈ incoming w a ↔ finishOf w r = Some a.
Proof. intros Hwf. by rewrite (wf_incoming _ Hwf), finishOf_Some. Qed.

Lemma elem_of_outgoing w a r : wf w → r ∈ outgoing w a ↔ startOf w r = Some a.
Proof. intros Hwf. by rewrite (wf_outgoing _ Hwf), startOf_Some. Qed.

Lemma RemoveGraphElement_spec w a :
  wf w →
  let w' := RemoveGraphElement a w in
  wf w' ∧
  (∀ r, relations w' !! r = if decide (incident w a r) then None else relations w !! r) ∧
  (∀ e, outgoing w' e = filter (λ r, ¬ incident w a r) (outgoing w e)) ∧
  (∀ e, incoming w' e = filter (λ r, ¬ incident w a r) (incoming w e)) ∧
  elementList w' = unlink a (elementList w).
Proof.
  intros Hwf w'.
  destruct (incoming_purgeable a) as (Hi1 & Hi2 & Hi3).
  destruct (outgoing_purgeable a) as (Ho1 & Ho2 & Ho3).
  destruct (PurgeList_spec (λ w0, incoming w0 a) Hi1 Hi2 Hi3
              (length (incoming w a)) w Hwf) as (Hwf1 & _ & Hrel1 & Hout1 & Hin1 & He1);
    [done|].
  fold (PurgeIncomingRelations a w) in Hwf1, Hrel1, Hout1, Hin1, He1.
  set (w1 := PurgeIncomingRelations a w) in *.
  destruct (PurgeList_spec (λ w0, outgoing w0 a) Ho1 Ho2 Ho3
              (length (outgoing w1 a)) w1 Hwf1) as (Hwf2 & _ & Hrel2 & Hout2 & Hin2 & He2);
    [done|].
  fold (PurgeOutgoingRelations a w1) in Hwf2, Hrel2, Hout2, Hin2, He2.
  set (w2 := PurgeOutgoingRelations a w1) in *.
  assert (∀ r, ((r ∉ outgoing w1 a) ∧ (r ∉ incoming w a)) ↔ ¬ incident w a r) as Hinc.
  { intros r. rewrite Hout1, list_elem_of_filter.
    rewrite (elem_of_incoming w a r Hwf), (elem_of_outgoing w a r Hwf).
    unfold incident. destruct (decide (finishOf w r = Some a)); tauto. }
  split_and!.
  - destruct Hwf2 as [? ? ? ?]. by split.
  - intros r. change (relations w' !! r) with (relations w2 !! r).
    rewrite Hrel2, Hrel1. specialize (Hinc r).
    repeat case_decide; try done; tauto.
  - intros e. change (outgoing w' e) with (outgoing w2 e).
    rewrite Hout2, (Hout1 e), list_filter_filter. by apply list_filter_iff.
  - intros e. change (incoming w' e) with (incoming w2 e).
    rewrite Hin2, (Hin1 e), list_filter_filter. by apply list_filter_iff.
  - unfold w'. simpl. fold w1 w2. by rewrite He2, He1.
Qed.

Lemma filter_ext_in (P Q : rel → Prop)
    `{!∀ x, Decision (P x), !∀ x, Decision (Q x)} (l : list rel) :
  (∀ x, x ∈ l → P x ↔ Q x) → filter P l = filter Q l.
Proof.
  induction l as [|x l IH]; intros Hext; [done|].
  assert (filter P l = filter Q l) as IH' by (apply IH; intros y Hy; apply Hext; by right).
  destruct (decide (P x)) as [HP|HP].
  - rewrite (filter_cons_True P) by done.
    rewrite (filter_cons_True Q) by (apply Hext; [left|done]). by rewrite IH'.
  - rewrite (filter_cons_False P) by done.
    rewrite (filter_cons_False Q); [done|]. rewrite <- Hext; [done|left].
Qed.

Lemma filter_none_in (P : rel → Prop) `{!∀ x, Decision (P x)} (l : list rel) :
  (∀ x, x ∈ l → ¬ P x) → filter P l = [].
Proof.
  induction l as [|x l IH]; intros Hall; [done|].
  rewrite filter_cons_False by (apply Hall; left).
  apply IH. intros y Hy. apply Hall. by right.
Qed.

Lemma length_filter_split (P : rel → Prop) `{!∀ x, Decision (P x)} (l : list rel) :
  length (filter (λ x, ¬ P x) l) + length (filter P l) = length l.
Proof.
  rewrite <- (filter_app_complement P l) at 3. rewrite length_app. lia.
Qed.

(** *** Building graphs *)

Lemma wf_emptyGraph : wf emptyGraph.
Proof.
  split.
  - intros e r. split; [by intros ?%elem_of_nil|]. by intros (R & ? & _).
  - intros e r. split; [by intros ?%elem_of_nil|]. by intros (R & ? & _).
  - intros e. constructor.
  - intros e. constructor.
Qed.

Lemma wf_AddGraphElement e w : wf w → wf (AddGraphElement e w).
Proof. intros [? ? ? ?]. by split. Qed.

Lemma wf_newRelation r start finish w :
  relations w !! r = None → wf w → wf (newRelation r start finish w).
Proof.
  intros Hfresh [Hout Hin Hnout Hnin].
  assert (∀ e, r ∉ outgoing w e) as Hro.
  { intros e (R & ? & _)%Hout. congruence. }
  assert (∀ e, r ∉ incoming w e) as Hri.
  { intros e (R & ? & _)%Hin. congruence. }
  split.
  - intros e r'. unfold outgoing at 1. simpl. rewrite list_update_lookup.
    fold (outgoing w e). case_decide as He.
    + subst e. rewrite elem_of_app, list_elem_of_singleton, Hout. split.
      * intros [(R & HR & Hs)| ->].
        -- exists R. rewrite lookup_insert_ne by congruence. done.
        -- eexists. by rewrite lookup_insert_eq.
      * intros (R & HR & Hs). destruct (decide (r' = r)) as [->|Hne]; [by right|].
        left. exists R. by rewrite lookup_insert_ne in HR.
    + rewrite Hout. split.
      * intros (R & HR & Hs). exists R. rewrite lookup_insert_ne by congruence. done.
      * intros (R & HR & Hs). destruct (decide (r' = r)) as [->|Hne].
        -- rewrite lookup_insert_eq in HR. injection HR as <-. done.
        -- exists R. by rewrite lookup_insert_ne in HR.
  - intros e r'. unfold incoming at 1. simpl. rewrite list_update_lookup.
    fold (incoming w e). case_decide as He.
    + subst e. rewrite elem_of_app, list_elem_of_singleton, Hin. split.
      * intros [(R & HR & Hs)| ->].
        -- exists R. rewrite lookup_insert_ne by congruence. done.
        -- eexists. by rewrite lookup_insert_eq.
      * intros (R & HR & Hs). destruct (decide (r' = r)) as [->|Hne]; [by right|].
        left. exists R. by rewrite lookup_insert_ne in HR.
    + rewrite Hin. split.
      * intros (R & HR & Hs). exists R. rewrite lookup_insert_ne by congruence. done.
      * intros (R & HR & Hs). destruct (decide (r' = r)) as [->|Hne].
        -- rewrite lookup_insert_eq in HR. injection HR as <-. done.
        -- exists R. by rewrite lookup_insert_ne in HR.
  - intros e. unfold outgoing at 1. simpl. rewrite list_update_lookup.
    fold (outgoing w e). case_decide; [|done]. subst.
    apply NoDup_app. split_and!; [done| |apply NoDup_singleton].
    intros x Hx ->%list_elem_of_singleton. by apply (Hro start).
  - intros e. unfold incoming at 1. simpl. rewrite list_update_lookup.
    fold (incoming w e). case_decide; [|done]. subst.
    apply NoDup_app. split_and!; [done| |apply NoDup_singleton].
    intros x Hx ->%list_elem_of_singleton. by apply (Hri finish).
Qed.

Lemma edge_relations w x y :
  wf w → edge w x y ↔ Relation x y ∈ (snd <$> map_to_list (relations w)).
Proof.
  intros Hwf. unfold edge, finishes. rewrite list_elem_of_omap. split.
  - intros (r & (R & HR & Hs)%(wf_outgoing _ Hwf) & Hf).
    unfold finishOf in Hf. rewrite HR in Hf. injection Hf as <-. subst x.
    apply list_elem_of_fmap. exists (r, R). split; [by destruct R|].
    by apply elem_of_map_to_list.
  - intros ([r R] & HR & Hin%elem_of_map_to_list)%list_elem_of_fmap. simpl in HR. subst R.
    exists r. split.
    + apply (wf_outgoing _ Hwf). by eexists.
    + unfold finishOf. by rewrite Hin.
Qed.

Lemma path_allFinishes w x y : path w x y → y ∈ allFinishes w.
Proof.
  induction 1 as [x y Hxy|x y z _ _ IH]; [|done]. by eapply finishes_allFinishes.
Qed.

End RemovalFacts.

Section GraphClaims.
Implicit Types (w : world) (r : rel) (e a first second : elem).

(** ** The graph claims *)

(** C2.  In a graph whose relations are exactly A→B and B→C, for
    distinct elements A, B and C, [Predecessor(A, C)] returns [true],
    and [Predecessor(C, A)] and [Predecessor(B, A)] return [false]. *)
Theorem Predecessor_chain w A B C :
  A ≠ B → B ≠ C → A ≠ C →
  (∀ x y, edge w x y ↔ (x = A ∧ y = B) ∨ (x = B ∧ y = C)) →
  (∃ o, Predecessor w A C = Some o ∧ result o = true) ∧
  (∃ o, Predecessor w C A = Some o ∧ result o = false) ∧
  (∃ o, Predecessor w B A = Some o ∧ result o = false).
Proof.
  intros HAB HBC HAC Hedge.
  assert (∀ y, ¬ path w C y) as HC.
  { intros y Hp. inversion Hp as [? ? He|? z ? He _]; subst;
      apply Hedge in He as [[? _]|[? _]]; congruence. }
  split_and!.
  - destruct (Predecessor_result w A C) as (o & Ho & Hres). exists o. split; [done|].
    apply Hres. split; [done|]. apply (tc_l _ A B C).
    + apply Hedge. by left.
    + apply tc_once, Hedge. by right.
  - destruct (Predecessor_result w C A) as (o & Ho & Hres). exists o. split; [done|].
    destruct (result o); [|done]. destruct (proj1 Hres eq_refl) as [_ Hp].
    by apply HC in Hp.
  - destruct (Predecessor_result w B A) as (o & Ho & Hres). exists o. split; [done|].
    destruct (result o); [|done]. destruct (proj1 Hres eq_refl) as [_ Hp].
    inversion Hp as [? ? He|? z ? He Hp']; subst.
    + apply Hedge in He as [[? _]|[_ ?]]; congruence.
    + apply Hedge in He as [[? _]|[_ ->]]; [congruence|]. by apply HC in Hp'.
Qed.

(** [Predecessor(a, a)] returns [false] in every graph: [a] is in
    [visitedList] before any relation is looked at, and the comparison
    with [second] is made only for elements outside [visitedList]. *)
Lemma Predecessor_same_element w a :
  ∃ o, Predecessor w a a = Some o ∧ result o = false.
Proof.
  destruct (Predecessor_result w a a) as (o & Ho & Hres). exists o. split; [done|].
  destruct (result o); [|done]. by destruct (proj1 Hres eq_refl) as [? _].
Qed.

(** C3.  With a relation from an element to itself there is a path of
    one relation from the element back to it, and [Predecessor] called
    with the element twice returns [false]. *)
Theorem Predecessor_self_loop :
  path selfLoopGraph 0 0 ∧
  ∃ o, Predecessor selfLoopGraph 0 0 = Some o ∧ result o = false.
Proof.
  split; [|apply Predecessor_same_element].
  apply tc_once. unfold edge. evaluate.
Qed.

(** C7.  [RemoveGraphElement(a)] destroys every relation that starts or
    finishes at [a]: the relation object is gone and is a member of no
    list.  The other relations stay.  The lists of [a] are empty, and
    the outgoing (incoming) count of every other element has dropped by
    the number of its relations that finished (started) at [a].  [a]
    has left the container. *)
Theorem RemoveGraphElement_destroys_relations w a :
  wf w →
  let w' := RemoveGraphElement a w in
  (∀ r, incident w a r →
        relations w' !! r = None ∧ ∀ e, (r ∉ outgoing w' e) ∧ (r ∉ incoming w' e)) ∧
  (∀ r, ¬ incident w a r → relations w' !! r = relations w !! r) ∧
  outgoing w' a = [] ∧ incoming w' a = [] ∧
  (∀ n, n ≠ a →
        GetOutgoingRelationCount w' n
          + length (filter (λ r, finishOf w r = Some a) (outgoing w n))
        = GetOutgoingRelationCount w n ∧
        GetIncomingRelationCount w' n
          + length (filter (λ r, startOf w r = Some a) (incoming w n))
        = GetIncomingRelationCount w n) ∧
  elementList w' = unlink a (elementList w) ∧
  wf w'.
Proof.
  intros Hwf w'.
  destruct (RemoveGraphElement_spec w a Hwf) as (Hwf' & Hrel & Hout & Hin & Hel).
  fold w' in Hwf', Hrel, Hout, Hin, Hel.
  split_and!; try done.
  - intros r Hr. split.
    + rewrite Hrel. by rewrite decide_True.
    + intros e. rewrite Hout, Hin, !list_elem_of_filter. tauto.
  - intros r Hr. rewrite Hrel. by rewrite decide_False.
  - rewrite Hout. apply filter_none_in. intros r Hr. intros Hn. apply Hn. left.
    by apply elem_of_outgoing.
  - rewrite Hin. apply filter_none_in. intros r Hr. intros Hn. apply Hn. right.
    by apply elem_of_incoming.
  - intros n Hn. unfold GetOutgoingRelationCount, GetIncomingRelationCount. split.
    + rewrite Hout, <- (length_filter_split (λ r, finishOf w r = Some a) (outgoing w n)).
      f_equal. f_equal. apply filter_ext_in. intros r Hr%(elem_of_outgoing w n r Hwf).
      unfold incident. rewrite Hr. split; [tauto|]. intros ? [[=]|?]; done.
    + rewrite Hin, <- (length_filter_split (λ r, startOf w r = Some a) (incoming w n)).
      f_equal. f_equal. apply filter_ext_in. intros r Hr%(elem_of_incoming w n r Hwf).
      unfold incident. rewrite Hr. split; [tauto|]. intros ? [?|[=]]; done.
Qed.

(** C8.  When the members of the container have no duplicates and
    [first] and everything that can be reached from [first] are
    members, [Predecessor] returns, the members of the container after
    the call are those before it, each once, and nothing else of the
    graph has changed. *)
Theorem Predecessor_keeps_members w first second :
  NoDup (elementList w) →
  (∀ x, x = first ∨ path w first x → x ∈ elementList w) →
  ∃ o, Predecessor w first second = Some o ∧
       elementList (after o) ≡ₚ elementList w ∧
       NoDup (elementList (after o)) ∧
       relations (after o) = relations w ∧
       outgoingRelationList (after o) = outgoingRelationList w ∧
       incomingRelationList (after o) = incomingRelationList w.
Proof.
  intros Hnd Hclosed.
  destruct (Predecessor_returns w first second) as (res & st & Hrun & ->).
  eexists. split; [done|]. simpl.
  destruct (searchLoop_kept _ _ _ _ _ Hnd Hclosed Hrun) as [Hm _].
  assert (NoDup (members st)) as Hndm by by rewrite Hm.
  rewrite (giveBack_graphList st Hndm). by split_and!.
Qed.

(** C9.  [Predecessor] returns, and in the record of its frontier no
    element is visited (taken off [readyList]) twice, no element is
    enqueued once it has been visited, and what is visited has been
    enqueued. *)
Theorem Predecessor_visits_once w first second :
  ∃ o, Predecessor w first second = Some o ∧
       NoDup (visits (events o)) ∧
       (∀ t1 x t2, events o = t1 ++ Enqueue x :: t2 → x ∉ visits t1) ∧
       (∀ x, x ∈ visits (events o) → x ∈ enqueues (events o)).
Proof.
  destruct (Predecessor_returns w first second) as (res & st & Hrun & ->).
  eexists. split; [done|]. simpl.
  destruct (searchLoop_recorded _ _ _ _ _ Hrun) as ((Hv & Hbefore & Henq) & Hnd).
  split_and!.
  - rewrite Hv. by apply NoDup_app in Hnd as (_ & _ & ?).
  - done.
  - intros x Hx. apply Henq, elem_of_app. right. by rewrite <- Hv.
Qed.

End GraphClaims.

(** C9, enqueued at most once: this part does not hold.  An element
    that waits in [readyList] is enqueued again when another relation
    leads to it: in [diamondGraph], element 2 is enqueued for 0→2 and
    again for 1→2. *)
Lemma Predecessor_enqueues_twice :
  ∃ o, Predecessor diamondGraph 0 3 = Some o ∧ ¬ NoDup (enqueues (events o)).
Proof.
  eexists. split; [by vm_compute|].
  evaluate.
Qed.

Lemma wf_chainGraph : wf chainGraph.
Proof.
  unfold chainGraph.
  repeat (first [apply wf_newRelation; [by vm_compute|]
                |apply wf_AddGraphElement
                |apply wf_emptyGraph]).
Defined.

Lemma Predecessor_chain_witness :
  (∀ x y, edge chainGraph x y ↔ (x = 0 ∧ y = 1) ∨ (x = 1 ∧ y = 2)) ∧
  (∃ o, Predecessor chainGraph 0 2 = Some o ∧ result o = true) ∧
  (∃ o, Predecessor chainGraph 2 0 = Some o ∧ result o = false) ∧
  (∃ o, Predecessor chainGraph 1 0 = Some o ∧ result o = false).
Proof.
  assert (∀ x y, edge chainGraph x y ↔ (x = 0 ∧ y = 1) ∨ (x = 1 ∧ y = 2)) as Hedge.
  { intros x y. rewrite (edge_relations _ _ _ wf_chainGraph).
    replace (snd <$> map_to_list (relations chainGraph))
      with [Relation 1 2; Relation 0 1] by (by vm_compute).
    rewrite !elem_of_cons, elem_of_nil. split.
    - intros [[= -> ->]|[[= -> ->]|[]]]; [by right|by left].
    - intros [[-> ->]|[-> ->]]; [right; by left|by left]. }
  split; [exact Hedge|].
  apply (Predecessor_chain chainGraph 0 1 2); [lia|lia|lia|exact Hedge].
Defined.

Lemma RemoveGraphElement_destroys_relations_witness :
  wf chainGraph ∧
  outgoing (RemoveGraphElement 1 chainGraph) 1 = [] ∧
  incoming (RemoveGraphElement 1 chainGraph) 1 = [].
Proof.
  split; [exact wf_chainGraph|].
  destruct (RemoveGraphElement_destroys_relations chainGraph 1 wf_chainGraph)
    as (_ & _ & Hout & Hin & _).
  split; [exact Hout|exact Hin].
Defined.

Lemma Predecessor_keeps_members_witness :
  NoDup (elementList chainGraph) ∧
  (∀ x, x = 0 ∨ path chainGraph 0 x → x ∈ elementList chainGraph) ∧
  ∃ o, Predecessor chainGraph 0 2 = Some o ∧
       elementList (after o) ≡ₚ elementList chainGraph.
Proof.
  assert (NoDup (elementList chainGraph)) as Hnd
    by evaluate.
  assert (∀ x, x = 0 ∨ path chainGraph 0 x → x ∈ elementList chainGraph) as Hclosed.
  { intros x [->|Hp%path_allFinishes].
    - evaluate.
    - revert Hp. replace (allFinishes chainGraph) with [2; 1] by (by vm_compute).
      replace (elementList chainGraph) with [0; 1; 2] by (by vm_compute).
      intros [->|[->|[]%elem_of_nil]%elem_of_cons]%elem_of_cons;
        evaluate. }
  split_and!; [exact Hnd|exact Hclosed|].
  destruct (Predecessor_keeps_members chainGraph 0 2 Hnd Hclosed) as (o & Ho & Hperm & _).
  exists o. split; [exact Ho|exact Hperm].
Defined.

(** ** Further properties of the graph *)

Section SearchExtras.
Implicit Types (w : world) (st : search) (r : rel) (e a x y first second : elem).

#[local] Arguments AppendListElement : simpl never.

(** *** What the predecessor test answers *)

Lemma edge_outgoing w x y :
  edge w x y ↔ ∃ r, r ∈ outgoing w x ∧ finishOf w r = Some y.
Proof. unfold edge, finishes. by rewrite list_elem_of_omap. Qed.

Lemma edge_same_lists w w' x y :
  relations w' = relations w → outgoingRelationList w' = outgoingRelationList w →
  edge w' x y ↔ edge w x y.
Proof.
  intros Hrel Hout. unfold edge, finishes, outgoing, finishOf. by rewrite Hrel, Hout.
Qed.

Lemma path_same_edges w w' x y :
  (∀ u v, edge w' u v ↔ edge w u v) → path w' x y ↔ path w x y.
Proof.
  intros Hedge. split; intros Hp; induction Hp as [u v He|u v z He _ IH].
  - apply tc_once. by apply Hedge.
  - eapply tc_l; [by apply Hedge|done].
  - apply tc_once. by apply Hedge.
  - eapply tc_l; [by apply Hedge|done].
Qed.

Lemma Predecessor_same_edges w w' first second o :
  (∀ u v, edge w' u v ↔ edge w u v) →
  Predecessor w first second = Some o →
  ∃ o', Predecessor w' first second = Some o' ∧ result o' = result o.
Proof.
  intros Hedge Ho.
  destruct (Predecessor_result w first second) as (o1 & Ho1 & Hres).
  destruct (Predecessor_result w' first second) as (o' & Ho' & Hres').
  assert (o1 = o) as -> by congruence.
  exists o'. split; [done|].
  rewrite (path_same_edges w w' first second Hedge) in Hres'.
  destruct (result o), (result o'); try done.
  - destruct Hres as [H _], Hres' as [_ H']. by specialize (H' (H eq_refl)).
  - destruct Hres as [_ H], Hres' as [H' _]. by specialize (H (H' eq_refl)).
Qed.

(** X16.  [Predecessor(first, second)] returns, and it returns [true]
    exactly when [second] is another element than [first] and a path of one
    or more relations leads from [first] to [second]. *)
Theorem Predecessor_decides_reachability w first second :
  ∃ o, Predecessor w first second = Some o ∧
       (result o = true ↔ first ≠ second ∧ path w first second) ∧
       (result o = false ↔ first = second ∨ ¬ path w first second).
Proof.
  destruct (Predecessor_result w first second) as (o & Ho & Hres).
  exists o. split_and!; [done| |].
  - rewrite Hres. intuition congruence.
  - destruct (decide (first = second)) as [Heq|Hne].
    + split; [by left|]. intros _. destruct (result o); [|done].
      destruct Hres as [Hres _]. by destruct (Hres eq_refl).
    + destruct (result o).
      * destruct Hres as [Hres _]. destruct (Hres eq_refl) as [_ Hp].
        split; [done|]. by intros [?|?].
      * split; [|done]. intros _. right. intros Hp.
        destruct Hres as [_ Hres]. by discriminate Hres.
Qed.

(** X17.  The answers compose: when [Predecessor(a, b)] and [Predecessor(b,
    c)] return [true] and [c] is not [a], [Predecessor(a, c)] returns
    [true]. *)
Theorem Predecessor_transitive w a b c oab obc :
  Predecessor w a b = Some oab → result oab = true →
  Predecessor w b c = Some obc → result obc = true →
  a ≠ c →
  ∃ oac, Predecessor w a c = Some oac ∧ result oac = true.
Proof.
  intros Hab Rab Hbc Rbc Hne.
  destruct (Predecessor_result w a b) as (o1 & Ho1 & Hres1).
  destruct (Predecessor_result w b c) as (o2 & Ho2 & Hres2).
  destruct (Predecessor_result w a c) as (o3 & Ho3 & Hres3).
  assert (o1 = oab) as -> by congruence. assert (o2 = obc) as -> by congruence.
  exists o3. split; [done|]. apply Hres3. split; [done|].
  destruct Hres1 as [Hres1 _], Hres2 as [Hres2 _].
  destruct (Hres1 Rab) as [_ Hp1], (Hres2 Rbc) as [_ Hp2].
  by eapply tc_transitive.
Qed.

(** X18.  The answer depends on the relations only: it is the same after any
    call of [Predecessor], which reorders the element list, after
    [DetachGraphElement(e)] and after [AddGraphElement(e)]. *)
Theorem Predecessor_answer_is_stable w first second e x y :
  ∃ o q, Predecessor w x y = Some o ∧ Predecessor w first second = Some q ∧
    (∃ q1, Predecessor (after o) first second = Some q1 ∧ result q1 = result q) ∧
    (∃ q2, Predecessor (DetachGraphElement e w) first second = Some q2 ∧
           result q2 = result q) ∧
    (∃ q3, Predecessor (AddGraphElement e w) first second = Some q3 ∧
           result q3 = result q).
Proof.
  destruct (Predecessor_returns w x y) as (res & st & _ & Ho).
  destruct (Predecessor_result w first second) as (q & Hr & _).
  eexists _, q. split_and!; [exact Ho|done| | |].
  - apply (Predecessor_same_edges w); [|done]. intros u v. by apply edge_same_lists.
  - apply (Predecessor_same_edges w); [|done]. intros u v. by apply edge_same_lists.
  - apply (Predecessor_same_edges w); [|done]. intros u v. by apply edge_same_lists.
Qed.

(** *** Where the elements are after the call *)

Lemma enqueues_snoc_Enqueue tr x : enqueues (tr ++ [Enqueue x]) = enqueues tr ++ [x].
Proof. unfold enqueues. by rewrite omap_app. Qed.

Lemma enqueues_snoc_Visit tr x : enqueues (tr ++ [Visit x]) = enqueues tr.
Proof. unfold enqueues. rewrite omap_app. simpl. by rewrite app_nil_r. Qed.

Lemma filter_iff_elem (P Q : elem → Prop)
    `{!∀ x, Decision (P x), !∀ x, Decision (Q x)} (l : list elem) :
  (∀ x, x ∈ l → P x ↔ Q x) → filter P l = filter Q l.
Proof.
  induction l as [|z l IH]; intros Hiff; [done|].
  rewrite !filter_cons.
  rewrite IH by (intros x Hx; apply Hiff; by right).
  assert (P z ↔ Q z) as Hz by (apply Hiff; left).
  destruct (decide (P z)), (decide (Q z)); tauto.
Qed.

(** The elements still in [elementList] are those never enqueued, in
    their order, and the two local lists hold what has been
    enqueued. *)
Abbreviation sifted := (λ w st,
  graphList st = filter (λ x, x ∉ enqueues (trace st)) (elementList w) ∧
  ∀ x, x ∈ frontier st ↔ x ∈ enqueues (trace st)).

Lemma sifted_visit w st x rest :
  sifted w st → NoDup (frontier st) → readyList st = x :: rest →
  sifted w (AppendListElement TheVisitedList x st).
Proof.
  intros [Hg Hf] Hnd Hr.
  destruct (AppendListElement_visited x rest st Hnd Hr) as (Hr' & Hv' & Hg' & Ht').
  assert (x ∈ frontier st) as Hx.
  { unfold frontier. rewrite Hr. apply elem_of_app. left. left. }
  split.
  - rewrite Hg', Ht', enqueues_snoc_Visit, <- Hg. apply unlink_absent.
    rewrite Hg. intros [Hn _]%list_elem_of_filter. by apply Hn, Hf.
  - intros z. rewrite Ht', enqueues_snoc_Visit, <- Hf. unfold frontier.
    rewrite Hr', Hv', Hr. rewrite !elem_of_app, !elem_of_cons, elem_of_nil.
    tauto.
Qed.

Lemma sifted_enqueue w st finish :
  sifted w st → finish ∉ visitedList st →
  sifted w (AppendListElement TheReadyList finish st).
Proof.
  intros [Hg Hf] Hnv.
  destruct (AppendListElement_ready finish st Hnv) as (Hr' & Hv' & Hg' & Ht').
  split.
  - rewrite Hg', Ht', enqueues_snoc_Enqueue, Hg. unfold unlink.
    rewrite list_filter_filter. apply filter_iff_elem. intros z _.
    rewrite not_elem_of_app, list_elem_of_singleton. tauto.
  - intros z. rewrite Ht', enqueues_snoc_Enqueue, elem_of_app, <- Hf. unfold frontier.
    rewrite Hr', Hv'. rewrite !elem_of_app, elem_of_unlink, !list_elem_of_singleton.
    destruct (decide (z = finish)); tauto.
Qed.

Lemma sifted_start w first : sifted w (startState w first).
Proof.
  unfold startState. split; simpl.
  - unfold unlink. apply filter_iff_elem. intros z _.
    rewrite list_elem_of_singleton. tauto.
  - done.
Qed.

Lemma searchLoop_sifted w first second res st :
  searchLoop (searchFuel w) w second (startState w first) = Some (res, st) →
  sifted w st ∧ NoDup (frontier st) ∧ (res = false → readyList st = []).
Proof.
  intros Hrun.
  apply (searchLoop_ind (sifted w) _ _ _ _ _ _) in Hrun as (Hs & Hnd & Hres).
  - split; [exact Hs|]. split; [exact Hnd|]. intros ->. done.
  - intros s x rest Hs Hnd Hr. exact (sifted_visit w s x rest Hs Hnd Hr).
  - intros s finish Hs _ Hnv _ _. exact (sifted_enqueue w s finish Hs Hnv).
  - apply startState_NoDup.
  - apply sifted_start.
Qed.

(** X20.  After a call of [Predecessor] the element list holds first the
    elements the search has not enqueued, in the order they had, then the
    elements still waiting in [readyList], then the visited elements in the
    order of their visits; no element is in it twice, and nothing is left
    waiting when the call returns [false].  Its members are those it had and
    the elements the search has enqueued, so an element that was reached but
    was not a member (after [DetachGraphElement], say) is a member
    afterwards. *)
Theorem Predecessor_moves_touched_to_the_back w first second :
  NoDup (elementList w) →
  ∃ o waiting,
    Predecessor w first second = Some o ∧
    elementList (after o)
    = filter (λ x, x ∉ enqueues (events o)) (elementList w)
      ++ waiting ++ visits (events o) ∧
    NoDup (elementList (after o)) ∧
    (∀ x, x ∈ waiting ↔ x ∈ enqueues (events o) ∧ x ∉ visits (events o)) ∧
    (result o = false → waiting = []) ∧
    (∀ x, x ∈ elementList (after o) ↔ x ∈ elementList w ∨ x ∈ enqueues (events o)).
Proof.
  intros Hel.
  destruct (Predecessor_returns w first second) as (res & st & Hrun & ->).
  destruct (searchLoop_sifted _ _ _ _ _ Hrun) as ([Hg Hf] & Hnd & Hres).
  destruct (searchLoop_recorded _ _ _ _ _ Hrun) as ((Hv & _ & _) & _).
  assert (NoDup (members st)) as Hm.
  { unfold members. apply NoDup_app. split_and!; [|..|done].
    - rewrite Hg. by apply NoDup_filter.
    - intros x Hx Hx'. rewrite Hg in Hx. apply list_elem_of_filter in Hx as [Hn _].
      by apply Hn, Hf. }
  assert (graphList (giveBack st)
          = filter (λ x, x ∉ enqueues (trace st)) (elementList w)
            ++ readyList st ++ visits (trace st)) as Hafter.
  { rewrite (giveBack_graphList st Hm). unfold members. by rewrite Hg, Hv. }
  eexists _, (readyList st). split; [done|]. simpl. split_and!.
  - done.
  - by rewrite (giveBack_graphList st Hm).
  - intros x. rewrite Hv, <- Hf. unfold frontier. rewrite elem_of_app. split.
    + intros Hx. split; [by left|]. intros Hxv.
      apply NoDup_app in Hnd as (_ & Hd & _). by apply (Hd x).
    + intros [[?|?] ?]; done.
  - done.
  - intros x. rewrite Hafter, Hv, !elem_of_app, list_elem_of_filter.
    fold (frontier st). rewrite <- elem_of_app. fold (frontier st). rewrite Hf.
    destruct (decide (x ∈ enqueues (trace st))); tauto.
Qed.

(** *** What the search visits *)

(** X19.  [Predecessor(first, second)] visits only [first] and elements that
    a path leads to from [first]; when it returns [false] it has visited
    every one of them. *)
Theorem Predecessor_visits_what_is_reachable w first second :
  ∃ o, Predecessor w first second = Some o ∧
       (∀ x, x ∈ visits (events o) → x = first ∨ path w first x) ∧
       (result o = false →
        ∀ x, x ∈ visits (events o) ↔ x = first ∨ path w first x).
Proof.
  destruct (Predecessor_returns w first second) as (res & st & Hrun & ->).
  eexists. split; [done|]. simpl.
  destruct (searchLoop_recorded _ _ _ _ _ Hrun) as ((Hv & _ & _) & _).
  pose proof (searchLoop_reached _ _ _ _ _ Hrun) as Hreach.
  assert (∀ x, x ∈ visits (trace st) → x = first ∨ path w first x) as Hsound.
  { intros x Hx. apply Hreach. unfold frontier. apply elem_of_app. right.
    by rewrite <- Hv. }
  split; [done|]. intros ->. intros x. split; [apply Hsound|].
  destruct (searchLoop_closed _ _ first _ _ _ Hrun) as ((Hsucc & _ & Hfirst) & Hr).
  - apply startState_NoDup.
  - split_and!.
    + by intros u v ?%elem_of_nil.
    + rewrite startState_frontier. by intros ->%list_elem_of_singleton.
    + rewrite startState_frontier. left.
  - unfold frontier in Hsucc, Hfirst. rewrite Hr in Hsucc, Hfirst.
    simpl in Hsucc, Hfirst. rewrite Hv.
    intros [->|Hpath]; [done|]. clear Hrun Hreach Hsound. revert Hfirst.
    induction Hpath as [u v Huv|u v z Huv _ IH]; intros Hu.
    + by eapply Hsucc.
    + apply IH. by eapply Hsucc.
Qed.
End SearchExtras.

Section RelationExtras.
Implicit Types (w : world) (r : rel) (e a b x y : elem) (R : GraphRelationFinish)
  (l : list rel).

(** *** Looking up relations *)

Lemma scanOutgoing_head w b l :
  scanOutgoing w b l = head (filter (λ r, finishOf w r = Some b) l).
Proof.
  induction l as [|r l IH]; [done|]. simpl. rewrite filter_cons.
  by destruct (decide (finishOf w r = Some b)).
Qed.

Lemma scanIncoming_head w a l :
  scanIncoming w a l = head (filter (λ r, startOf w r = Some a) l).
Proof.
  induction l as [|r l IH]; [done|]. simpl. rewrite filter_cons.
  by destruct (decide (startOf w r = Some a)).
Qed.

Lemma head_filter_Some (P : rel → Prop) `{!∀ r, Decision (P r)} l r :
  head (filter P l) = Some r → r ∈ l ∧ P r.
Proof.
  intros Hr%head_Some_elem_of. apply list_elem_of_filter in Hr. tauto.
Qed.

Lemma head_filter_is_None (P : rel → Prop) `{!∀ r, Decision (P r)} l :
  head (filter P l) = None ↔ ∀ r, r ∈ l → ¬ P r.
Proof.
  rewrite head_None. split.
  - intros Hnil r Hin HP.
    assert (r ∈ filter P l) as Hr by by apply list_elem_of_filter.
    rewrite Hnil in Hr. by apply elem_of_nil in Hr.
  - intros Hall. by apply filter_none_in.
Qed.

Lemma relation_both_lists w r a b :
  wf w → startOf w r = Some a → finishOf w r = Some b →
  r ∈ outgoing w a ∧ r ∈ incoming w b.
Proof.
  intros Hwf Ha Hb. split.
  - by apply elem_of_outgoing.
  - by apply elem_of_incoming.
Qed.

(** X22.  In a consistent graph what [FindOutgoingRelation] returns for [a]
    and the finish element [b], and what [FindIncomingRelation] returns for
    [b] and the start element [a], is a relation from [a] to [b] that is a
    member of both lists.  Either returns null exactly when the other does,
    which is when no relation leads from [a] to [b]; and when a relation is
    found and [b] is not [a], [Predecessor(a, b)] returns [true]. *)
Theorem FindOutgoingRelation_and_FindIncomingRelation_agree w a b :
  wf w →
  (∀ r, FindOutgoingRelation w a b = Some r →
        startOf w r = Some a ∧ finishOf w r = Some b ∧ r ∈ incoming w b) ∧
  (∀ r, FindIncomingRelation w b a = Some r →
        startOf w r = Some a ∧ finishOf w r = Some b ∧ r ∈ outgoing w a) ∧
  (FindOutgoingRelation w a b = None ↔ FindIncomingRelation w b a = None) ∧
  (FindOutgoingRelation w a b = None ↔ ¬ edge w a b) ∧
  (a ≠ b → FindOutgoingRelation w a b ≠ None →
   ∃ o, Predecessor w a b = Some o ∧ result o = true).
Proof.
  intros Hwf. unfold FindOutgoingRelation, FindIncomingRelation.
  rewrite scanOutgoing_head, scanIncoming_head.
  assert (head (filter (λ r, finishOf w r = Some b) (outgoing w a)) = None
          ↔ ¬ edge w a b) as Hnone.
  { rewrite head_filter_is_None, edge_outgoing. split.
    - intros Hall (r & Hr & Hb). by apply (Hall r).
    - intros Hno r Hr Hb. apply Hno. by exists r. }
  split_and!.
  - intros r [Hin Hb]%head_filter_Some.
    apply (elem_of_outgoing w a r Hwf) in Hin. split_and!; [done|done|].
    by apply elem_of_incoming.
  - intros r [Hin Ha]%head_filter_Some.
    apply (elem_of_incoming w b r Hwf) in Hin. split_and!; [done|done|].
    by apply elem_of_outgoing.
  - rewrite !head_filter_is_None. split.
    + intros Hall r Hr%(elem_of_incoming w b r Hwf) Ha.
      apply (Hall r); [by apply elem_of_outgoing|done].
    + intros Hall r Hr%(elem_of_outgoing w a r Hwf) Hb.
      apply (Hall r); [by apply elem_of_incoming|done].
  - done.
  - intros Hne Hsome.
    destruct (Predecessor_result w a b) as (o & Ho & Hres). exists o. split; [done|].
    apply Hres. split; [done|]. apply tc_once.
    destruct (head (filter (λ r, finishOf w r = Some b) (outgoing w a)))
      as [r|] eqn:Hr; [|done].
    apply head_filter_Some in Hr as [Hin Hb]. apply edge_outgoing. by exists r.
Qed.

(** The relations [FindNextOutgoingRelation] reaches one after the
    other, from what [FindOutgoingRelation] returned. *)
Lemma follow_FindNextOutgoingRelation w a b fuel prefix suffix :
  wf w → outgoing w a = prefix ++ suffix → length suffix ≤ fuel →
  follow (FindNextOutgoingRelation w b) (λ _, true) fuel (scanOutgoing w b suffix)
  = filter (λ r, finishOf w r = Some b) suffix.
Proof.
  intros Hwf. revert prefix fuel.
  induction suffix as [|r suffix IH]; intros prefix fuel Hl Hfuel.
  - by destruct fuel.
  - simpl. rewrite filter_cons.
    destruct (decide (finishOf w r = Some b)) as [Hb|Hb].
    + destruct fuel as [|fuel]; [simpl in Hfuel; lia|]. simpl. f_equal.
      assert (r ∈ outgoing w a) as Hr by (rewrite Hl, elem_of_app; right; left).
      unfold FindNextOutgoingRelation.
      rewrite (proj1 (elem_of_outgoing w a r Hwf) Hr). rewrite Hl.
      rewrite successors_split.
      * apply (IH (prefix ++ [r])); [by rewrite <- app_assoc|simpl in Hfuel; lia].
      * pose proof (wf_outgoing_NoDup w Hwf a) as Hnd. rewrite Hl in Hnd.
        apply NoDup_app in Hnd as (_ & Hd & _). intros Hin. apply (Hd r Hin). left.
    + apply (IH (prefix ++ [r])); [by rewrite <- app_assoc|simpl in Hfuel; lia].
Qed.

Lemma follow_FindNextIncomingRelation w a b fuel prefix suffix :
  wf w → incoming w b = prefix ++ suffix → length suffix ≤ fuel →
  follow (FindNextIncomingRelation w a) (λ _, true) fuel (scanIncoming w a suffix)
  = filter (λ r, startOf w r = Some a) suffix.
Proof.
  intros Hwf. revert prefix fuel.
  induction suffix as [|r suffix IH]; intros prefix fuel Hl Hfuel.
  - by destruct fuel.
  - simpl. rewrite filter_cons.
    destruct (decide (startOf w r = Some a)) as [Ha|Ha].
    + destruct fuel as [|fuel]; [simpl in Hfuel; lia|]. simpl. f_equal.
      assert (r ∈ incoming w b) as Hr by (rewrite Hl, elem_of_app; right; left).
      unfold FindNextIncomingRelation.
      rewrite (proj1 (elem_of_incoming w b r Hwf) Hr). rewrite Hl.
      rewrite successors_split.
      * apply (IH (prefix ++ [r])); [by rewrite <- app_assoc|simpl in Hfuel; lia].
      * pose proof (wf_incoming_NoDup w Hwf b) as Hnd. rewrite Hl in Hnd.
        apply NoDup_app in Hnd as (_ & Hd & _). intros Hin. apply (Hd r Hin). left.
    + apply (IH (prefix ++ [r])); [by rewrite <- app_assoc|simpl in Hfuel; lia].
Qed.

(** X23.  [FindOutgoingRelation] followed by [FindNextOutgoingRelation]
    until null is returned enumerates the relations from [a] to [b] in the
    order of the outgoing list of [a], within as many steps as [a] has
    outgoing relations.  [FindIncomingRelation] and
    [FindNextIncomingRelation] enumerate them in the order of the incoming
    list of [b]: the same relations, possibly in another order. *)
Theorem FindNext_enumerates_parallel_relations w a b :
  wf w →
  follow (FindNextOutgoingRelation w b) (λ _, true) (GetOutgoingRelationCount w a)
         (FindOutgoingRelation w a b)
  = filter (λ r, finishOf w r = Some b) (outgoing w a) ∧
  follow (FindNextIncomingRelation w a) (λ _, true) (GetIncomingRelationCount w b)
         (FindIncomingRelation w b a)
  = filter (λ r, startOf w r = Some a) (incoming w b) ∧
  filter (λ r, finishOf w r = Some b) (outgoing w a)
  ≡ₚ filter (λ r, startOf w r = Some a) (incoming w b).
Proof.
  intros Hwf. split_and!.
  - by apply (follow_FindNextOutgoingRelation w a b _ []).
  - by apply (follow_FindNextIncomingRelation w a b _ []).
  - apply NoDup_Permutation.
    + apply NoDup_filter, (wf_outgoing_NoDup w Hwf).
    + apply NoDup_filter, (wf_incoming_NoDup w Hwf).
    + intros r. rewrite !list_elem_of_filter.
      rewrite (elem_of_outgoing w a r Hwf), (elem_of_incoming w b r Hwf). tauto.
Qed.

(** *** A new relation *)

Lemma finishOf_insert w r R r' :
  finishElement <$> (<[r := R]> (relations w) !! r')
  = if decide (r' = r) then Some (finishElement R) else finishOf w r'.
Proof.
  case_decide as Hr; [subst; by rewrite lookup_insert_eq|].
  by rewrite lookup_insert_ne.
Qed.

(** X24.  Constructing a relation from [start] to [finish] keeps the graph
    consistent and adds that edge and no other.  The outgoing count of
    [start] and the incoming count of [finish] grow by one, also when a
    relation between the two exists already, and [FindOutgoingRelation] then
    returns the earlier relation, the new one only when there was none.
    [Predecessor(start, finish)] returns [true] when the two differ. *)
Theorem newRelation_adds_an_edge w r start finish :
  wf w → relations w !! r = None →
  let w' := newRelation r start finish w in
  wf w' ∧
  (∀ x y, edge w' x y ↔ edge w x y ∨ (x = start ∧ y = finish)) ∧
  GetOutgoingRelationCount w' start = S (GetOutgoingRelationCount w start) ∧
  GetIncomingRelationCount w' finish = S (GetIncomingRelationCount w finish) ∧
  FindOutgoingRelation w' start finish
  = (if FindOutgoingRelation w start finish is Some r0 then Some r0 else Some r) ∧
  (start ≠ finish → ∃ o, Predecessor w' start finish = Some o ∧ result o = true).
Proof.
  intros Hwf Hfresh w'.
  assert (∀ e, r ∉ outgoing w e) as Hro.
  { intros e (R & ? & _)%(wf_outgoing w Hwf). congruence. }
  assert (∀ e, outgoing w' e
               = if decide (e = start) then outgoing w start ++ [r] else outgoing w e)
    as Hout.
  { intros e. unfold w', newRelation, outgoing at 1. simpl.
    by rewrite list_update_lookup. }
  assert (∀ e, incoming w' e
               = if decide (e = finish) then incoming w finish ++ [r] else incoming w e)
    as Hin.
  { intros e. unfold w', newRelation, incoming at 1. simpl.
    by rewrite list_update_lookup. }
  assert (∀ r', finishOf w' r'
                = if decide (r' = r) then Some finish else finishOf w r') as Hfin.
  { intros r'. unfold finishOf at 1, w', newRelation. simpl.
    by rewrite finishOf_insert. }
  assert (∀ x y, edge w' x y ↔ edge w x y ∨ (x = start ∧ y = finish)) as Hedge.
  { intros x y. rewrite !edge_outgoing. split.
    - intros (r' & Hr' & Hy). rewrite Hfin in Hy. rewrite Hout in Hr'.
      destruct (decide (r' = r)) as [->|Hne].
      + right. destruct (decide (x = start)) as [->|Hx].
        * split; [done|congruence].
        * by apply Hro in Hr'.
      + left. exists r'. split; [|done]. destruct (decide (x = start)) as [->|Hx]; [|done].
        apply elem_of_app in Hr' as [?|?%list_elem_of_singleton]; done.
    - intros [(r' & Hr' & Hy)|[-> ->]].
      + exists r'. rewrite Hfin, Hout.
        rewrite (decide_False (P := r' = r)) by (intros ->; by apply Hro in Hr').
        split; [|done]. case_decide; [subst; apply elem_of_app; by left|done].
      + exists r. rewrite Hfin, Hout, !decide_True by done.
        split; [|done]. apply elem_of_app. right. left. }
  split_and!.
  - by apply wf_newRelation.
  - done.
  - unfold GetOutgoingRelationCount. rewrite Hout, decide_True by done.
    rewrite length_app. simpl. lia.
  - unfold GetIncomingRelationCount. rewrite Hin, decide_True by done.
    rewrite length_app. simpl. lia.
  - unfold FindOutgoingRelation. rewrite !scanOutgoing_head.
    rewrite Hout, decide_True by done. rewrite filter_app.
    rewrite (filter_ext_in (λ r', finishOf w' r' = Some finish)
                           (λ r', finishOf w r' = Some finish) (outgoing w start)).
    + rewrite filter_cons_True by (by rewrite Hfin, decide_True).
      by destruct (filter _ (outgoing w start)).
    + intros r' Hr'. rewrite Hfin. rewrite decide_False; [done|].
      intros Heq. apply (Hro start). by rewrite <- Heq.
  - intros Hne. destruct (Predecessor_result w' start finish) as (o & Ho & Hres).
    exists o. split; [done|]. apply Hres. split; [done|].
    apply tc_once, Hedge. by right.
Qed.

(** *** Elements without relations *)

Lemma outgoing_nil w a : wf w → outgoing w a = [] ↔ ∀ r, startOf w r ≠ Some a.
Proof.
  intros Hwf. split.
  - intros Hnil r Hr%(elem_of_outgoing w a r Hwf). rewrite Hnil in Hr.
    by apply elem_of_nil in Hr.
  - intros Hall. destruct (outgoing w a) as [|r l] eqn:Hl; [done|].
    destruct (Hall r). apply (elem_of_outgoing w a r Hwf). rewrite Hl. left.
Qed.

Lemma incoming_nil w a : wf w → incoming w a = [] ↔ ∀ r, finishOf w r ≠ Some a.
Proof.
  intros Hwf. split.
  - intros Hnil r Hr%(elem_of_incoming w a r Hwf). rewrite Hnil in Hr.
    by apply elem_of_nil in Hr.
  - intros Hall. destruct (incoming w a) as [|r l] eqn:Hl; [done|].
    destruct (Hall r). apply (elem_of_incoming w a r Hwf). rewrite Hl. left.
Qed.

Lemma edge_ends w x y :
  wf w → edge w x y → outgoing w x ≠ [] ∧ incoming w y ≠ [].
Proof.
  intros Hwf (r & Hr & Hy)%edge_outgoing. split.
  - intros Hnil. rewrite Hnil in Hr. by apply elem_of_nil in Hr.
  - intros Hnil. pose proof (proj1 (elem_of_outgoing w x r Hwf) Hr) as Hx.
    destruct (relation_both_lists w r x y Hwf Hx Hy) as [_ Hin].
    rewrite Hnil in Hin. by apply elem_of_nil in Hin.
Qed.

Lemma path_ends w x y :
  wf w → path w x y → outgoing w x ≠ [] ∧ incoming w y ≠ [].
Proof.
  intros Hwf Hp. induction Hp as [x y He|x z y He _ IH].
  - by apply edge_ends.
  - split; [|by destruct IH]. by destruct (edge_ends w x z Hwf He).
Qed.

Lemma IsolatedGraphElement_true w a :
  IsolatedGraphElement w a = true ↔ outgoing w a = [] ∧ incoming w a = [].
Proof.
  unfold IsolatedGraphElement. by rewrite andb_true_iff, !bool_decide_eq_true.
Qed.

(** X28.  In a consistent graph [IsolatedGraphElement] returns [true]
    exactly when no relation starts or finishes at the element;
    [Predecessor] then returns [false] from it and to it.  After
    [RemoveGraphElement(a)] the element [a] is isolated. *)
Theorem IsolatedGraphElement_has_no_relations w a :
  wf w →
  (IsolatedGraphElement w a = true ↔ ∀ r, ¬ incident w a r) ∧
  (IsolatedGraphElement w a = true →
   ∀ x, (∃ o, Predecessor w a x = Some o ∧ result o = false) ∧
        (∃ o, Predecessor w x a = Some o ∧ result o = false)) ∧
  IsolatedGraphElement (RemoveGraphElement a w) a = true.
Proof.
  intros Hwf. split_and!.
  - rewrite IsolatedGraphElement_true, (outgoing_nil w a Hwf), (incoming_nil w a Hwf).
    unfold incident. split.
    + intros [Ho Hi] r [?|?]; [by apply (Ho r)|by apply (Hi r)].
    + intros Hall. split; intros r Hr; apply (Hall r); [by left|by right].
  - intros [Ho Hi]%IsolatedGraphElement_true x. split.
    + destruct (Predecessor_result w a x) as (o & Hr & Hres). exists o. split; [done|].
      destruct (result o); [|done]. destruct Hres as [Hres _].
      destruct (Hres eq_refl) as [_ Hp]. by destruct (path_ends w a x Hwf Hp).
    + destruct (Predecessor_result w x a) as (o & Hr & Hres). exists o. split; [done|].
      destruct (result o); [|done]. destruct Hres as [Hres _].
      destruct (Hres eq_refl) as [_ Hp]. by destruct (path_ends w x a Hwf Hp).
  - destruct (RemoveGraphElement_spec w a Hwf) as (_ & _ & Hout & Hin & _).
    apply IsolatedGraphElement_true. rewrite Hout, Hin. split.
    + apply filter_none_in. intros r Hr Hn. apply Hn. left. by apply elem_of_outgoing.
    + apply filter_none_in. intros r Hr Hn. apply Hn. right. by apply elem_of_incoming.
Qed.

(** X29.  [RemoveGraphElement(a)] removes the edges from and to [a] and no
    other.  A path of the graph that is left is a path of the graph before
    that does not touch [a], so when [Predecessor] returns [true] afterwards
    neither element is [a] and it returned [true] before. *)
Theorem RemoveGraphElement_cuts_paths w a :
  wf w →
  let w' := RemoveGraphElement a w in
  (∀ x y, edge w' x y ↔ edge w x y ∧ x ≠ a ∧ y ≠ a) ∧
  (∀ x y, path w' x y → path w x y ∧ x ≠ a ∧ y ≠ a) ∧
  (∀ x y o', Predecessor w' x y = Some o' → result o' = true →
             x ≠ a ∧ y ≠ a ∧ ∃ o, Predecessor w x y = Some o ∧ result o = true).
Proof.
  intros Hwf w'.
  destruct (RemoveGraphElement_spec w a Hwf) as (Hwf' & Hrel & Hout & _ & _).
  fold w' in Hwf', Hrel, Hout.
  assert (∀ x y, edge w' x y ↔ edge w x y ∧ x ≠ a ∧ y ≠ a) as Hedge.
  { intros x y. rewrite !edge_outgoing. split.
    - intros (r & Hr & Hy). rewrite Hout in Hr.
      apply list_elem_of_filter in Hr as [Hni Hr].
      pose proof (proj1 (elem_of_outgoing w x r Hwf) Hr) as Hx.
      assert (finishOf w r = Some y) as Hy'.
      { unfold finishOf in Hy |- *. rewrite Hrel in Hy. by rewrite decide_False in Hy. }
      split_and!.
      + by exists r.
      + intros ->. apply Hni. by left.
      + intros ->. apply Hni. by right.
    - intros ((r & Hr & Hy) & Hx & Hya).
      pose proof (proj1 (elem_of_outgoing w x r Hwf) Hr) as Hsx.
      assert (¬ incident w a r) as Hni.
      { intros [?|?]; congruence. }
      exists r. split.
      + rewrite Hout. by apply list_elem_of_filter.
      + unfold finishOf in Hy |- *. rewrite Hrel. by rewrite decide_False. }
  assert (∀ x y, path w' x y → path w x y ∧ x ≠ a ∧ y ≠ a) as Hpath.
  { intros x y Hp. induction Hp as [x y He|x z y He _ IH].
    - apply Hedge in He as (He & ? & ?). split_and!; [by apply tc_once|done|done].
    - apply Hedge in He as (He & ? & ?). destruct IH as (Hp & _ & ?).
      split_and!; [by eapply tc_l|done|done]. }
  split_and!; [done|done|].
  intros x y o' Ho' Hres'.
  destruct (Predecessor_result w' x y) as (o1 & Ho1 & Hr1).
  assert (o1 = o') as -> by congruence.
  destruct Hr1 as [Hr1 _]. destruct (Hr1 Hres') as [Hne Hp].
  destruct (Hpath x y Hp) as (Hp' & ? & ?). split_and!; [done|done|].
  destruct (Predecessor_result w x y) as (o & Ho & Hr). exists o. split; [done|].
  by apply Hr.
Qed.

(** *** Detaching, attaching and re-pointing a relation *)

Lemma elem_of_move r l r' : r' ∈ unlink r l ++ [r] ↔ (r' ∈ l ∧ r' ≠ r) ∨ r' = r.
Proof. by rewrite elem_of_app, elem_of_unlink, list_elem_of_singleton. Qed.

Lemma NoDup_move r l : NoDup l → NoDup (unlink r l ++ [r]).
Proof.
  intros Hnd. apply NoDup_app. split_and!.
  - by apply NoDup_unlink.
  - intros r' [_ Hne]%elem_of_unlink ->%list_elem_of_singleton. done.
  - apply NoDup_singleton.
Qed.

Lemma unlink_unlink r l : unlink r (unlink r l) = unlink r l.
Proof. apply unlink_absent. by intros [_ ?]%elem_of_unlink. Qed.

Lemma appendOutgoing_lookup w r start e :
  (∀ e', r ∈ outgoing w e' → startOf w r = Some e') →
  default [] (appendOutgoing r start w !! e)
  = if decide (e = start) then unlink r (outgoing w e) ++ [r]
    else unlink r (outgoing w e).
Proof.
  intros Hin. unfold appendOutgoing. cbv zeta.
  assert (∀ e', default []
             (match startOf w r with
              | Some old => <[old := unlink r (outgoing w old)]> (outgoingRelationList w)
              | None => outgoingRelationList w
              end !! e') = unlink r (outgoing w e')) as Hlists.
  { intros e'. destruct (startOf w r) as [old|] eqn:Hold.
    - rewrite list_update_lookup. case_decide as He; [by subst|].
      fold (outgoing w e'). symmetry. apply unlink_absent.
      intros Hr%Hin. congruence.
    - fold (outgoing w e'). symmetry. apply unlink_absent.
      intros Hr%Hin. congruence. }
  rewrite list_update_lookup. case_decide as He.
  - subst e. by rewrite Hlists.
  - apply Hlists.
Qed.

Lemma appendIncoming_lookup w r finish e :
  (∀ e', r ∈ incoming w e' → finishOf w r = Some e') →
  default [] (appendIncoming r finish w !! e)
  = if decide (e = finish) then unlink r (incoming w e) ++ [r]
    else unlink r (incoming w e).
Proof.
  intros Hin. unfold appendIncoming. cbv zeta.
  assert (∀ e', default []
             (match finishOf w r with
              | Some old => <[old := unlink r (incoming w old)]> (incomingRelationList w)
              | None => incomingRelationList w
              end !! e') = unlink r (incoming w e')) as Hlists.
  { intros e'. destruct (finishOf w r) as [old|] eqn:Hold.
    - rewrite list_update_lookup. case_decide as He; [by subst|].
      fold (incoming w e'). symmetry. apply unlink_absent.
      intros Hr%Hin. congruence.
    - fold (incoming w e'). symmetry. apply unlink_absent.
      intros Hr%Hin. congruence. }
  rewrite list_update_lookup. case_decide as He.
  - subst e. by rewrite Hlists.
  - apply Hlists.
Qed.

Lemma wf_same_members w w' :
  wf w → relations w' = relations w →
  (∀ e r, r ∈ outgoing w' e ↔ r ∈ outgoing w e) →
  (∀ e r, r ∈ incoming w' e ↔ r ∈ incoming w e) →
  (∀ e, NoDup (outgoing w' e)) → (∀ e, NoDup (incoming w' e)) →
  wf w'.
Proof.
  intros [Ho Hi _ _] Hrel Hout Hin Hno Hni. split; [| |done|done].
  - intros e r. rewrite Hout, Hrel. apply Ho.
  - intros e r. rewrite Hin, Hrel. apply Hi.
Qed.

(** X25.  [DetachRelation] takes a relation out of both lists and leaves its
    two pointers and the other relations alone: the edges left are those of
    the other relations, and detaching once more changes nothing.
    [AttachRelation] then makes the relation the last member of the outgoing
    list of its start and of the incoming list of its finish: the graph is
    consistent again and has the edges it had. *)
Theorem DetachRelation_then_AttachRelation w r R :
  wf w → relations w !! r = Some R →
  let w1 := DetachRelation r w in
  let w2 := AttachRelation r w1 in
  (relations w1 = relations w ∧
   (∀ e, outgoing w1 e = unlink r (outgoing w e)) ∧
   (∀ e, incoming w1 e = unlink r (incoming w e)) ∧
   (∀ x y, edge w1 x y ↔ ∃ r', r' ≠ r ∧ r' ∈ outgoing w x ∧ finishOf w r' = Some y) ∧
   DetachRelation r w1 = w1) ∧
  (wf w2 ∧ relations w2 = relations w ∧
   (∀ e, outgoing w2 e = if decide (e = startElement R)
                         then unlink r (outgoing w e) ++ [r] else outgoing w e) ∧
   (∀ e, incoming w2 e = if decide (e = finishElement R)
                         then unlink r (incoming w e) ++ [r] else incoming w e) ∧
   (∀ x y, edge w2 x y ↔ edge w x y)).
Proof.
  intros Hwf HR w1 w2.
  assert (startOf w r = Some (startElement R)) as Hs by (by apply startOf_Some; exists R).
  assert (finishOf w r = Some (finishElement R)) as Hf
    by (by apply finishOf_Some; exists R).
  destruct (relation_both_lists w r _ _ Hwf Hs Hf) as [Hro Hri].
  assert (w1 = World (relations w)
                 (<[startElement R := unlink r (outgoing w (startElement R))]>
                    (outgoingRelationList w))
                 (<[finishElement R := unlink r (incoming w (finishElement R))]>
                    (incomingRelationList w))
                 (elementList w)) as Hw1
    by (unfold w1, DetachRelation; by rewrite HR).
  assert (∀ e, outgoing w1 e = unlink r (outgoing w e)) as Hout1.
  { intros e. rewrite Hw1. unfold outgoing at 1. simpl. rewrite list_update_lookup.
    case_decide as He; [by subst|]. fold (outgoing w e). symmetry. apply unlink_absent.
    intros Hin%(elem_of_outgoing w e r Hwf). congruence. }
  assert (∀ e, incoming w1 e = unlink r (incoming w e)) as Hin1.
  { intros e. rewrite Hw1. unfold incoming at 1. simpl. rewrite list_update_lookup.
    case_decide as He; [by subst|]. fold (incoming w e). symmetry. apply unlink_absent.
    intros Hin%(elem_of_incoming w e r Hwf). congruence. }
  assert (relations w1 = relations w) as Hrel1 by by rewrite Hw1.
  assert (w2 = World (relations w1) (appendOutgoing r (startElement R) w1)
                     (appendIncoming r (finishElement R) w1) (elementList w1)) as Hw2
    by (unfold w2, AttachRelation; by rewrite Hrel1, HR).
  assert (relations w2 = relations w) as Hrel2 by by rewrite Hw2.
  assert (∀ e, outgoing w2 e = if decide (e = startElement R)
                               then unlink r (outgoing w e) ++ [r] else outgoing w e)
    as Hout2.
  { intros e. rewrite Hw2. unfold outgoing at 1. simpl.
    rewrite appendOutgoing_lookup.
    - rewrite Hout1, unlink_unlink. case_decide; [done|]. apply unlink_absent.
      intros Hin%(elem_of_outgoing w e r Hwf). congruence.
    - intros e'. rewrite Hout1. by intros [_ ?]%elem_of_unlink. }
  assert (∀ e, incoming w2 e = if decide (e = finishElement R)
                               then unlink r (incoming w e) ++ [r] else incoming w e)
    as Hin2.
  { intros e. rewrite Hw2. unfold incoming at 1. simpl.
    rewrite appendIncoming_lookup.
    - rewrite Hin1, unlink_unlink. case_decide; [done|]. apply unlink_absent.
      intros Hin%(elem_of_incoming w e r Hwf). congruence.
    - intros e'. rewrite Hin1. by intros [_ ?]%elem_of_unlink. }
  assert (∀ e r', r' ∈ outgoing w2 e ↔ r' ∈ outgoing w e) as Hmo.
  { intros e r'. rewrite Hout2. case_decide as He; [subst e|done].
    rewrite elem_of_move. split; [intros [[? _]| ->]; done|].
    intros ?. destruct (decide (r' = r)); [by right|by left]. }
  assert (∀ e r', r' ∈ incoming w2 e ↔ r' ∈ incoming w e) as Hmi.
  { intros e r'. rewrite Hin2. case_decide as He; [subst e|done].
    rewrite elem_of_move. split; [intros [[? _]| ->]; done|].
    intros ?. destruct (decide (r' = r)); [by right|by left]. }
  split; split_and!; try done.
  - intros x y. rewrite edge_outgoing. unfold finishOf. rewrite Hrel1.
    setoid_rewrite Hout1. setoid_rewrite elem_of_unlink.
    split; intros (r' & ? & ?); exists r'; tauto.
  - unfold DetachRelation. rewrite Hrel1, HR.
    rewrite Hout1, Hin1, !unlink_unlink. rewrite Hw1. simpl.
    by rewrite !insert_insert_eq.
  - apply (wf_same_members w); try done.
    + intros e. rewrite Hout2. case_decide; [|apply (wf_outgoing_NoDup w Hwf)].
      apply NoDup_move, (wf_outgoing_NoDup w Hwf).
    + intros e. rewrite Hin2. case_decide; [|apply (wf_incoming_NoDup w Hwf)].
      apply NoDup_move, (wf_incoming_NoDup w Hwf).
  - intros x y. rewrite !edge_outgoing. unfold finishOf. rewrite Hrel2.
    by setoid_rewrite Hmo.
Qed.

(** X26.  [SetStartElement(start)] on a relation of a consistent graph keeps
    the graph consistent: the relation now starts at [start] and finishes
    where it did, it has left the outgoing list it was in and is the last
    member of that of [start] (also when [start] is its old start), and the
    incoming lists, the other relations and the element list are untouched.
    The edges are those of the other relations and the one from [start]. *)
Theorem SetStartElement_moves_the_relation w r R start :
  wf w → relations w !! r = Some R →
  let w' := SetStartElement r start w in
  wf w' ∧
  startOf w' r = Some start ∧ finishOf w' r = Some (finishElement R) ∧
  (∀ r', r' ≠ r → relations w' !! r' = relations w !! r') ∧
  (∀ e, outgoing w' e = if decide (e = start) then unlink r (outgoing w e) ++ [r]
                        else unlink r (outgoing w e)) ∧
  incomingRelationList w' = incomingRelationList w ∧
  elementList w' = elementList w ∧
  (∀ x y, edge w' x y ↔
          (x = start ∧ y = finishElement R) ∨
          ∃ r', r' ≠ r ∧ r' ∈ outgoing w x ∧ finishOf w r' = Some y).
Proof.
  intros Hwf HR w'.
  assert (w' = World (<[r := Relation start (finishElement R)]> (relations w))
                     (appendOutgoing r start w) (incomingRelationList w) (elementList w))
    as Hw' by (unfold w', SetStartElement; by rewrite HR).
  assert (∀ e, outgoing w' e = if decide (e = start) then unlink r (outgoing w e) ++ [r]
                               else unlink r (outgoing w e)) as Hout.
  { intros e. rewrite Hw'. unfold outgoing at 1. simpl.
    apply appendOutgoing_lookup. intros e' Hin. by apply elem_of_outgoing. }
  assert (∀ r', relations w' !! r'
                = if decide (r' = r) then Some (Relation start (finishElement R))
                  else relations w !! r') as Hrel.
  { intros r'. rewrite Hw'. simpl. case_decide; [subst; apply lookup_insert_eq|].
    by apply lookup_insert_ne. }
  assert (∀ e r', r' ∈ outgoing w' e ↔ (r' = r ∧ e = start) ∨ (r' ≠ r ∧ r' ∈ outgoing w e))
    as Hmem.
  { intros e r'. rewrite Hout. case_decide as He.
    - rewrite elem_of_move. destruct (decide (r' = r)); tauto.
    - rewrite elem_of_unlink. destruct (decide (r' = r)); tauto. }
  assert (∀ r', r' ≠ r → finishOf w' r' = finishOf w r') as Hfin.
  { intros r' Hne. unfold finishOf. by rewrite Hrel, decide_False. }
  assert (finishOf w' r = Some (finishElement R)) as Hfr.
  { unfold finishOf. by rewrite Hrel, decide_True. }
  split_and!.
  - split.
    + intros e r'. rewrite Hmem, Hrel. case_decide as Hr.
      * subst r'. split; [intros [[_ ->]|[? _]]; [by eexists|done]|].
        intros (R' & [= <-] & <-). by left.
      * rewrite (wf_outgoing w Hwf). tauto.
    + intros e r'. rewrite Hw' at 1. unfold incoming at 1. simpl. fold (incoming w e).
      rewrite (wf_incoming w Hwf), Hrel. case_decide as Hr; [|done].
      subst r'. rewrite HR. split; intros (R' & [= <-] & <-); by eexists.
    + intros e. rewrite Hout. case_decide.
      * apply NoDup_move, (wf_outgoing_NoDup w Hwf).
      * apply NoDup_unlink, (wf_outgoing_NoDup w Hwf).
    + intros e. rewrite Hw'. unfold incoming. simpl. apply (wf_incoming_NoDup w Hwf e).
  - unfold startOf. by rewrite Hrel, decide_True.
  - done.
  - intros r' Hne. by rewrite Hrel, decide_False.
  - done.
  - by rewrite Hw'.
  - by rewrite Hw'.
  - intros x y. rewrite edge_outgoing. split.
    + intros (r' & [[-> ->]|[Hne Hin]]%Hmem & Hy).
      * left. split; [done|]. congruence.
      * right. exists r'. rewrite <- (Hfin r' Hne). done.
    + intros [[-> ->]|(r' & Hne & Hin & Hy)].
      * exists r. split; [apply Hmem; by left|done].
      * exists r'. split; [apply Hmem; by right|]. by rewrite Hfin.
Qed.

(** X27.  [SetFinishElement(finish)] on a relation of a consistent graph
    keeps the graph consistent: the relation now finishes at [finish] and
    starts where it did, it has left the incoming list it was in and is the
    last member of that of [finish], and the outgoing lists, the other
    relations and the element list are untouched.  The edges are those of
    the other relations and the one to [finish]. *)
Theorem SetFinishElement_moves_the_relation w r R finish :
  wf w → relations w !! r = Some R →
  let w' := SetFinishElement r finish w in
  wf w' ∧
  startOf w' r = Some (startElement R) ∧ finishOf w' r = Some finish ∧
  (∀ r', r' ≠ r → relations w' !! r' = relations w !! r') ∧
  (∀ e, incoming w' e = if decide (e = finish) then unlink r (incoming w e) ++ [r]
                        else unlink r (incoming w e)) ∧
  outgoingRelationList w' = outgoingRelationList w ∧
  elementList w' = elementList w ∧
  (∀ x y, edge w' x y ↔
          (x = startElement R ∧ y = finish) ∨
          ∃ r', r' ≠ r ∧ r' ∈ outgoing w x ∧ finishOf w r' = Some y).
Proof.
  intros Hwf HR w'.
  assert (w' = World (<[r := Relation (startElement R) finish]> (relations w))
                     (outgoingRelationList w) (appendIncoming r finish w) (elementList w))
    as Hw' by (unfold w', SetFinishElement; by rewrite HR).
  assert (∀ e, incoming w' e = if decide (e = finish) then unlink r (incoming w e) ++ [r]
                               else unlink r (incoming w e)) as Hin.
  { intros e. rewrite Hw'. unfold incoming at 1. simpl.
    apply appendIncoming_lookup. intros e' Hr. by apply elem_of_incoming. }
  assert (∀ r', relations w' !! r'
                = if decide (r' = r) then Some (Relation (startElement R) finish)
                  else relations w !! r') as Hrel.
  { intros r'. rewrite Hw'. simpl. case_decide; [subst; apply lookup_insert_eq|].
    by apply lookup_insert_ne. }
  assert (∀ e r', r' ∈ incoming w' e ↔ (r' = r ∧ e = finish) ∨ (r' ≠ r ∧ r' ∈ incoming w e))
    as Hmem.
  { intros e r'. rewrite Hin. case_decide as He.
    - rewrite elem_of_move. destruct (decide (r' = r)); tauto.
    - rewrite elem_of_unlink. destruct (decide (r' = r)); tauto. }
  assert (∀ e, outgoing w' e = outgoing w e) as Hout by (intros e; by rewrite Hw').
  assert (∀ r', r' ≠ r → finishOf w' r' = finishOf w r') as Hfin.
  { intros r' Hne. unfold finishOf. by rewrite Hrel, decide_False. }
  assert (finishOf w' r = Some finish) as Hfr.
  { unfold finishOf. by rewrite Hrel, decide_True. }
  assert (startOf w r = Some (startElement R)) as Hs by (by apply startOf_Some; exists R).
  split_and!.
  - split.
    + intros e r'. rewrite Hout, (wf_outgoing w Hwf), Hrel. case_decide as Hr; [|done].
      subst r'. rewrite HR. split; intros (R' & [= <-] & <-); by eexists.
    + intros e r'. rewrite Hmem, Hrel. case_decide as Hr.
      * subst r'. split; [intros [[_ ->]|[? _]]; [by eexists|done]|].
        intros (R' & [= <-] & <-). by left.
      * rewrite (wf_incoming w Hwf). tauto.
    + intros e. rewrite Hout. apply (wf_outgoing_NoDup w Hwf e).
    + intros e. rewrite Hin. case_decide.
      * apply NoDup_move, (wf_incoming_NoDup w Hwf).
      * apply NoDup_unlink, (wf_incoming_NoDup w Hwf).
  - unfold startOf. by rewrite Hrel, decide_True.
  - done.
  - intros r' Hne. by rewrite Hrel, decide_False.
  - done.
  - by rewrite Hw'.
  - by rewrite Hw'.
  - intros x y. rewrite edge_outgoing. setoid_rewrite Hout. split.
    + intros (r' & Hr' & Hy). destruct (decide (r' = r)) as [->|Hne].
      * left. apply (elem_of_outgoing w x r Hwf) in Hr'. split; congruence.
      * right. exists r'. by rewrite <- (Hfin r' Hne).
    + intros [[-> ->]|(r' & Hne & Hr' & Hy)].
      * exists r. split; [by apply elem_of_outgoing|done].
      * exists r'. split; [done|]. by rewrite Hfin.
Qed.
End RelationExtras.

Section WorkExtras.
Implicit Types (w : world) (st : search) (r : rel) (x y first second : elem)
  (l fs : list elem).

#[local] Arguments AppendListElement : simpl never.

(** *** The work of the search *)

(** The relations walked when the elements of [l] are visited. *)
Abbreviation work w l := (sum_list ((λ x, length (finishes w x)) <$> l)).

Lemma work_snoc w l x : work w (l ++ [x]) = work w l + length (finishes w x).
Proof. induction l as [|z l IH]; csimpl; lia. Qed.

Lemma scanRelations_enqueues second fs st :
  length (enqueues (trace (scanRelations second fs st).2))
  ≤ length (enqueues (trace st)) + length fs.
Proof.
  revert st. induction fs as [|finish rest IH]; intros st; simpl; [lia|].
  destruct (Member_visitedList finish st).
  - specialize (IH st). lia.
  - case_decide; [simpl; lia|].
    specialize (IH (AppendListElement TheReadyList finish st)).
    assert (trace (AppendListElement TheReadyList finish st)
            = trace st ++ [Enqueue finish]) as Ht by done.
    rewrite Ht, enqueues_snoc_Enqueue, length_app in IH. simpl in IH. lia.
Qed.

Lemma scanRelations_NoDup second fs st :
  NoDup (frontier st) → NoDup (frontier (scanRelations second fs st).2).
Proof.
  intros Hnd. apply (scanRelations_ind (λ s, NoDup (frontier s))); [|done].
  intros s finish Hs _ Hnv _. by apply NoDup_frontier_ready.
Qed.

Lemma searchLoop_work fuel w second st res st' :
  NoDup (frontier st) → searchLoop fuel w second st = Some (res, st') →
  length (enqueues (trace st')) + work w (visitedList st)
  ≤ length (enqueues (trace st)) + work w (visitedList st').
Proof.
  revert st. induction fuel as [|fuel IH]; intros st Hnd Hrun; [done|].
  rewrite searchLoop_unfold in Hrun. destruct (readyList st) as [|x rest] eqn:Hr.
  - injection Hrun as <- <-. lia.
  - cbv zeta in Hrun.
    destruct (AppendListElement_visited x rest st Hnd Hr) as (_ & Hv1 & _ & Ht1).
    pose proof (NoDup_frontier_visited x rest st Hnd Hr) as Hnd1.
    set (st1 := AppendListElement TheVisitedList x st) in *.
    pose proof (scanRelations_enqueues second (finishes w x) st1) as Hen.
    pose proof (scanRelations_NoDup second (finishes w x) st1 Hnd1) as Hnd2.
    pose proof (scanRelations_visitedList second (finishes w x) st1) as Hv2.
    rewrite Ht1, enqueues_snoc_Visit in Hen. rewrite Hv1 in Hv2.
    destruct (scanRelations second (finishes w x) st1) as [[] st2];
      simpl in Hrun, Hen, Hnd2, Hv2.
    + injection Hrun as <- <-. rewrite Hv2, work_snoc.
      lia.
    + specialize (IH st2 Hnd2 Hrun). rewrite Hv2, work_snoc in IH.
      lia.
Qed.

Lemma length_omap_le {A B} (f : A → option B) (k : list A) :
  length (omap f k) ≤ length k.
Proof.
  induction k as [|z k IH]; [done|]. csimpl. destruct (f z); csimpl; lia.
Qed.

Lemma walked_relations w l :
  wf w → NoDup l →
  ∃ rs : list rel,
    NoDup rs ∧
    (∀ r, r ∈ rs → ∃ x, x ∈ l ∧ startOf w r = Some x) ∧
    work w l ≤ length rs.
Proof.
  intros Hwf. induction l as [|x l IH]; intros Hnd.
  - exists []. split_and!; [constructor|by intros r ?%elem_of_nil|done].
  - apply NoDup_cons in Hnd as [Hx Hnd]. destruct (IH Hnd) as (rs & Hrs & Hstart & Hlen).
    exists (outgoing w x ++ rs). split_and!.
    + apply NoDup_app. split_and!; [apply (wf_outgoing_NoDup w Hwf)| |done].
      intros r Hr%(elem_of_outgoing w x r Hwf) (x' & Hx' & Hr')%Hstart. congruence.
    + intros r [Hr%(elem_of_outgoing w x r Hwf)|(x' & Hx' & Hr')%Hstart]%elem_of_app.
      * exists x. split; [left|done].
      * exists x'. split; [by right|done].
    + csimpl. rewrite length_app.
      pose proof (length_omap_le (finishOf w) (outgoing w x)) as Hle.
      fold (finishes w x) in Hle. lia.
Qed.

Lemma work_bound w l : wf w → NoDup l → work w l ≤ size (relations w).
Proof.
  intros Hwf Hnd. destruct (walked_relations w l Hwf Hnd) as (rs & Hrs & Hstart & Hlen).
  etrans; [exact Hlen|].
  rewrite <- (length_map_to_list (relations w)), <- (length_fmap fst).
  apply submseteq_length, NoDup_submseteq; [done|].
  intros r (x & _ & (R & HR & _)%startOf_Some)%Hstart.
  apply list_elem_of_fmap. exists (r, R). split; [done|]. by apply elem_of_map_to_list.
Qed.

(** X21.  In a consistent graph a call of [Predecessor] enqueues [first] and
    at most one element per relation, and it visits no more elements than it
    enqueues. *)
Theorem Predecessor_work_is_linear w first second :
  wf w →
  ∃ o, Predecessor w first second = Some o ∧
       length (enqueues (events o)) ≤ S (size (relations w)) ∧
       length (visits (events o)) ≤ length (enqueues (events o)).
Proof.
  intros Hwf.
  destruct (Predecessor_returns w first second) as (res & st & Hrun & ->).
  eexists. split; [done|]. simpl.
  destruct (searchLoop_recorded _ _ _ _ _ Hrun) as ((Hv & _ & Henq) & Hnd).
  assert (NoDup (visitedList st)) as Hndv by (by apply NoDup_app in Hnd as (_ & _ & ?)).
  split.
  - pose proof (searchLoop_work _ _ _ _ _ _ (startState_NoDup w first) Hrun) as Hwork.
    pose proof (work_bound w (visitedList st) Hwf Hndv) as Hbound.
    simpl in Hwork. lia.
  - rewrite Hv. apply submseteq_length, NoDup_submseteq; [done|].
    intros x Hx. apply Henq. unfold frontier. apply elem_of_app. by right.
Qed.
End WorkExtras.

(** Witnesses of the further properties, at the chain A→B→C. *)

Lemma Predecessor_transitive_witness :
  0 ≠ 2 ∧ ∃ oac, Predecessor chainGraph 0 2 = Some oac ∧ result oac = true.
Proof.
  split; [lia|].
  destruct (Predecessor_result chainGraph 0 1) as (oab & Hab & Rab).
  destruct (Predecessor_result chainGraph 1 2) as (obc & Hbc & Rbc).
  apply (Predecessor_transitive chainGraph 0 1 2 oab obc Hab).
  - apply Rab. split; [lia|]. apply tc_once. unfold edge. evaluate.
  - exact Hbc.
  - apply Rbc. split; [lia|]. apply tc_once. unfold edge. evaluate.
  - lia.
Defined.

Lemma Predecessor_moves_touched_to_the_back_witness :
  NoDup (elementList chainGraph) ∧
  ∃ o, Predecessor chainGraph 0 2 = Some o ∧ NoDup (elementList (after o)).
Proof.
  assert (NoDup (elementList chainGraph)) as Hnd by evaluate.
  split; [exact Hnd|].
  destruct (Predecessor_moves_touched_to_the_back chainGraph 0 2 Hnd)
    as (o & waiting & Ho & _ & Hafter & _).
  exists o. split; [exact Ho|exact Hafter].
Defined.

Lemma FindOutgoingRelation_and_FindIncomingRelation_agree_witness :
  wf chainGraph ∧
  (FindOutgoingRelation chainGraph 0 1 = None ↔ FindIncomingRelation chainGraph 1 0 = None).
Proof.
  split; [exact wf_chainGraph|].
  destruct (FindOutgoingRelation_and_FindIncomingRelation_agree chainGraph 0 1 wf_chainGraph)
    as (_ & _ & Hagree & _).
  exact Hagree.
Defined.

Lemma FindNext_enumerates_parallel_relations_witness :
  wf chainGraph ∧
  follow (FindNextOutgoingRelation chainGraph 1) (λ _, true)
         (GetOutgoingRelationCount chainGraph 0) (FindOutgoingRelation chainGraph 0 1)
  = filter (λ r, finishOf chainGraph r = Some 1) (outgoing chainGraph 0).
Proof.
  split; [exact wf_chainGraph|].
  destruct (FindNext_enumerates_parallel_relations chainGraph 0 1 wf_chainGraph) as [Hout _].
  exact Hout.
Defined.

Lemma newRelation_adds_an_edge_witness :
  wf chainGraph ∧ relations chainGraph !! 2 = None ∧
  let w' := newRelation 2 2 0 chainGraph in
  ∀ x y, edge w' x y ↔ edge chainGraph x y ∨ (x = 2 ∧ y = 0).
Proof.
  split; [exact wf_chainGraph|].
  assert (relations chainGraph !! 2 = None) as Hfresh by (vm_compute; reflexivity).
  split; [exact Hfresh|].
  destruct (newRelation_adds_an_edge chainGraph 2 2 0 wf_chainGraph Hfresh) as (_ & Hedge & _).
  exact Hedge.
Defined.

Lemma DetachRelation_then_AttachRelation_witness :
  wf chainGraph ∧ relations chainGraph !! 0 = Some (Relation 0 1) ∧
  let w1 := DetachRelation 0 chainGraph in
  let w2 := AttachRelation 0 w1 in
  ∀ x y, edge w2 x y ↔ edge chainGraph x y.
Proof.
  split; [exact wf_chainGraph|].
  assert (relations chainGraph !! 0 = Some (Relation 0 1)) as HR by (vm_compute; reflexivity).
  split; [exact HR|].
  destruct (DetachRelation_then_AttachRelation chainGraph 0 (Relation 0 1) wf_chainGraph HR)
    as (_ & _ & _ & _ & _ & Hedge).
  exact Hedge.
Defined.

Lemma SetStartElement_moves_the_relation_witness :
  wf chainGraph ∧ relations chainGraph !! 0 = Some (Relation 0 1) ∧
  let w' := SetStartElement 0 2 chainGraph in
  startOf w' 0 = Some 2.
Proof.
  split; [exact wf_chainGraph|].
  assert (relations chainGraph !! 0 = Some (Relation 0 1)) as HR by (vm_compute; reflexivity).
  split; [exact HR|].
  destruct (SetStartElement_moves_the_relation chainGraph 0 (Relation 0 1) 2 wf_chainGraph HR)
    as (_ & Hstart & _).
  exact Hstart.
Defined.

Lemma SetFinishElement_moves_the_relation_witness :
  wf chainGraph ∧ relations chainGraph !! 0 = Some (Relation 0 1) ∧
  let w' := SetFinishElement 0 2 chainGraph in
  finishOf w' 0 = Some 2.
Proof.
  split; [exact wf_chainGraph|].
  assert (relations chainGraph !! 0 = Some (Relation 0 1)) as HR by (vm_compute; reflexivity).
  split; [exact HR|].
  destruct (SetFinishElement_moves_the_relation chainGraph 0 (Relation 0 1) 2 wf_chainGraph HR)
    as (_ & _ & Hfinish & _).
  exact Hfinish.
Defined.

Lemma IsolatedGraphElement_has_no_relations_witness :
  wf chainGraph ∧
  IsolatedGraphElement (RemoveGraphElement 1 chainGraph) 1 = true.
Proof.
  split; [exact wf_chainGraph|].
  destruct (IsolatedGraphElement_has_no_relations chainGraph 1 wf_chainGraph) as (_ & _ & Hiso).
  exact Hiso.
Defined.

Lemma RemoveGraphElement_cuts_paths_witness :
  wf chainGraph ∧
  let w' := RemoveGraphElement 1 chainGraph in
  ∀ x y, edge w' x y ↔ edge chainGraph x y ∧ x ≠ 1 ∧ y ≠ 1.
Proof.
  split; [exact wf_chainGraph|].
  destruct (RemoveGraphElement_cuts_paths chainGraph 1 wf_chainGraph) as [Hedge _].
  exact Hedge.
Defined.

Lemma Predecessor_work_is_linear_witness :
  wf chainGraph ∧
  ∃ o, Predecessor chainGraph 0 2 = Some o ∧
       length (enqueues (events o)) ≤ S (size (relations chainGraph)).
Proof.
  split; [exact wf_chainGraph|].
  destruct (Predecessor_work_is_linear chainGraph 0 2 wf_chainGraph) as (o & Ho & Hwork & _).
  exists o. split; [exact Ho|exact Hwork].
Defined.

(** The example graphs, evaluated. *)

Example chainGraph_removal :
  let w := RemoveGraphElement 1 chainGraph in
  elementList w = [0; 2] ∧ relations w = ∅ ∧
  outgoing w 0 = [] ∧ incoming w 2 = [].
Proof. by vm_compute. Qed.

(** The call moves the elements it has touched behind the others. *)
Example Predecessor_reorders :
  (λ o, (result o, elementList (after o))) <$> Predecessor chainGraph 0 2
  = Some (true, [2; 0; 1]).
Proof. by vm_compute. Qed.

Example Predecessor_two_cycle :
  path twoCycleGraph 0 0 ∧
  (λ o, (result o, events o)) <$> Predecessor twoCycleGraph 0 0
  = Some (false, [Enqueue 0; Visit 0; Enqueue 1; Visit 1]).
Proof.
  split; [|by vm_compute].
  apply (tc_l _ 0 1 0); [|apply tc_once]; unfold edge;
    evaluate.
Qed.

Example diamondGraph_events :
  events <$> Predecessor diamondGraph 0 3
  = Some [Enqueue 0; Visit 0; Enqueue 1; Enqueue 2; Visit 1; Enqueue 2; Visit 2].
Proof. by vm_compute. Qed.

End GraphProps.
